(** * streamjson: the streaming tokenizer and the AST builder

    A shallow embedding of [stream_json_tokenizer.go] and of the parser
    (package llmjson/streamjson): the tokenizer is a record threaded
    through every call, the Go heap of [*Node] values is an explicit list
    of nodes addressed by index, and the token loop of [processTokens] is
    iterated with fuel.  *)

From Stdlib Require Import String Ascii ZArith Floats Lia.
From stdpp Require Import gmap strings list fin_maps.

Local Open Scope nat_scope.
#[local] Set Warnings "-register-all".

(** ** Bytes and texts *)

(** Go strings and byte slices are sequences of bytes: [string] over
    [ascii].  The double quote and the backslash are named by their code. *)
Definition quote : ascii := ascii_of_nat 34.
Definition backslash : ascii := ascii_of_nat 92.

(** JSON texts are written with an apostrophe where the text has a double
    quote: [js] turns every apostrophe of its argument into a double quote.
    The comments below write JSON texts the same way. *)
Fixpoint js (s : string) : string :=
  match s with
  | EmptyString => EmptyString
  | String.String c r =>
      String.String (if Ascii.eqb c "'"%char then quote else c) (js r)
  end.

Definition byteIn (lo hi c : ascii) : bool :=
  (nat_of_ascii lo <=? nat_of_ascii c) && (nat_of_ascii c <=? nat_of_ascii hi).

Definition isDigit (char : ascii) : bool := byteIn "0" "9" char.

(** [isNumberChar]: a byte that can be part of a number. *)
Definition isNumberChar (char : ascii) : bool :=
  isDigit char || Ascii.eqb char "."%char || Ascii.eqb char "e"%char
  || Ascii.eqb char "E"%char || Ascii.eqb char "+"%char || Ascii.eqb char "-"%char.

(** [isLetter]: an ASCII letter. *)
Definition isLetter (char : ascii) : bool :=
  byteIn "a" "z" char || byteIn "A" "Z" char.

Definition isWhitespace (char : ascii) : bool :=
  Ascii.eqb char " "%char || Ascii.eqb char (ascii_of_nat 9)
  || Ascii.eqb char (ascii_of_nat 10) || Ascii.eqb char (ascii_of_nat 13).

(** ** Tokens *)

Inductive TokenType :=
  | ObjectStart | ObjectEnd | ArrayStart | ArrayEnd | Number | Bool
  | ObjectKey | String | Colon | Comma | Null | EOF | Invalid.

Record Token := mkToken {
  TokenStart : nat;
  TokenEnd : nat;
  TokenTy : TokenType;
  Content : string;
  Completed : bool
}.

(** ** The tokenizer *)

Record StreamJSONTokenizer := mkTokenizer {
  buffer : string;
  position : nat;
  lastToken : option Token;
  escapeNext : bool;
  expectingKey : bool
}.

Definition trueBytes : list ascii := list_ascii_of_string "true".
Definition falseBytes : list ascii := list_ascii_of_string "false".
Definition nullBytes : list ascii := list_ascii_of_string "null".

Definition NewStreamJSONTokenizer : StreamJSONTokenizer :=
  mkTokenizer EmptyString 0 None false false.

Definition setPosition (t : StreamJSONTokenizer) (pos : nat) :=
  mkTokenizer (buffer t) pos (lastToken t) (escapeNext t) (expectingKey t).
Definition setLastToken (t : StreamJSONTokenizer) (l : option Token) :=
  mkTokenizer (buffer t) (position t) l (escapeNext t) (expectingKey t).
Definition setEscapeNext (t : StreamJSONTokenizer) (e : bool) :=
  mkTokenizer (buffer t) (position t) (lastToken t) e (expectingKey t).
Definition setExpectingKey (t : StreamJSONTokenizer) (e : bool) :=
  mkTokenizer (buffer t) (position t) (lastToken t) (escapeNext t) e.

(** [Append] of the tokenizer: the buffer only grows. *)
Definition tokAppend (t : StreamJSONTokenizer) (content : string) :=
  mkTokenizer (buffer t +:+ content) (position t) (lastToken t)
              (escapeNext t) (expectingKey t).

(** [for t.position < len(t.buffer) && pred(t.buffer[t.position]) { t.position++ }]:
    the loop of [skipWhitespace], of the number scans and of the letter runs.
    It is run with [length buffer - position] steps, which it cannot exceed. *)
Fixpoint scanWhile (pred : ascii -> bool) (fuel : nat) (buf : string) (pos : nat) : nat :=
  match fuel with
  | O => pos
  | S fuel' =>
      match get pos buf with
      | Some char => if pred char then scanWhile pred fuel' buf (S pos) else pos
      | None => pos
      end
  end.

Definition scanRun (pred : ascii -> bool) (buf : string) (pos : nat) : nat :=
  scanWhile pred (String.length buf - pos) buf pos.

Definition skipWhitespace (t : StreamJSONTokenizer) : StreamJSONTokenizer :=
  setPosition t (scanRun isWhitespace (buffer t) (position t)).

(** [buildString]: the slice [buffer[start:end]], empty when [start >= end]. *)
Definition buildString (t : StreamJSONTokenizer) (start end_ : nat) : string :=
  if end_ <=? start then EmptyString else substring start (end_ - start) (buffer t).

(** The loop shared by [parseString] and [continueString]: it returns whether
    an unescaped quote closed the string, the position reached and the escape
    flag left behind. *)
Fixpoint scanString (fuel : nat) (buf : string) (pos : nat) (esc : bool)
  : bool * nat * bool :=
  match fuel with
  | O => (false, pos, esc)
  | S fuel' =>
      match get pos buf with
      | None => (false, pos, esc)
      | Some char =>
          if esc then scanString fuel' buf (S pos) false
          else if Ascii.eqb char backslash then scanString fuel' buf (S pos) true
          else if Ascii.eqb char quote then (true, S pos, esc)
          else scanString fuel' buf (S pos) esc
      end
  end.

Definition stringLoop (t : StreamJSONTokenizer) : bool * StreamJSONTokenizer :=
  let '(closed, pos, esc) :=
    scanString (String.length (buffer t) - position t) (buffer t) (position t) (escapeNext t) in
  (closed, setEscapeNext (setPosition t pos) esc).

Definition parseString (t : StreamJSONTokenizer) (startPos : nat)
  : Token * StreamJSONTokenizer :=
  let t := setPosition t (S (position t)) in
  let contentStart := startPos in
  let '(closed, t) := stringLoop t in
  let tokenType := if expectingKey t then ObjectKey else String in
  let token := mkToken startPos (position t) tokenType
                       (buildString t contentStart (position t)) closed in
  if closed then (token, t) else (token, setLastToken t (Some token)).

Definition continueString (t : StreamJSONTokenizer) (token : Token)
  : Token * StreamJSONTokenizer :=
  let '(closed, t) := stringLoop t in
  (mkToken (TokenStart token) (position t) (TokenTy token)
           (buildString t (TokenStart token) (position t)) closed, t).

(** The completion test of the number scans: a byte is present at the
    position reached and it is not a number byte. *)
Definition numberCompleted (t : StreamJSONTokenizer) : bool :=
  match get (position t) (buffer t) with
  | Some nextChar => negb (isNumberChar nextChar)
  | None => false
  end.

Definition parseNumber (t : StreamJSONTokenizer) (startPos : nat)
  : Token * StreamJSONTokenizer :=
  let t := match get (position t) (buffer t) with
           | Some c => if Ascii.eqb c "-"%char then setPosition t (S (position t)) else t
           | None => t
           end in
  let t := setPosition t (scanRun isNumberChar (buffer t) (position t)) in
  let completed := numberCompleted t in
  let token := mkToken startPos (position t) Number
                       (buildString t startPos (position t)) completed in
  if completed then (token, t) else (token, setLastToken t (Some token)).

Definition continueNumber (t : StreamJSONTokenizer) (token : Token)
  : Token * StreamJSONTokenizer :=
  let t := setPosition t (scanRun isNumberChar (buffer t) (position t)) in
  let completed := numberCompleted t in
  (mkToken (TokenStart token) (position t) Number
           (buildString t (TokenStart token) (position t)) completed, t).

(** [for i < len(expected) && t.position < len(t.buffer)]: match the buffer
    against what is left of the expected word.  The result says whether a byte
    differed, and the position of that byte (not yet stepped over) or the
    position reached. *)
Fixpoint matchLiteral (expected : list ascii) (buf : string) (pos : nat) : bool * nat :=
  match expected with
  | [] => (false, pos)
  | e :: rest =>
      match get pos buf with
      | None => (false, pos)
      | Some c => if Ascii.eqb c e then matchLiteral rest buf (S pos) else (true, pos)
      end
  end.

Definition nextIsLetter (t : StreamJSONTokenizer) : bool :=
  match get (position t) (buffer t) with
  | Some nextChar => isLetter nextChar
  | None => false
  end.

Definition skipLetters (t : StreamJSONTokenizer) : StreamJSONTokenizer :=
  setPosition t (scanRun isLetter (buffer t) (position t)).

Definition tokenAt (t : StreamJSONTokenizer) (start : nat) (ty : TokenType) (completed : bool) : Token :=
  mkToken start (position t) ty (buildString t start (position t)) completed.

(** [parseBool] and [parseNull] differ in the expected word and in the type
    of the token only; [parseLiteral] is their common body. *)
Definition parseLiteral (expected : list ascii) (ty : TokenType)
    (t : StreamJSONTokenizer) (startPos : nat) : Token * StreamJSONTokenizer :=
  let '(mismatch, pos) := matchLiteral expected (buffer t) (position t) in
  if mismatch then
    let t := setPosition t (S pos) in
    (tokenAt t startPos Invalid true, t)
  else
    let t := setPosition t pos in
    if position t - startPos =? length expected then
      if nextIsLetter t then
        let t := skipLetters t in (tokenAt t startPos Invalid true, t)
      else (tokenAt t startPos ty true, t)
    else
      let token := tokenAt t startPos ty false in
      (token, setLastToken t (Some token)).

Definition parseBool (t : StreamJSONTokenizer) (startPos : nat) :=
  let expected := match get (position t) (buffer t) with
                  | Some c => if Ascii.eqb c "t"%char then trueBytes else falseBytes
                  | None => falseBytes
                  end in
  parseLiteral expected Bool t startPos.

Definition parseNull (t : StreamJSONTokenizer) (startPos : nat) :=
  parseLiteral nullBytes Null t startPos.

(** [continueBool] and [continueNull]: resume at byte [tokenLen] of the word. *)
Definition continueLiteral (expected : list ascii) (ty : TokenType)
    (t : StreamJSONTokenizer) (token : Token) : Token * StreamJSONTokenizer :=
  let tokenLen := TokenEnd token - TokenStart token in
  let '(mismatch, pos) := matchLiteral (drop tokenLen expected) (buffer t) (position t) in
  let t := setPosition t pos in
  if mismatch then
    let t := skipLetters t in (tokenAt t (TokenStart token) Invalid true, t)
  else if position t - TokenStart token =? length expected then
    if nextIsLetter t then
      let t := skipLetters t in (tokenAt t (TokenStart token) Invalid true, t)
    else (tokenAt t (TokenStart token) ty true, t)
  else (tokenAt t (TokenStart token) ty false, t).

Definition continueBool (t : StreamJSONTokenizer) (token : Token) :=
  let tokenLen := TokenEnd token - TokenStart token in
  let expected :=
    if 0 <? tokenLen then
      match get (TokenStart token) (buffer t) with
      | Some c => if Ascii.eqb c "t"%char then trueBytes else falseBytes
      | None => falseBytes
      end
    else falseBytes in
  continueLiteral expected Bool t token.

Definition continueNull (t : StreamJSONTokenizer) (token : Token) :=
  continueLiteral nullBytes Null t token.

Definition continueToken (t : StreamJSONTokenizer) : Token * StreamJSONTokenizer :=
  match lastToken t with
  | None => (mkToken 0 0 Invalid EmptyString true, t)
  | Some last =>
      match TokenTy last with
      | String | ObjectKey => continueString t last
      | Number => continueNumber t last
      | Bool => continueBool t last
      | Null => continueNull t last
      | _ => (last, t)
      end
  end.

Definition single (t : StreamJSONTokenizer) (ty : TokenType) (char : ascii)
  : Token :=
  mkToken (position t) (S (position t)) ty (String.String char EmptyString) true.

(** The token that starts at the byte [char] found at the current position. *)
Definition freshToken (t : StreamJSONTokenizer) (char : ascii)
  : Token * StreamJSONTokenizer :=
  let startPos := position t in
  let step := setPosition t (S startPos) in
  if Ascii.eqb char "{"%char then (single t ObjectStart char, setExpectingKey step true)
  else if Ascii.eqb char "}"%char then (single t ObjectEnd char, setExpectingKey step false)
  else if Ascii.eqb char "["%char then (single t ArrayStart char, setExpectingKey step false)
  else if Ascii.eqb char "]"%char then (single t ArrayEnd char, step)
  else if Ascii.eqb char ":"%char then (single t Colon char, setExpectingKey step false)
  else if Ascii.eqb char ","%char then (single t Comma char, setExpectingKey step true)
  else if Ascii.eqb char quote then parseString t startPos
  else if Ascii.eqb char "t"%char || Ascii.eqb char "f"%char then parseBool t startPos
  else if Ascii.eqb char "n"%char then parseNull t startPos
  else if Ascii.eqb char "-"%char || isDigit char then parseNumber t startPos
  else (single t Invalid char, step).

(** The incomplete token the tokenizer is in the middle of, if any. *)
Definition pending (t : StreamJSONTokenizer) : option Token :=
  match lastToken t with
  | Some last => if Completed last then None else Some last
  | None => None
  end.

Definition NextToken (t : StreamJSONTokenizer) : Token * StreamJSONTokenizer :=
  match pending t with
  | Some _ =>
      let '(token, t) := continueToken t in
      (token, setLastToken t (if Completed token then None else Some token))
  | None =>
      let t := skipWhitespace t in
      match get (position t) (buffer t) with
      | None => (mkToken (position t) (position t) EOF EmptyString true, t)
      | Some char => freshToken t char
      end
  end.

(** The tokens [NextToken] gives until the end of input or an incomplete
    token, at most [n] of them, and the tokenizer they leave. *)
Fixpoint drain (n : nat) (t : StreamJSONTokenizer) : list Token * StreamJSONTokenizer :=
  match n with
  | O => ([], t)
  | S n' =>
      let '(token, t') := NextToken t in
      match TokenTy token with
      | EOF => ([], t')
      | _ =>
          if Completed token then
            let '(l, t'') := drain n' t' in (token :: l, t'')
          else ([token], t')
      end
  end.

Definition shown (k : Token) : TokenType * string * bool :=
  (TokenTy k, Content k, Completed k).

(** The tokens seen after each chunk of a chunked input. *)
Fixpoint tokenizeChunks (t : StreamJSONTokenizer) (chunks : list string)
  : list (list (TokenType * string * bool)) :=
  match chunks with
  | [] => []
  | c :: cs =>
      let t1 := tokAppend t c in
      let '(l, t2) := drain (S (String.length (buffer t1))) t1 in
      map shown l :: tokenizeChunks t2 cs
  end.

Definition tokenize (s : string) : list (TokenType * string * bool) :=
  concat (tokenizeChunks NewStreamJSONTokenizer [s]).

Example tokenize_basic :
  tokenize (js "{'key':123,true,false,null,[]}") =
  [(ObjectStart, "{", true); (ObjectKey, js "'key'", true); (Colon, ":", true);
   (Number, "123", true); (Comma, ",", true); (Bool, "true", true);
   (Comma, ",", true); (Bool, "false", true); (Comma, ",", true);
   (Null, "null", true); (Comma, ",", true); (ArrayStart, "[", true);
   (ArrayEnd, "]", true); (ObjectEnd, "}", true)]%string.
Proof. vm_compute. reflexivity. Qed.

(** ** strconv

    [strconv.ParseInt(s, 10, 64)] and [strconv.Atoi] follow the Go
    documentation: an optional sign, then one or more decimal digits, and a
    range error when the value does not fit 64 bits.  A text is either
    rejected ([None]) or read as the integer it denotes. *)

Definition digitVal (c : ascii) : option Z :=
  if isDigit c then Some (Z.of_nat (nat_of_ascii c) - 48)%Z else None.

Fixpoint parseDigits (s : string) (acc : Z) : option Z :=
  match s with
  | EmptyString => Some acc
  | String.String c r =>
      match digitVal c with
      | Some d => parseDigits r (acc * 10 + d)%Z
      | None => None
      end
  end.

Definition minInt64 : Z := (- 2 ^ 63)%Z.
Definition maxInt64 : Z := (2 ^ 63 - 1)%Z.

Definition parseSigned (neg : bool) (digits : string) : option Z :=
  match digits with
  | EmptyString => None
  | _ =>
      match parseDigits digits 0 with
      | None => None
      | Some un =>
          let v := if neg then (- un)%Z else un in
          if (minInt64 <=? v)%Z && (v <=? maxInt64)%Z then Some v else None
      end
  end.

Definition ParseInt (s : string) : option Z :=
  match s with
  | EmptyString => None
  | String.String c r =>
      if Ascii.eqb c "+"%char then parseSigned false r
      else if Ascii.eqb c "-"%char then parseSigned true r
      else parseSigned false s
  end.

Definition Atoi (s : string) : option Z := ParseInt s.

(** ** The tree

    A [*Node] is an index into the heap, the list of every node allocated
    so far; [NewNode] appends to it.  [interface{}] values are [GoValue]:
    the scalars a Value node holds, the node pointer that [getFromNode]
    hands out ([GoNode None] is the nil pointer boxed in an interface), and
    the plain containers [map[string]interface{}] and [[]interface{}]. *)

Abbreviation ptr := nat (only parsing).

Inductive GoValue :=
  | GoNil
  | GoString (s : string)
  | GoInt64 (z : Z)
  | GoFloat64 (f : float)
  | GoBool (b : bool)
  | GoNode (p : option ptr)
  | GoMap (m : list (string * GoValue))
  | GoSlice (l : list GoValue).

Inductive NodeType := ObjectNode | ArrayNode | ValueNode.

Record Node := mkNode {
  NodeTy : NodeType;
  Value : GoValue;
  Children : gmap string ptr;
  Array : list ptr;
  NodeCompleted : bool;
  Parent : option ptr
}.

Definition NewNode (nodeType : NodeType) : Node :=
  mkNode nodeType GoNil ∅ [] false None.

Definition isValueNode (n : Node) : bool :=
  match NodeTy n with ValueNode => true | _ => false end.

Definition alloc (h : list Node) (n : Node) : ptr * list Node :=
  (length h, h ++ [n]).

Definition nodeTypeAt (h : list Node) (p : ptr) : option NodeType :=
  NodeTy <$> h !! p.

Definition isObjectAt (h : list Node) (p : ptr) : bool :=
  match nodeTypeAt h p with Some ObjectNode => true | _ => false end.

Definition isArrayAt (h : list Node) (p : ptr) : bool :=
  match nodeTypeAt h p with Some ArrayNode => true | _ => false end.

(** [node.Children[key] = child] *)
Definition setChild (key : string) (child : ptr) (n : Node) : Node :=
  mkNode (NodeTy n) (Value n) (<[key := child]> (Children n)) (Array n)
         (NodeCompleted n) (Parent n).

(** [node.Array = append(node.Array, child)] *)
Definition appendElem (child : ptr) (n : Node) : Node :=
  mkNode (NodeTy n) (Value n) (Children n) (Array n ++ [child])
         (NodeCompleted n) (Parent n).

(** [node.Completed = true] *)
Definition markCompleted (n : Node) : Node :=
  mkNode (NodeTy n) (Value n) (Children n) (Array n) true (Parent n).

Record StackFrame := mkFrame {
  FrameNode : ptr;
  CurrentKey : string;
  ExpectingKey : bool;
  ExpectingValue : bool
}.

(** The frame pushed for a new container: an object frame expects a key, an
    array frame a value. *)
Definition firstFrame (nodeType : NodeType) (q : ptr) : StackFrame :=
  match nodeType with
  | ObjectNode => mkFrame q EmptyString true false
  | _ => mkFrame q EmptyString false true
  end.

(** The stack of open frames, the top frame first (the Go slice reversed). *)
Record StreamJSONParser := mkParser {
  tokenizer : StreamJSONTokenizer;
  heap : list Node;
  root : option ptr;
  stack : list StackFrame;
  started : bool
}.

Definition NewStreamJSONParser : StreamJSONParser :=
  mkParser NewStreamJSONTokenizer [] None [] false.

Definition nonEmpty (s : string) : bool :=
  match s with EmptyString => false | _ => true end.

Definition stripQuotes (content : string) : string :=
  let n := String.length content in
  if (2 <=? n)
     && bool_decide (get 0 content = Some quote)
     && bool_decide (get (n - 1) content = Some quote)
  then substring 1 (n - 2) content else content.

(** The scan of [parseTokenValue] for a decimal point or an exponent; it
    stops at the first of them. *)
Fixpoint scanDecimalExp (content : string) : bool * bool :=
  match content with
  | EmptyString => (false, false)
  | String.String c r =>
      if Ascii.eqb c "."%char then (true, false)
      else if Ascii.eqb c "e"%char || Ascii.eqb c "E"%char then (false, true)
      else scanDecimalExp r
  end.

Section Parser.

(** [strconv.ParseFloat(s, 64)] is not part of the repository: the parser is
    modelled over any float parser. *)
Variable ParseFloat : string -> option float.

Definition parseNumberValue (content : string) : GoValue :=
  let '(hasDecimal, hasExp) := scanDecimalExp content in
  let viaFloat :=
    match ParseFloat content with
    | Some val => GoFloat64 val
    | None => GoString content
    end in
  if negb hasDecimal && negb hasExp then
    match ParseInt content with
    | Some val => GoInt64 val
    | None => viaFloat
    end
  else viaFloat.

Definition parseTokenValue (token : Token) : GoValue :=
  let content := Content token in
  match TokenTy token with
  | String => GoString (stripQuotes content)
  | Number => parseNumberValue content
  | Bool =>
      GoBool ((String.length content =? 4)
              && bool_decide (get 0 content = Some "t"%char))
  | Null => GoNil
  | _ => GoString content
  end.

(** The attachment shared by [handleObjectStart], [handleArrayStart] and
    [handleValue]: under the pending key of an object frame, or at the end of
    an array; otherwise the new node stays detached.  The result is the heap
    and whether the key was used. *)
Definition attach (h : list Node) (currentFrame : StackFrame) (child : ptr)
  : list Node * bool * bool :=
  let node := FrameNode currentFrame in
  if isObjectAt h node && nonEmpty (CurrentKey currentFrame) then
    (alter (setChild (CurrentKey currentFrame) child) node h, true, false)
  else if isArrayAt h node then
    (alter (appendElem child) node h, false, true)
  else (h, false, false).

Definition clearKey (f : StackFrame) : StackFrame :=
  mkFrame (FrameNode f) EmptyString (ExpectingKey f) (ExpectingValue f).

Definition handleContainerStart (nodeType : NodeType) (p : StreamJSONParser)
    (currentFrame : StackFrame) (rest : list StackFrame) : StreamJSONParser :=
  let newNode := mkNode nodeType GoNil ∅ [] false (Some (FrameNode currentFrame)) in
  let '(q, h) := alloc (heap p) newNode in
  let '(h, inObject, _) := attach h currentFrame q in
  let currentFrame := if inObject then clearKey currentFrame else currentFrame in
  mkParser (tokenizer p) h (root p)
           (firstFrame nodeType q :: currentFrame :: rest) (started p).

Definition handleObjectStart := handleContainerStart ObjectNode.
Definition handleArrayStart := handleContainerStart ArrayNode.

(** [handleObjectEnd] and [handleArrayEnd] have the same body: the top frame
    is closed whatever its kind. *)
Definition handleEnd (p : StreamJSONParser) : StreamJSONParser :=
  match stack p with
  | [] => p
  | currentFrame :: rest =>
      let h := alter markCompleted (FrameNode currentFrame) (heap p) in
      let rest :=
        match rest with
        | [] => []
        | parentFrame :: below =>
            (if isObjectAt h (FrameNode parentFrame) then
               mkFrame (FrameNode parentFrame) (CurrentKey parentFrame) false false
             else if isArrayAt h (FrameNode parentFrame) then
               mkFrame (FrameNode parentFrame) (CurrentKey parentFrame)
                       (ExpectingKey parentFrame) false
             else parentFrame) :: below
        end in
      mkParser (tokenizer p) h (root p) rest (started p)
  end.

Definition handleObjectEnd := handleEnd.
Definition handleArrayEnd := handleEnd.

Definition withTop (p : StreamJSONParser) (f : StackFrame) (rest : list StackFrame) :=
  mkParser (tokenizer p) (heap p) (root p) (f :: rest) (started p).

Definition handleObjectKey (p : StreamJSONParser) (token : Token)
    (currentFrame : StackFrame) (rest : list StackFrame) : StreamJSONParser :=
  if isObjectAt (heap p) (FrameNode currentFrame) then
    withTop p (mkFrame (FrameNode currentFrame) (stripQuotes (Content token))
                       false (ExpectingValue currentFrame)) rest
  else p.

Definition handleColon (p : StreamJSONParser)
    (currentFrame : StackFrame) (rest : list StackFrame) : StreamJSONParser :=
  if isObjectAt (heap p) (FrameNode currentFrame) then
    withTop p (mkFrame (FrameNode currentFrame) (CurrentKey currentFrame) false true) rest
  else p.

Definition handleComma (p : StreamJSONParser)
    (currentFrame : StackFrame) (rest : list StackFrame) : StreamJSONParser :=
  if isObjectAt (heap p) (FrameNode currentFrame) then
    withTop p (mkFrame (FrameNode currentFrame) EmptyString true false) rest
  else if isArrayAt (heap p) (FrameNode currentFrame) then
    withTop p (mkFrame (FrameNode currentFrame) (CurrentKey currentFrame)
                       (ExpectingKey currentFrame) true) rest
  else p.

Definition handleValue (p : StreamJSONParser) (token : Token)
    (currentFrame : StackFrame) (rest : list StackFrame) : StreamJSONParser :=
  let valueNode :=
    mkNode ValueNode (parseTokenValue token) ∅ [] true (Some (FrameNode currentFrame)) in
  let '(q, h) := alloc (heap p) valueNode in
  let '(h, inObject, inArray) := attach h currentFrame q in
  let currentFrame :=
    if inObject then
      mkFrame (FrameNode currentFrame) EmptyString (ExpectingKey currentFrame) false
    else if inArray then
      mkFrame (FrameNode currentFrame) (CurrentKey currentFrame)
              (ExpectingKey currentFrame) false
    else currentFrame in
  mkParser (tokenizer p) h (root p) (currentFrame :: rest) (started p).

Definition processCompleteToken (p : StreamJSONParser) (token : Token)
  : StreamJSONParser :=
  match stack p with
  | [] => p
  | currentFrame :: rest =>
      match TokenTy token with
      | ObjectStart => handleObjectStart p currentFrame rest
      | ArrayStart => handleArrayStart p currentFrame rest
      | ObjectEnd => handleObjectEnd p
      | ArrayEnd => handleArrayEnd p
      | ObjectKey => handleObjectKey p token currentFrame rest
      | Colon => handleColon p currentFrame rest
      | Comma => handleComma p currentFrame rest
      | String | Number | Bool | Null => handleValue p token currentFrame rest
      | _ => p
      end
  end.

Definition processIncompleteToken (p : StreamJSONParser) (token : Token)
  : StreamJSONParser :=
  match stack p with
  | [] => p
  | currentFrame :: rest =>
      match TokenTy token with
      | String =>
          if isObjectAt (heap p) (FrameNode currentFrame)
             && nonEmpty (CurrentKey currentFrame) then
            match Content token with
            | String.String c partialValue =>
                if Ascii.eqb c quote then
                  let valueNode :=
                    mkNode ValueNode (GoString partialValue) ∅ [] false
                           (Some (FrameNode currentFrame)) in
                  let '(q, h) := alloc (heap p) valueNode in
                  mkParser (tokenizer p)
                           (alter (setChild (CurrentKey currentFrame) q)
                                  (FrameNode currentFrame) h)
                           (root p) (stack p) (started p)
                else p
            | EmptyString => p
            end
          else p
      | _ => p
      end
  end.

(** The first frame, made when the root is. *)
Definition startRoot (nodeType : NodeType) (p : StreamJSONParser) : StreamJSONParser :=
  let '(q, h) := alloc (heap p) (NewNode nodeType) in
  mkParser (tokenizer p) h (Some q) (firstFrame nodeType q :: stack p) true.

Inductive LoopCtl := Continue | Break.

(** The body of the loop of [processTokens], after [NextToken]. *)
Definition processToken (p : StreamJSONParser) (token : Token)
  : LoopCtl * StreamJSONParser :=
  match TokenTy token with
  | EOF => (Break, p)
  | Invalid => (Continue, p)
  | ty =>
      if negb (started p) then
        match ty with
        | ObjectStart => (Continue, startRoot ObjectNode p)
        | ArrayStart => (Continue, startRoot ArrayNode p)
        | _ => (Continue, p)
        end
      else if Completed token then (Continue, processCompleteToken p token)
      else (Break, processIncompleteToken p token)
  end.

Definition setTokenizer (p : StreamJSONParser) (t : StreamJSONTokenizer) :=
  mkParser t (heap p) (root p) (stack p) (started p).

(** One turn of the loop. *)
Definition processStep (p : StreamJSONParser) : LoopCtl * StreamJSONParser :=
  let '(token, t) := NextToken (tokenizer p) in
  processToken (setTokenizer p t) token.

(** [processTokens]: the loop, run for at most [fuel] turns; [None] when
    it has not left the loop by then. *)
Fixpoint processTokens (fuel : nat) (p : StreamJSONParser) : option StreamJSONParser :=
  match fuel with
  | O => None
  | S fuel' =>
      match processStep p with
      | (Break, p') => Some p'
      | (Continue, p') => processTokens fuel' p'
      end
  end.

Definition Append (fuel : nat) (p : StreamJSONParser) (content : string)
  : option StreamJSONParser :=
  processTokens fuel (setTokenizer p (tokAppend (tokenizer p) content)).

(** Feeding chunks in order. *)
Fixpoint AppendAll (fuel : nat) (p : StreamJSONParser) (chunks : list string)
  : option StreamJSONParser :=
  match chunks with
  | [] => Some p
  | c :: cs =>
      match Append fuel p c with
      | Some p' => AppendAll fuel p' cs
      | None => None
      end
  end.

(** ** The path accessor

    A dereference of a pointer that is not in the heap is a run-time panic. *)
Inductive Result := Ok (v : GoValue) | Panic.

Definition yield (h : list Node) (child : ptr) : Result :=
  match h !! child with
  | None => Panic
  | Some c => if isValueNode c then Ok (Value c) else Ok (GoNode (Some child))
  end.

Fixpoint getFromNode (h : list Node) (node : option ptr) (keys : list string) : Result :=
  match node with
  | None => Ok (GoNode None)
  | Some p =>
      match keys with
      | [] => yield h p
      | key :: remainingKeys =>
          let descend child :=
            match remainingKeys with
            | [] => yield h child
            | _ => getFromNode h (Some child) remainingKeys
            end in
          match h !! p with
          | None => Panic
          | Some n =>
              match NodeTy n with
              | ObjectNode =>
                  match Children n !! key with
                  | Some child => descend child
                  | None => Ok GoNil
                  end
              | ArrayNode =>
                  match Atoi key with
                  | Some index =>
                      if (0 <=? index)%Z && (index <? Z.of_nat (length (Array n)))%Z then
                        match Array n !! Z.to_nat index with
                        | Some child => descend child
                        | None => Panic
                        end
                      else Ok GoNil
                  | None => Ok GoNil
                  end
              | ValueNode => Ok GoNil
              end
          end
      end
  end.

Definition Get (p : StreamJSONParser) (keys : list string) : Result :=
  match root p, keys with
  | None, _ => Ok GoNil
  | _, [] => Ok GoNil
  | Some r, _ => getFromNode (heap p) (Some r) keys
  end.

Definition IsCompleted (p : StreamJSONParser) : bool :=
  match stack p with [] => started p | _ => false end.

Definition GetRoot (p : StreamJSONParser) : option ptr := root p.

(** ** Facts about the scans *)

Lemma get_Some_lt (s : string) (n : nat) (c : ascii) :
  get n s = Some c -> n < String.length s.
Proof.
  revert n; induction s as [|a s IH]; intros [|n] H; simpl in *; try discriminate; try lia.
  apply IH in H. lia.
Qed.

Lemma get_None_ge (s : string) (n : nat) :
  get n s = None <-> String.length s <= n.
Proof.
  revert n; induction s as [|a s IH]; intros [|n]; simpl; split; intros H;
    try discriminate; try lia; try reflexivity.
  - apply IH in H. lia.
  - apply IH. lia.
Qed.

Lemma scanWhile_ge pred fuel buf pos : pos <= scanWhile pred fuel buf pos.
Proof.
  revert pos; induction fuel as [|fuel IH]; intros pos; simpl; [lia|].
  destruct (get pos buf); [|lia].
  destruct (pred a); [|lia]. specialize (IH (S pos)). lia.
Qed.

Lemma scanWhile_le pred fuel buf pos :
  pos <= String.length buf -> scanWhile pred fuel buf pos <= String.length buf.
Proof.
  revert pos; induction fuel as [|fuel IH]; intros pos Hle; simpl; [lia|].
  destruct (get pos buf) eqn:E; [|lia].
  destruct (pred a); [|lia]. apply IH. apply get_Some_lt in E. lia.
Qed.

(** Where a scan stops, the buffer ends or a byte fails the test. *)
Lemma scanWhile_stop pred fuel buf pos :
  String.length buf - pos <= fuel ->
  match get (scanWhile pred fuel buf pos) buf with
  | Some c => pred c = false
  | None => True
  end.
Proof.
  revert pos; induction fuel as [|fuel IH]; intros pos Hf; simpl.
  - assert (get pos buf = None) as -> by (apply get_None_ge; lia). exact I.
  - destruct (get pos buf) eqn:E; [|rewrite E; exact I].
    destruct (pred a) eqn:P.
    + apply IH. lia.
    + rewrite E. exact P.
Qed.

(** Every byte a scan steps over passes the test. *)
Lemma scanWhile_run pred fuel buf pos i :
  pos <= i < scanWhile pred fuel buf pos ->
  exists c, get i buf = Some c /\ pred c = true.
Proof.
  revert pos; induction fuel as [|fuel IH]; intros pos Hi; simpl in Hi; [lia|].
  destruct (get pos buf) eqn:E; [|lia].
  destruct (pred a) eqn:P; [|lia].
  destruct (decide (i = pos)) as [->|Hne]; [eauto|].
  apply (IH (S pos)). lia.
Qed.

Lemma scanString_ge fuel buf pos esc :
  pos <= (scanString fuel buf pos esc).1.2.
Proof.
  revert pos esc; induction fuel as [|fuel IH]; intros pos esc; simpl; [lia|].
  destruct (get pos buf); simpl; [|lia].
  destruct esc; [specialize (IH (S pos) false); lia|].
  destruct (Ascii.eqb a backslash); [specialize (IH (S pos) true); lia|].
  destruct (Ascii.eqb a quote); simpl; [lia|]. specialize (IH (S pos) false); lia.
Qed.


Lemma matchLiteral_ge expected buf pos : pos <= (matchLiteral expected buf pos).2.
Proof.
  revert pos; induction expected as [|e rest IH]; intros pos; simpl; [lia|].
  destruct (get pos buf); simpl; [|lia].
  destruct (Ascii.eqb a e); simpl; [|lia]. specialize (IH (S pos)). lia.
Qed.

(** ** Facts about the number scans *)

Lemma parseNumber_buffer t startPos : buffer (parseNumber t startPos).2 = buffer t.
Proof.
  unfold parseNumber. destruct (get (position t) (buffer t)) as [c|]; simpl;
    [destruct (Ascii.eqb c "-"%char)|]; simpl;
    match goal with |- context [numberCompleted ?x] => destruct (numberCompleted x) end;
    reflexivity.
Qed.

Lemma numberCompleted_spec t :
  numberCompleted t = true <->
  exists c, get (position t) (buffer t) = Some c /\ isNumberChar c = false.
Proof.
  unfold numberCompleted. destruct (get (position t) (buffer t)) as [c|]; split.
  - intros H. exists c. split; [reflexivity|]. destruct (isNumberChar c); [discriminate|reflexivity].
  - intros (c' & [= <-] & ->). reflexivity.
  - discriminate.
  - intros (c' & H & _). discriminate.
Qed.

Lemma parseNumber_token t startPos :
  let token := (parseNumber t startPos).1 in
  TokenTy token = Number /\ TokenStart token = startPos /\
  (Completed token = true <->
   exists c, get (TokenEnd token) (buffer t) = Some c /\ isNumberChar c = false).
Proof.
  unfold parseNumber.
  set (t1 := match get (position t) (buffer t) with
             | Some c => if Ascii.eqb c "-"%char then setPosition t (S (position t)) else t
             | None => t end).
  assert (buffer t1 = buffer t) as Hb.
  { subst t1. destruct (get (position t) (buffer t)) as [c|]; [destruct (Ascii.eqb c "-"%char)|]; reflexivity. }
  set (t2 := setPosition t1 (scanRun isNumberChar (buffer t1) (position t1))).
  assert (buffer t2 = buffer t) as Hb2 by (subst t2; simpl; exact Hb).
  cbv zeta. pose proof (numberCompleted_spec t2) as Hs. rewrite Hb2 in Hs.
  destruct (numberCompleted t2); simpl; (split; [reflexivity|split; [reflexivity|exact Hs]]).
Qed.


(** ** The tokenizer's invariant and its progress

    The token kept in [lastToken] is always an incomplete token of a kind
    [continueToken] resumes. *)

Definition resumable (ty : TokenType) : bool :=
  match ty with
  | String | ObjectKey | Number | Bool | Null => true
  | _ => false
  end.

Definition tokInv (t : StreamJSONTokenizer) : Prop :=
  match lastToken t with
  | Some last => Completed last = false /\ resumable (TokenTy last) = true
  | None => True
  end.

(** What is left to read: it drops with every complete token. *)
Definition measure (t : StreamJSONTokenizer) : nat :=
  2 * (String.length (buffer t) - position t)
  + (match lastToken t with Some _ => 1 | None => 0 end).

(** What a scan started at a fresh byte guarantees. *)
Definition freshOk (t : StreamJSONTokenizer) (r : Token * StreamJSONTokenizer) : Prop :=
  buffer r.2 = buffer t /\ position t < position r.2 /\ TokenTy r.1 <> EOF /\
  if Completed r.1 then lastToken r.2 = lastToken t
  else lastToken r.2 = Some r.1 /\ resumable (TokenTy r.1) = true.

(** What a resumed scan guarantees. *)
Definition contOk (t : StreamJSONTokenizer) (r : Token * StreamJSONTokenizer) : Prop :=
  buffer r.2 = buffer t /\ position t <= position r.2 /\ lastToken r.2 = lastToken t /\
  TokenTy r.1 <> EOF /\ (Completed r.1 = false -> resumable (TokenTy r.1) = true).

Lemma stringLoop_facts t :
  buffer (stringLoop t).2 = buffer t /\ position t <= position (stringLoop t).2 /\
  lastToken (stringLoop t).2 = lastToken t /\ expectingKey (stringLoop t).2 = expectingKey t.
Proof.
  unfold stringLoop.
  pose proof (scanString_ge (String.length (buffer t) - position t) (buffer t)
                            (position t) (escapeNext t)) as H.
  destruct (scanString _ _ _ _) as [[closed pos] esc]. simpl in *. auto.
Qed.

Lemma parseString_ok t startPos : freshOk t (parseString t startPos).
Proof.
  unfold parseString, freshOk.
  pose proof (stringLoop_facts (setPosition t (S (position t)))) as (Hb & Hp & Hl & He).
  destruct (stringLoop _) as [closed t1]. simpl in *.
  destruct closed; simpl; repeat split; auto; try lia;
    destruct (expectingKey t1); simpl; congruence.
Qed.

Lemma continueString_ok t last :
  resumable (TokenTy last) = true -> contOk t (continueString t last).
Proof.
  intros Hr. unfold continueString, contOk.
  pose proof (stringLoop_facts t) as (Hb & Hp & Hl & He).
  destruct (stringLoop t) as [closed t1]. simpl in *.
  repeat split; auto. destruct (TokenTy last); simpl in *; congruence.
Qed.

Lemma scanRun_ge pred buf pos : pos <= scanRun pred buf pos.
Proof. apply scanWhile_ge. Qed.

Lemma scanRun_step pred buf pos c :
  get pos buf = Some c -> pred c = true -> pos < scanRun pred buf pos.
Proof.
  intros Hg Hp. unfold scanRun. pose proof (get_Some_lt _ _ _ Hg) as Hlt.
  destruct (String.length buf - pos) as [|fuel] eqn:E; [lia|].
  simpl. rewrite Hg, Hp. pose proof (scanWhile_ge pred fuel buf (S pos)). lia.
Qed.

Lemma parseNumber_ok t startPos c :
  get (position t) (buffer t) = Some c ->
  Ascii.eqb c "-"%char || isDigit c = true ->
  freshOk t (parseNumber t startPos).
Proof.
  intros Hg Hc. unfold parseNumber, freshOk. rewrite Hg.
  destruct (Ascii.eqb c "-"%char) eqn:Em; simpl.
  - pose proof (scanRun_ge isNumberChar (buffer t) (S (position t))) as Hge.
    match goal with |- context [numberCompleted ?x] => destruct (numberCompleted x) eqn:En end;
      simpl; rewrite ?En; repeat split; auto; try lia; discriminate.
  - simpl in Hc.
    assert (isNumberChar c = true) as Hn by (unfold isNumberChar; rewrite Hc; reflexivity).
    pose proof (scanRun_step isNumberChar _ _ _ Hg Hn) as Hgt.
    match goal with |- context [numberCompleted ?x] => destruct (numberCompleted x) eqn:En end;
      simpl; rewrite ?En; repeat split; auto; try lia; discriminate.
Qed.

Lemma continueNumber_ok t last : contOk t (continueNumber t last).
Proof.
  unfold continueNumber, contOk. simpl.
  pose proof (scanRun_ge isNumberChar (buffer t) (position t)).
  repeat split; auto; discriminate.
Qed.

Lemma matchLiteral_progress expected buf pos c :
  get pos buf = Some c -> expected <> [] ->
  (matchLiteral expected buf pos).1 = true \/ pos < (matchLiteral expected buf pos).2.
Proof.
  intros Hg Hne. destruct expected as [|e rest]; [congruence|]. simpl. rewrite Hg.
  destruct (Ascii.eqb c e); simpl; [|auto].
  right. pose proof (matchLiteral_ge rest buf (S pos)). lia.
Qed.

Lemma parseLiteral_ok expected ty t startPos c :
  get (position t) (buffer t) = Some c -> expected <> [] ->
  resumable ty = true ->
  freshOk t (parseLiteral expected ty t startPos).
Proof.
  intros Hg Hne Hty. unfold parseLiteral, freshOk.
  pose proof (matchLiteral_progress expected _ _ _ Hg Hne) as Hpr.
  pose proof (matchLiteral_ge expected (buffer t) (position t)) as Hge.
  destruct (matchLiteral expected (buffer t) (position t)) as [mismatch pos]. simpl in *.
  destruct mismatch; simpl.
  - repeat split; auto; try lia; discriminate.
  - destruct Hpr as [?|Hpr]; [discriminate|].
    destruct (pos - startPos =? length expected).
    + destruct (nextIsLetter _); simpl.
      * pose proof (scanRun_ge isLetter (buffer t) pos).
        repeat split; auto; try lia; discriminate.
      * repeat split; auto; try lia. destruct ty; simpl in *; congruence.
    + simpl. repeat split; auto; try lia. destruct ty; simpl in *; congruence.
Qed.

Lemma continueLiteral_ok expected ty t last :
  resumable ty = true -> contOk t (continueLiteral expected ty t last).
Proof.
  intros Hty. unfold continueLiteral, contOk.
  pose proof (matchLiteral_ge (drop (TokenEnd last - TokenStart last) expected)
                              (buffer t) (position t)) as Hge.
  destruct (matchLiteral _ (buffer t) (position t)) as [mismatch pos]. simpl in *.
  pose proof (scanRun_ge isLetter (buffer t) pos) as Hl.
  destruct mismatch; simpl.
  - repeat split; auto; try lia; discriminate.
  - destruct (pos - TokenStart last =? length expected).
    + destruct (nextIsLetter _); simpl; repeat split; auto; try lia; try discriminate;
        destruct ty; simpl in *; congruence.
    + simpl. repeat split; auto; destruct ty; simpl in *; congruence.
Qed.

Lemma continueToken_ok t last :
  lastToken t = Some last -> resumable (TokenTy last) = true ->
  contOk t (continueToken t).
Proof.
  intros Hl Hr. unfold continueToken. rewrite Hl.
  destruct (TokenTy last) eqn:E; simpl in Hr; try discriminate.
  - apply continueNumber_ok.
  - apply continueLiteral_ok. reflexivity.
  - apply continueString_ok. rewrite E. reflexivity.
  - apply continueString_ok. rewrite E. reflexivity.
  - apply continueLiteral_ok. reflexivity.
Qed.

Lemma bytes_nonempty (s : list ascii) : 0 < length s -> s <> [].
Proof. destruct s; simpl; [lia|discriminate]. Qed.

Lemma freshToken_ok t char :
  get (position t) (buffer t) = Some char -> freshOk t (freshToken t char).
Proof.
  intros Hg. unfold freshToken.
  repeat match goal with
  | |- freshOk _ (if ?b then _ else _) => destruct b eqn:?
  end;
  try (unfold freshOk; simpl; repeat split; auto; try lia; discriminate).
  - apply parseString_ok.
  - unfold parseBool. rewrite Hg.
    destruct (Ascii.eqb char "t"%char);
      (eapply parseLiteral_ok; [exact Hg|apply bytes_nonempty; simpl; lia|reflexivity]).
  - unfold parseNull.
    eapply parseLiteral_ok; [exact Hg|apply bytes_nonempty; simpl; lia|reflexivity].
  - eapply parseNumber_ok; eauto.
Qed.

Lemma skipWhitespace_facts t :
  buffer (skipWhitespace t) = buffer t /\ position t <= position (skipWhitespace t) /\
  lastToken (skipWhitespace t) = lastToken t.
Proof.
  unfold skipWhitespace. simpl. pose proof (scanRun_ge isWhitespace (buffer t) (position t)).
  auto.
Qed.

Lemma pending_None t : tokInv t -> pending t = None -> lastToken t = None.
Proof.
  unfold tokInv, pending. destruct (lastToken t) as [last|]; [|reflexivity].
  intros [Hc _]. rewrite Hc. discriminate.
Qed.

Lemma pending_Some t last : pending t = Some last -> lastToken t = Some last.
Proof.
  unfold pending. destruct (lastToken t) as [l|]; [|discriminate].
  destruct (Completed l); [discriminate|]. congruence.
Qed.

(** [NextToken] keeps the buffer and the invariant; a complete token that is
    not the end of input lowers the measure; an incomplete token is the one
    kept for the next call. *)
Lemma NextToken_facts t :
  tokInv t ->
  let r := NextToken t in
  buffer r.2 = buffer t /\ tokInv r.2 /\ position t <= position r.2 /\
  (Completed r.1 = true -> lastToken r.2 = None) /\
  (Completed r.1 = true -> TokenTy r.1 <> EOF -> measure r.2 < measure t) /\
  (Completed r.1 = false -> lastToken r.2 = Some r.1 /\ resumable (TokenTy r.1) = true).
Proof.
  intros Hinv. unfold NextToken. destruct (pending t) as [last|] eqn:Ep.
  - apply pending_Some in Ep.
    assert (resumable (TokenTy last) = true) as Hr
      by (unfold tokInv in Hinv; rewrite Ep in Hinv; tauto).
    pose proof (continueToken_ok t last Ep Hr) as (Hb & Hp & Hl & Hne & Hres).
    destruct (continueToken t) as [token t1]. simpl in *.
    unfold tokInv, measure. simpl. rewrite Hb, Ep.
    destruct (Completed token) eqn:Ec; simpl;
      repeat split; auto; try lia; try discriminate.
  - pose proof (pending_None t Hinv Ep) as Hnone.
    pose proof (skipWhitespace_facts t) as (Hb & Hp & Hl).
    destruct (get (position (skipWhitespace t)) (buffer (skipWhitespace t))) as [char|] eqn:Eg.
    + pose proof (freshToken_ok _ _ Eg) as (Hb' & Hp' & Hne & Hlast).
      pose proof (get_Some_lt _ _ _ Eg) as Hlt.
      destruct (freshToken (skipWhitespace t) char) as [token t1]. simpl in *.
      unfold tokInv, measure. rewrite Hb'. rewrite Hnone in *.
      destruct (Completed token) eqn:Ec.
      * rewrite Hlast. repeat split; auto; try lia; try discriminate.
      * destruct Hlast as [-> Hres]. repeat split; auto; try lia; try discriminate.
    + simpl. unfold tokInv. simpl. rewrite Hnone.
      repeat split; auto; try lia; try discriminate. congruence.
Qed.

(** ** The loop of [processTokens] *)

Ltac break_match :=
  repeat match goal with
  | |- context [match ?x with _ => _ end] =>
      match type of x with
      | _ => is_var x; destruct x
      | _ => destruct x eqn:?
      end
  end.

Lemma attach_cases h f q :
  let r := attach h f q in
  length r.1.1 = length h /\
  (r.1.1 = h \/ exists g, r.1.1 = alter g (FrameNode f) h /\
                          (g = setChild (CurrentKey f) q \/ g = appendElem q)).
Proof.
  unfold attach. destruct (isObjectAt h (FrameNode f) && nonEmpty (CurrentKey f)); simpl.
  - split; [apply length_alter|]. right. eauto.
  - destruct (isArrayAt h (FrameNode f)); simpl; [|auto].
    split; [apply length_alter|]. right. eauto.
Qed.

Lemma processCompleteToken_frame p token :
  tokenizer (processCompleteToken p token) = tokenizer p /\
  root (processCompleteToken p token) = root p /\
  started (processCompleteToken p token) = started p.
Proof.
  unfold processCompleteToken. destruct (stack p) as [|f rest] eqn:Es; [auto|].
  destruct (TokenTy token);
    unfold handleObjectStart, handleArrayStart, handleContainerStart, handleObjectEnd,
      handleArrayEnd, handleEnd, handleObjectKey, handleColon, handleComma, handleValue,
      withTop, alloc; rewrite ?Es;
    repeat match goal with
    | |- context [attach ?h ?f ?q] => destruct (attach h f q) as [[? ?] ?]
    | |- context [if ?b then _ else _] => destruct b
    end; simpl; auto.
Qed.

Lemma processIncompleteToken_frame p token :
  tokenizer (processIncompleteToken p token) = tokenizer p /\
  root (processIncompleteToken p token) = root p /\
  started (processIncompleteToken p token) = started p /\
  stack (processIncompleteToken p token) = stack p.
Proof.
  unfold processIncompleteToken. destruct (stack p) as [|f rest] eqn:Es; [auto|].
  destruct (TokenTy token); auto.
  destruct (isObjectAt _ _ && nonEmpty _); auto.
  destruct (Content token) as [|c s]; auto.
  destruct (Ascii.eqb c quote); auto.
Qed.

Lemma processToken_tokenizer p token :
  tokenizer (processToken p token).2 = tokenizer p.
Proof.
  unfold processToken.
  pose proof (processCompleteToken_frame p token) as (Hc & _).
  pose proof (processIncompleteToken_frame p token) as (Hi & _).
  destruct (TokenTy token), (started p), (Completed token); simpl; auto.
Qed.

Lemma processToken_started p token :
  started p = true -> started (processToken p token).2 = true.
Proof.
  intros Hs. unfold processToken. rewrite Hs.
  pose proof (processCompleteToken_frame p token) as (_ & _ & Hc).
  pose proof (processIncompleteToken_frame p token) as (_ & _ & Hi & _).
  destruct (TokenTy token), (Completed token); simpl; congruence.
Qed.

Lemma processStep_tokenizer p :
  tokenizer (processStep p).2 = (NextToken (tokenizer p)).2.
Proof.
  unfold processStep. destruct (NextToken (tokenizer p)) as [token t].
  rewrite processToken_tokenizer. reflexivity.
Qed.

Lemma processStep_tokInv p : tokInv (tokenizer p) -> tokInv (tokenizer (processStep p).2).
Proof.
  intros H. rewrite processStep_tokenizer. apply (NextToken_facts _ H).
Qed.

(** More fuel does not change what the loop returns. *)
Lemma processTokens_mono n m p p' :
  processTokens n p = Some p' -> n <= m -> processTokens m p = Some p'.
Proof.
  revert m p; induction n as [|n IH]; intros m p H Hle; [discriminate|].
  destruct m as [|m]; [lia|]. simpl in *.
  destruct (processStep p) as [[] p1]; [|exact H].
  apply IH; [exact H|lia].
Qed.

(** A turn that goes on has read a complete token, so the measure drops. *)
Lemma processStep_continue p :
  tokInv (tokenizer p) -> started p = true -> (processStep p).1 = Continue ->
  measure (tokenizer (processStep p).2) < measure (tokenizer p).
Proof.
  intros Hinv Hs Hc. rewrite processStep_tokenizer.
  pose proof (NextToken_facts _ Hinv) as (_ & _ & _ & _ & Hm & Hinc).
  unfold processStep in Hc. destruct (NextToken (tokenizer p)) as [token t]. simpl in *.
  unfold processToken in Hc. simpl in Hc. rewrite Hs in Hc. simpl in Hc.
  destruct (Completed token) eqn:Ec.
  - apply Hm; [reflexivity|]. intros E. rewrite E in Hc. discriminate.
  - destruct (Hinc eq_refl) as [_ Hr].
    destruct (TokenTy token); simpl in *; discriminate.
Qed.

Lemma processStep_started p :
  started p = true -> started (processStep p).2 = true.
Proof.
  intros Hs. unfold processStep. destruct (NextToken (tokenizer p)) as [token t].
  apply processToken_started. exact Hs.
Qed.

(** Once parsing has started, the loop ends within [measure + 1] turns. *)
Lemma processTokens_terminates n p :
  tokInv (tokenizer p) -> started p = true -> measure (tokenizer p) < n ->
  exists p', processTokens n p = Some p'.
Proof.
  revert p; induction n as [|n IH]; intros p Hinv Hs Hm; [lia|].
  simpl. destruct (processStep p) as [ctl p1] eqn:E.
  destruct ctl; [|eauto].
  apply IH.
  - replace p1 with (processStep p).2 by (rewrite E; reflexivity).
    apply processStep_tokInv; exact Hinv.
  - replace p1 with (processStep p).2 by (rewrite E; reflexivity).
    apply processStep_started; exact Hs.
  - pose proof (processStep_continue p Hinv Hs) as H. rewrite E in H. simpl in H.
    specialize (H eq_refl). lia.
Qed.

Lemma processTokens_tokInv n p p' :
  tokInv (tokenizer p) -> processTokens n p = Some p' -> tokInv (tokenizer p').
Proof.
  revert p; induction n as [|n IH]; intros p Hinv H; [discriminate|].
  simpl in H. pose proof (processStep_tokInv p Hinv) as H1.
  destruct (processStep p) as [[] p1]; simpl in *.
  - eapply IH; eauto.
  - congruence.
Qed.

Lemma tokAppend_tokInv t content : tokInv t -> tokInv (tokAppend t content).
Proof. unfold tokInv. simpl. auto. Qed.

(** ** C6: when a number token is complete *)

Lemma number_scan_end t :
  let t2 := setPosition t (scanRun isNumberChar (buffer t) (position t)) in
  numberCompleted t2 = false -> String.length (buffer t) <= position t2.
Proof.
  simpl. unfold numberCompleted. simpl.
  pose proof (scanWhile_stop isNumberChar (String.length (buffer t) - position t)
                (buffer t) (position t) (Nat.le_refl _)) as Hstop.
  fold (scanRun isNumberChar (buffer t) (position t)) in Hstop.
  destruct (get (scanRun isNumberChar (buffer t) (position t)) (buffer t)) as [c|] eqn:E.
  - rewrite Hstop. discriminate.
  - intros _. apply get_None_ge. exact E.
Qed.



Lemma continueString_ty t last : TokenTy (continueString t last).1 = TokenTy last.
Proof. unfold continueString. destruct (stringLoop t). reflexivity. Qed.

Lemma parseString_ty t startPos :
  TokenTy (parseString t startPos).1 = String \/ TokenTy (parseString t startPos).1 = ObjectKey.
Proof.
  unfold parseString. destruct (stringLoop _) as [closed t1].
  destruct closed, (expectingKey t1); simpl; auto.
Qed.

Lemma parseLiteral_ty expected ty t startPos :
  TokenTy (parseLiteral expected ty t startPos).1 = ty \/
  TokenTy (parseLiteral expected ty t startPos).1 = Invalid.
Proof.
  unfold parseLiteral. destruct (matchLiteral _ _ _) as [[] pos]; simpl; [auto|].
  destruct (_ =? _); [destruct (nextIsLetter _)|]; simpl; auto.
Qed.

Lemma continueLiteral_ty expected ty t last :
  TokenTy (continueLiteral expected ty t last).1 = ty \/
  TokenTy (continueLiteral expected ty t last).1 = Invalid.
Proof.
  unfold continueLiteral. destruct (matchLiteral _ _ _) as [[] pos]; simpl; [auto|].
  destruct (_ =? _); [destruct (nextIsLetter _)|]; simpl; auto.
Qed.




(** ** C8: decoding a number *)

(** Whether a text holds one of the given bytes. *)
Definition containsAny (bytes : list ascii) (s : string) : bool :=
  existsb (fun c => existsb (Ascii.eqb c) bytes) (list_ascii_of_string s).

(** The decoding as the specification words it: with no [.], [e] or [E] in
    the text, the integer parse, then the float parse, then the raw text;
    otherwise the float parse, then the raw text. *)
Definition decodeNumber (content : string) : GoValue :=
  let floatOrRaw :=
    match ParseFloat content with
    | Some f => GoFloat64 f
    | None => GoString content
    end in
  if containsAny ["."%char; "e"%char; "E"%char] content then floatOrRaw
  else match ParseInt content with
       | Some z => GoInt64 z
       | None => floatOrRaw
       end.

Lemma scanDecimalExp_contains content :
  negb (scanDecimalExp content).1 && negb (scanDecimalExp content).2
  = negb (containsAny ["."%char; "e"%char; "E"%char] content).
Proof.
  unfold containsAny. induction content as [|c r IH]; [reflexivity|].
  simpl. destruct (Ascii.eqb c "."%char); [reflexivity|].
  destruct (Ascii.eqb c "e"%char); [reflexivity|].
  destruct (Ascii.eqb c "E"%char); [reflexivity|].
  simpl. exact IH.
Qed.

Lemma parseSigned_range neg digits z :
  parseSigned neg digits = Some z -> (minInt64 <= z <= maxInt64)%Z.
Proof.
  unfold parseSigned. destruct digits; [discriminate|].
  destruct (parseDigits _ _) as [un|]; [|discriminate].
  destruct (_ && _) eqn:E; [|discriminate]. intros [= <-].
  apply andb_prop in E as [H1 H2]. apply Z.leb_le in H1, H2. lia.
Qed.

Lemma ParseInt_range s z : ParseInt s = Some z -> (minInt64 <= z <= maxInt64)%Z.
Proof.
  unfold ParseInt. destruct s as [|c r]; [discriminate|].
  destruct (Ascii.eqb c "+"%char); [apply parseSigned_range|].
  destruct (Ascii.eqb c "-"%char); apply parseSigned_range.
Qed.

(** C8. A Number token is decoded as follows: when its text holds no [.],
    [e] or [E], the signed 64-bit integer parse is tried first; when that
    fails, or when the text holds one of these bytes, the 64-bit float parse
    is tried; when that fails too, the value is the raw text.  The decoding is
    a total function: it always yields an integer in the 64-bit range, a
    float or the text. *)
Theorem C8_number_decoding token :
  TokenTy token = Number ->
  parseTokenValue token = decodeNumber (Content token)
  /\ ((exists z, parseTokenValue token = GoInt64 z /\ (minInt64 <= z <= maxInt64)%Z
                 /\ containsAny ["."%char; "e"%char; "E"%char] (Content token) = false
                 /\ ParseInt (Content token) = Some z)
      \/ (exists f, parseTokenValue token = GoFloat64 f
                    /\ ParseFloat (Content token) = Some f)
      \/ (parseTokenValue token = GoString (Content token)
          /\ ParseFloat (Content token) = None)).
Proof.
  intros Hty. unfold parseTokenValue. rewrite Hty.
  assert (parseNumberValue (Content token) = decodeNumber (Content token)) as Heq.
  { unfold parseNumberValue, decodeNumber.
    pose proof (scanDecimalExp_contains (Content token)) as H.
    destruct (scanDecimalExp (Content token)) as [hasDecimal hasExp]. simpl in H.
    rewrite H. destruct (containsAny _ _); reflexivity. }
  split; [exact Heq|]. rewrite Heq. unfold decodeNumber.
  destruct (containsAny _ _) eqn:Ec.
  - destruct (ParseFloat (Content token)) as [f|] eqn:Ef; [right; left; eauto|right; right; auto].
  - destruct (ParseInt (Content token)) as [z|] eqn:Ei.
    + left. exists z. pose proof (ParseInt_range _ _ Ei). auto.
    + destruct (ParseFloat (Content token)) as [f|] eqn:Ef;
        [right; left; eauto|right; right; auto].
Qed.

(** ** C5: a literal that does not match *)

(** C5. Where a literal scan started at [t], [f] or [n] meets a byte that
    differs from the expected word, [parseBool] and [parseNull] return an
    Invalid token that ends one byte after the differing byte: the matched
    prefix and that byte, whatever it is, and not the run of letters.  The
    letters that follow come out as one-byte Invalid tokens, and a differing
    byte that is not a letter (here the closing brace) is swallowed.  The
    resumed scans [continueBool] and [continueNull] do consume the run of
    letters, and nothing else. *)
Theorem C5_mismatch_token_stops_after_one_byte :
  tokenize "txyz" = [(Invalid, "tx", true); (Invalid, "y", true); (Invalid, "z", true)]%string
  /\ tokenize "nvalid" = [(Invalid, "nv", true); (Invalid, "a", true); (Invalid, "l", true);
                          (Invalid, "i", true); (Invalid, "d", true)]%string
  /\ tokenize "fals3" = [(Invalid, "fals3", true)]%string
  /\ tokenize "t}" = [(Invalid, "t}", true)]%string
  /\ tokenizeChunks NewStreamJSONTokenizer ["t"; "xyz"]%string
     = [[(Bool, "t", false)]; [(Invalid, "txyz", true)]]%string
  /\ tokenizeChunks NewStreamJSONTokenizer ["t"; "}"]%string
     = [[(Bool, "t", false)]; [(Invalid, "t", true); (ObjectEnd, "}", true)]]%string
  /\ (forall expected ty t startPos,
        (matchLiteral expected (buffer t) (position t)).1 = true ->
        let token := (parseLiteral expected ty t startPos).1 in
        TokenTy token = Invalid /\ Completed token = true /\
        TokenEnd token = S (matchLiteral expected (buffer t) (position t)).2).
Proof.
  repeat (split; [vm_compute; reflexivity|]).
  intros expected ty t startPos H. unfold parseLiteral.
  destruct (matchLiteral expected (buffer t) (position t)) as [mismatch pos].
  simpl in H. subst mismatch. simpl. auto.
Qed.

(** ** C10: a string after a comma inside an array *)


(** ** C9: before the root exists *)


(** ** C1: what Get returns for a container *)

(** C1. At the end of a path, [getFromNode] returns a Value node's scalar,
    and for an Object or Array node the pointer to the node itself: after
    [{'user':{'name':'Alice','age':25},'status':'active'}], [Get 'user'] is
    the handle of node 1, the inner object, and after
    [{'items':[1,2,3],'count':3}], [Get 'items'] is the handle of the array
    node.  No plain mapping or sequence is built. *)
Theorem C1_get_container_returns_node_handle :
  (exists p n,
     Append 100 NewStreamJSONParser
            (js "{'user':{'name':'Alice','age':25},'status':'active'}") = Some p
     /\ IsCompleted p = true
     /\ Get p ["user"%string] = Ok (GoNode (Some 1))
     /\ heap p !! 1 = Some n /\ NodeTy n = ObjectNode
     /\ Get p ["user"; "name"]%string = Ok (GoString "Alice"))
  /\ (exists p n,
        Append 100 NewStreamJSONParser (js "{'items':[1,2,3],'count':3}") = Some p
        /\ IsCompleted p = true
        /\ Get p ["items"%string] = Ok (GoNode (Some 1))
        /\ heap p !! 1 = Some n /\ NodeTy n = ArrayNode)
  /\ (forall h q n, h !! q = Some n -> NodeTy n <> ValueNode ->
        getFromNode h (Some q) [] = Ok (GoNode (Some q)))
  /\ (forall h q n key child c,
        h !! q = Some n -> NodeTy n = ObjectNode -> Children n !! key = Some child ->
        h !! child = Some c -> NodeTy c <> ValueNode ->
        getFromNode h (Some q) [key] = Ok (GoNode (Some child))).
Proof.
  split; [eexists _, _; vm_compute; repeat split; reflexivity|].
  split; [eexists _, _; vm_compute; repeat split; reflexivity|].
  split.
  - intros h q n Hq Hty. simpl. unfold yield. rewrite Hq. unfold isValueNode.
    destruct (NodeTy n); congruence.
  - intros h q n key child c Hq Hty Hk Hc Hcty. simpl. rewrite Hq, Hty, Hk.
    unfold yield. rewrite Hc. unfold isValueNode. destruct (NodeTy c); congruence.
Qed.

(** ** The heap stays well formed

    Every pointer stored in a node, in the root or in a frame is the index
    of an allocated node. *)

Definition validNode (len : nat) (n : Node) : Prop :=
  (forall key child, Children n !! key = Some child -> child < len)
  /\ (forall i child, Array n !! i = Some child -> child < len).

Definition heapWf (h : list Node) : Prop :=
  forall q n, h !! q = Some n -> validNode (length h) n.

Definition framesOk (len : nat) (frames : list StackFrame) : Prop :=
  Forall (fun f => FrameNode f < len) frames.

Definition parserWf (p : StreamJSONParser) : Prop :=
  heapWf (heap p)
  /\ (forall r, root p = Some r -> r < length (heap p))
  /\ framesOk (length (heap p)) (stack p).

Lemma validNode_mono len len' n : validNode len n -> len <= len' -> validNode len' n.
Proof.
  intros [Hc Ha] Hle. split; intros ? child H; [apply Hc in H|apply Ha in H]; lia.
Qed.

Lemma validNode_fresh len ty v c par : validNode len (mkNode ty v ∅ [] c par).
Proof. split; simpl; intros ? child H; [rewrite lookup_empty in H|]; discriminate. Qed.

Lemma validNode_setChild len key q n :
  validNode len n -> q < len -> validNode len (setChild key q n).
Proof.
  intros [Hc Ha] Hq. split; simpl; [|exact Ha].
  intros k child H. destruct (decide (key = k)) as [->|Hne].
  - rewrite lookup_insert_eq in H. congruence.
  - rewrite lookup_insert_ne in H by exact Hne. eauto.
Qed.

Lemma validNode_appendElem len q n :
  validNode len n -> q < len -> validNode len (appendElem q n).
Proof.
  intros [Hc Ha] Hq. split; simpl; [exact Hc|].
  intros i child H. apply lookup_snoc_Some in H as [[_ H]|[_ <-]]; eauto.
Qed.

Lemma validNode_markCompleted len n : validNode len n -> validNode len (markCompleted n).
Proof. intros H. exact H. Qed.

Lemma heapWf_alloc h n :
  heapWf h -> validNode (S (length h)) n -> heapWf (h ++ [n]).
Proof.
  intros Hwf Hn q m H. rewrite length_app. simpl. rewrite Nat.add_1_r.
  apply lookup_snoc_Some in H as [[_ H]|[_ <-]]; [|exact Hn].
  eapply validNode_mono; [eapply Hwf; exact H|lia].
Qed.

Lemma heapWf_alter h g i :
  heapWf h -> (forall n, validNode (length h) n -> validNode (length h) (g n)) ->
  heapWf (alter g i h).
Proof.
  intros Hwf Hg q n H. rewrite length_alter. rewrite list_lookup_alter in H.
  destruct (decide (i = q)) as [->|Hne]; [|eapply Hwf; exact H].
  destruct (h !! q) as [m|] eqn:E; [|discriminate]. simpl in H. injection H as <-.
  apply Hg. eapply Hwf. exact E.
Qed.

Lemma attach_wf h f q :
  heapWf h -> q < length h ->
  heapWf (attach h f q).1.1 /\ length (attach h f q).1.1 = length h.
Proof.
  intros Hwf Hq. pose proof (attach_cases h f q) as [Hlen Hc]. cbv zeta in *.
  split; [|exact Hlen].
  destruct Hc as [->|(g & -> & [->| ->])]; [exact Hwf| |];
    apply heapWf_alter; auto using validNode_setChild, validNode_appendElem.
Qed.

Lemma framesOk_mono len len' frames :
  framesOk len frames -> len <= len' -> framesOk len' frames.
Proof. unfold framesOk. intros H Hle. eapply Forall_impl; [exact H|]. simpl. intros. lia. Qed.

Lemma startRoot_wf ty p : parserWf p -> parserWf (startRoot ty p).
Proof.
  intros (Hh & Hr & Hf). unfold startRoot, alloc, parserWf. simpl.
  rewrite length_app. simpl. split; [|split].
  - apply heapWf_alloc; [exact Hh|apply validNode_fresh].
  - intros r [= <-]. lia.
  - constructor; [destruct ty; simpl; lia|]. eapply framesOk_mono; [exact Hf|lia].
Qed.

Lemma handleContainerStart_wf ty p f rest :
  parserWf p -> stack p = f :: rest -> parserWf (handleContainerStart ty p f rest).
Proof.
  intros (Hh & Hr & Hf) Hs. unfold handleContainerStart, alloc.
  rewrite Hs in Hf. apply Forall_cons in Hf as [Hf1 Hf2].
  assert (heapWf (heap p ++ [mkNode ty GoNil ∅ [] false (Some (FrameNode f))])) as Hh1
    by (apply heapWf_alloc; [exact Hh|apply validNode_fresh]).
  assert (length (heap p) <
          length (heap p ++ [mkNode ty GoNil ∅ [] false (Some (FrameNode f))])) as Hlt
    by (rewrite length_app; simpl; lia).
  pose proof (attach_wf _ f (length (heap p)) Hh1 Hlt) as [Hw Hl].
  destruct (attach _ f (length (heap p))) as [[h1 inObject] inArray]. simpl in *.
  unfold parserWf. simpl. rewrite Hl. split; [exact Hw|]. split.
  - intros r H. apply Hr in H. lia.
  - constructor; [destruct ty; simpl; lia|].
    constructor; [destruct inObject; simpl; lia|].
    eapply framesOk_mono; [exact Hf2|lia].
Qed.

Lemma handleEnd_wf p : parserWf p -> parserWf (handleEnd p).
Proof.
  intros (Hh & Hr & Hf). unfold handleEnd. destruct (stack p) as [|f rest] eqn:Es;
    [unfold parserWf; rewrite Es; auto|].
  unfold parserWf. simpl. rewrite length_alter.
  apply Forall_cons in Hf as [Hf1 Hf2].
  split; [apply heapWf_alter; auto using validNode_markCompleted|]. split; [exact Hr|].
  destruct rest as [|parentFrame below]; [constructor|].
  apply Forall_cons in Hf2 as [Hp Hb]. constructor; [|exact Hb].
  destruct (isObjectAt _ _); [exact Hp|]. destruct (isArrayAt _ _); exact Hp.
Qed.

Lemma handleValue_wf p token f rest :
  parserWf p -> stack p = f :: rest -> parserWf (handleValue p token f rest).
Proof.
  intros (Hh & Hr & Hf) Hs. unfold handleValue, alloc.
  rewrite Hs in Hf. apply Forall_cons in Hf as [Hf1 Hf2].
  set (valueNode := mkNode ValueNode (parseTokenValue token) ∅ [] true (Some (FrameNode f))).
  assert (heapWf (heap p ++ [valueNode])) as Hh1
    by (apply heapWf_alloc; [exact Hh|apply validNode_fresh]).
  assert (length (heap p) < length (heap p ++ [valueNode])) as Hlt
    by (rewrite length_app; simpl; lia).
  pose proof (attach_wf _ f (length (heap p)) Hh1 Hlt) as [Hw Hl].
  destruct (attach _ f (length (heap p))) as [[h1 inObject] inArray]. simpl in *.
  unfold parserWf. simpl. rewrite Hl. split; [exact Hw|]. split.
  - intros r H. apply Hr in H. lia.
  - constructor; [destruct inObject, inArray; simpl; lia|].
    eapply framesOk_mono; [exact Hf2|lia].
Qed.

Lemma withTop_wf p f g rest :
  parserWf p -> stack p = f :: rest -> FrameNode g = FrameNode f ->
  parserWf (withTop p g rest).
Proof.
  intros (Hh & Hr & Hf) Hs Hg. unfold parserWf, withTop. simpl.
  rewrite Hs in Hf. apply Forall_cons in Hf as [Hf1 Hf2].
  split; [exact Hh|]. split; [exact Hr|]. constructor; [lia|exact Hf2].
Qed.

Lemma processCompleteToken_wf p token :
  parserWf p -> parserWf (processCompleteToken p token).
Proof.
  intros Hwf. unfold processCompleteToken. destruct (stack p) as [|f rest] eqn:Es; [exact Hwf|].
  destruct (TokenTy token); try exact Hwf.
  - apply handleContainerStart_wf; assumption.
  - apply handleEnd_wf; assumption.
  - apply handleContainerStart_wf; assumption.
  - apply handleEnd_wf; assumption.
  - apply handleValue_wf; assumption.
  - apply handleValue_wf; assumption.
  - unfold handleObjectKey. destruct (isObjectAt _ _); [|exact Hwf].
    eapply withTop_wf; eauto.
  - apply handleValue_wf; assumption.
  - unfold handleColon. destruct (isObjectAt _ _); [|exact Hwf].
    eapply withTop_wf; eauto.
  - unfold handleComma. destruct (isObjectAt _ _); [eapply withTop_wf; eauto|].
    destruct (isArrayAt _ _); [eapply withTop_wf; eauto|exact Hwf].
  - apply handleValue_wf; assumption.
Qed.

Lemma processIncompleteToken_wf p token :
  parserWf p -> parserWf (processIncompleteToken p token).
Proof.
  intros Hwf. unfold processIncompleteToken.
  destruct (stack p) as [|f rest] eqn:Es; [exact Hwf|].
  destruct (TokenTy token); try exact Hwf.
  destruct (_ && _); [|exact Hwf].
  destruct (Content token) as [|c partialValue]; [exact Hwf|].
  destruct (Ascii.eqb c quote); [|exact Hwf].
  destruct Hwf as (Hh & Hr & Hf). unfold alloc, parserWf. simpl.
  rewrite length_alter, length_app. simpl. split; [|split].
  - apply heapWf_alter; [apply heapWf_alloc; [exact Hh|apply validNode_fresh]|].
    intros n Hn. apply validNode_setChild; [exact Hn|]. rewrite length_app. simpl. lia.
  - intros r H. apply Hr in H. lia.
  - rewrite Es in Hf. eapply framesOk_mono; [exact Hf|lia].
Qed.

Lemma processToken_wf p token : parserWf p -> parserWf (processToken p token).2.
Proof.
  intros Hwf. unfold processToken.
  destruct (TokenTy token); simpl; try exact Hwf;
    (destruct (started p); simpl;
     [destruct (Completed token); simpl;
      [apply processCompleteToken_wf|apply processIncompleteToken_wf]; exact Hwf
     |try exact Hwf; apply startRoot_wf; exact Hwf]).
Qed.

Lemma processStep_wf p : parserWf p -> parserWf (processStep p).2.
Proof.
  intros Hwf. unfold processStep. destruct (NextToken (tokenizer p)) as [token t].
  apply processToken_wf. exact Hwf.
Qed.

Lemma processTokens_wf n p p' :
  parserWf p -> processTokens n p = Some p' -> parserWf p'.
Proof.
  revert p; induction n as [|n IH]; intros p Hwf H; [discriminate|].
  simpl in H. pose proof (processStep_wf p Hwf) as H1.
  destruct (processStep p) as [[] p1]; simpl in *.
  - eapply IH; eauto.
  - congruence.
Qed.

(** ** The parser states a caller can reach *)

Inductive Reachable : StreamJSONParser -> Prop :=
  | reach_new : Reachable NewStreamJSONParser
  | reach_append p fuel content p' :
      Reachable p -> Append fuel p content = Some p' -> Reachable p'.

Lemma Reachable_inv p : Reachable p -> parserWf p /\ tokInv (tokenizer p).
Proof.
  induction 1 as [|p fuel content p' _ [Hwf Hinv] Happ].
  - split; [|exact I]. unfold parserWf. simpl. split; [|split].
    + intros q n H. discriminate.
    + discriminate.
    + constructor.
  - unfold Append in Happ. split.
    + eapply processTokens_wf; [|exact Happ]. exact Hwf.
    + eapply processTokens_tokInv; [|exact Happ]. simpl.
      apply tokAppend_tokInv. exact Hinv.
Qed.

(** ** C7: Get never raises *)

Lemma yield_ok h q : q < length h -> exists v, yield h q = Ok v.
Proof.
  intros Hq. unfold yield. destruct (lookup_lt_is_Some_2 h q Hq) as [n ->].
  destruct (isValueNode n); eauto.
Qed.

Lemma getFromNode_ok h keys :
  heapWf h -> forall q, q < length h -> exists v, getFromNode h (Some q) keys = Ok v.
Proof.
  intros Hwf. induction keys as [|key rest IH]; intros q Hq.
  - simpl. apply yield_ok. exact Hq.
  - simpl. destruct (lookup_lt_is_Some_2 h q Hq) as [n Hn]. rewrite Hn.
    destruct (Hwf q n Hn) as [Hc Ha].
    assert (forall child, child < length h ->
              exists v, match rest with
                        | [] => yield h child
                        | _ :: _ => getFromNode h (Some child) rest
                        end = Ok v) as Hdesc.
    { intros child Hchild. destruct rest; [apply yield_ok|apply IH]; exact Hchild. }
    destruct (NodeTy n).
    + destruct (Children n !! key) as [child|] eqn:Ek; [|eauto].
      apply Hdesc. eapply Hc. exact Ek.
    + destruct (Atoi key) as [index|]; [|eauto].
      destruct ((0 <=? index)%Z && (index <? Z.of_nat (length (Array n)))%Z) eqn:Er; [|eauto].
      apply andb_prop in Er as [H0 H1]. apply Z.leb_le in H0. apply Z.ltb_lt in H1.
      assert (Z.to_nat index < length (Array n)) as Hlt by lia.
      destruct (lookup_lt_is_Some_2 _ _ Hlt) as [child Hchild]. rewrite Hchild.
      apply Hdesc. eapply Ha. exact Hchild.
    + eauto.
Qed.

(** C7. For every parser state reached by appends and every path, [Get]
    returns a value and does not panic.  The empty path, with or without a
    root, gives nil, and so does any path while there is no root.  At any
    node the path has reached: a key that an object does not hold, an array
    segment that [Atoi] rejects or reads as a negative or out-of-range index,
    and any segment applied to a Value node give nil. *)
Theorem C7_get_never_raises p keys :
  Reachable p ->
  (exists v, Get p keys = Ok v)
  /\ Get p [] = Ok GoNil
  /\ (root p = None -> Get p keys = Ok GoNil)
  /\ (forall q n key rest,
        heap p !! q = Some n ->
        (NodeTy n = ObjectNode -> Children n !! key = None ->
         getFromNode (heap p) (Some q) (key :: rest) = Ok GoNil)
        /\ (NodeTy n = ArrayNode -> Atoi key = None ->
            getFromNode (heap p) (Some q) (key :: rest) = Ok GoNil)
        /\ (NodeTy n = ArrayNode ->
            forall index, Atoi key = Some index ->
            (index < 0 \/ Z.of_nat (length (Array n)) <= index)%Z ->
            getFromNode (heap p) (Some q) (key :: rest) = Ok GoNil)
        /\ (NodeTy n = ValueNode ->
            getFromNode (heap p) (Some q) (key :: rest) = Ok GoNil)).
Proof.
  intros Hreach. destruct (Reachable_inv p Hreach) as [(Hh & Hr & _) _].
  split; [|split; [|split]].
  - unfold Get. destruct (root p) as [r|] eqn:Er; [|eauto].
    destruct keys as [|key rest]; [eauto|].
    apply getFromNode_ok; [exact Hh|]. apply Hr. reflexivity.
  - unfold Get. destruct (root p); reflexivity.
  - intros Hn. unfold Get. rewrite Hn. reflexivity.
  - intros q n key rest Hq. repeat split.
    + intros Hty Hk. simpl. rewrite Hq, Hty, Hk. reflexivity.
    + intros Hty Ha. simpl. rewrite Hq, Hty, Ha. reflexivity.
    + intros Hty index Ha Hrange. simpl. rewrite Hq, Hty, Ha.
      destruct ((0 <=? index)%Z && (index <? Z.of_nat (length (Array n)))%Z) eqn:E;
        [|reflexivity].
      apply andb_prop in E as [H0 H1]. apply Z.leb_le in H0. apply Z.ltb_lt in H1. lia.
    + intros Hty. simpl. rewrite Hq, Hty. reflexivity.
Qed.

(** ** C4: after completion *)

Lemma IsCompleted_true p : IsCompleted p = true <-> stack p = [] /\ started p = true.
Proof.
  unfold IsCompleted. destruct (stack p); split; intros H; try tauto; try discriminate.
  destruct H; discriminate.
Qed.

(** With no open frame, a turn of the loop changes the tokenizer only. *)
Lemma idle_token p token :
  stack p = [] -> started p = true ->
  heap (processToken p token).2 = heap p /\ root (processToken p token).2 = root p
  /\ stack (processToken p token).2 = [] /\ started (processToken p token).2 = true.
Proof.
  intros Hs Hst. unfold processToken, processCompleteToken, processIncompleteToken.
  rewrite Hst, Hs. destruct (TokenTy token), (Completed token); simpl; auto.
Qed.

Lemma idle_tokens n p p' :
  stack p = [] -> started p = true -> processTokens n p = Some p' ->
  heap p' = heap p /\ root p' = root p /\ stack p' = [] /\ started p' = true.
Proof.
  revert p; induction n as [|n IH]; intros p Hs Hst H; [discriminate|].
  simpl in H. unfold processStep in H.
  destruct (NextToken (tokenizer p)) as [token t].
  pose proof (idle_token (setTokenizer p t) token Hs Hst) as (Hh & Hr & Hs' & Hst').
  destruct (processToken (setTokenizer p t) token) as [[] p1]; simpl in *.
  - destruct (IH p1 Hs' Hst' H) as (? & ? & ? & ?). repeat split; congruence.
  - injection H as <-. auto.
Qed.

Lemma idle_Append n p content p' :
  stack p = [] -> started p = true -> Append n p content = Some p' ->
  heap p' = heap p /\ root p' = root p /\ stack p' = [] /\ started p' = true.
Proof.
  intros Hs Hst H. unfold Append in H.
  apply (idle_tokens n (setTokenizer p (tokAppend (tokenizer p) content)) p'); assumption.
Qed.

Lemma Append_terminates p content :
  tokInv (tokenizer p) -> started p = true ->
  exists p', Append (S (measure (tokAppend (tokenizer p) content))) p content = Some p'.
Proof.
  intros Hinv Hst. unfold Append. apply processTokens_terminates; simpl.
  - apply tokAppend_tokInv. exact Hinv.
  - exact Hst.
  - lia.
Qed.

Lemma AppendAll_mono n m p chunks p' :
  AppendAll n p chunks = Some p' -> n <= m -> AppendAll m p chunks = Some p'.
Proof.
  revert p; induction chunks as [|c cs IH]; intros p H Hle; simpl in *; [exact H|].
  unfold Append in *.
  destruct (processTokens n _) as [p1|] eqn:E; [|discriminate].
  rewrite (processTokens_mono _ _ _ _ E Hle). apply IH; assumption.
Qed.

Lemma Get_ext p p' keys :
  heap p' = heap p -> root p' = root p -> Get p' keys = Get p keys.
Proof. intros Hh Hr. unfold Get. rewrite Hh, Hr. reflexivity. Qed.

(** C4. Once [IsCompleted] is true, every further [Append] returns, and after
    any sequence of them [IsCompleted] is still true, the tree (every node
    ever allocated, and the root) is as it was and [Get] gives on every path
    what it gave before; the appended text is arbitrary. *)
Theorem C4_completion_is_stable p chunks :
  Reachable p -> IsCompleted p = true ->
  exists fuel p',
    AppendAll fuel p chunks = Some p'
    /\ IsCompleted p' = true
    /\ heap p' = heap p /\ root p' = root p
    /\ forall keys, Get p' keys = Get p keys.
Proof.
  intros Hreach Hc. revert p Hreach Hc.
  induction chunks as [|c cs IH]; intros p Hreach Hc.
  - exists 0, p. simpl. auto.
  - apply IsCompleted_true in Hc as [Hs Hst].
    destruct (Reachable_inv p Hreach) as [_ Hinv].
    destruct (Append_terminates p c Hinv Hst) as [p1 Happ].
    pose proof (idle_Append _ _ _ _ Hs Hst Happ) as (Hh & Hr & Hs1 & Hst1).
    assert (Reachable p1) as Hreach1 by (eapply reach_append; eauto).
    assert (IsCompleted p1 = true) as Hc1 by (apply IsCompleted_true; auto).
    destruct (IH p1 Hreach1 Hc1) as (fuel & p' & Hall & Hc' & Hh' & Hr' & Hget).
    exists (Nat.max fuel (S (measure (tokAppend (tokenizer p) c)))), p'.
    split; [|split; [exact Hc'|split; [congruence|split; [congruence|]]]].
    + simpl. unfold Append in *.
      rewrite (processTokens_mono _ (Nat.max fuel (S (measure (tokAppend (tokenizer p) c))))
                 _ _ Happ) by lia.
      eapply AppendAll_mono; [exact Hall|lia].
    + intros keys. rewrite Hget. apply Get_ext; assumption.
Qed.

(** ** Slices of a growing buffer *)

Lemma length_append (a b : string) :
  String.length (a +:+ b) = String.length a + String.length b.
Proof. induction a as [|c a IH]; simpl; [reflexivity|]. rewrite IH. reflexivity. Qed.

Lemma get_append_l (a b : string) n c : get n a = Some c -> get n (a +:+ b) = Some c.
Proof.
  intros H. rewrite <- (append_correct1 a b n); [exact H|]. eapply get_Some_lt; exact H.
Qed.


Lemma substring_cons s n m c :
  get n s = Some c -> substring n (S m) s = String.String c (substring (S n) m s).
Proof.
  revert n; induction s as [|a s IH]; intros [|n] H; simpl in *; try discriminate.
  - injection H as ->. destruct s, m; reflexivity.
  - apply IH. exact H.
Qed.

Lemma substring_full s : substring 0 (String.length s) s = s.
Proof. induction s as [|a s IH]; simpl; [reflexivity|]. rewrite IH. reflexivity. Qed.

Lemma substring_zero n s : substring n 0 s = EmptyString.
Proof.
  revert n; induction s as [|a s IH]; intros [|n]; simpl; try reflexivity. apply IH.
Qed.

Lemma substring_append_l (a b : string) n m :
  n + m <= String.length a -> substring n m (a +:+ b) = substring n m a.
Proof.
  revert n m; induction a as [|c a IH]; intros n m H; simpl in *.
  - assert (n = 0) as -> by lia. assert (m = 0) as -> by lia.
    destruct b; reflexivity.
  - destruct n as [|n].
    + destruct m as [|m]; [reflexivity|]. f_equal. apply IH. lia.
    + apply IH. lia.
Qed.


Lemma append_cons a (s t : string) :
  String.String a s +:+ t = String.String a (s +:+ t).
Proof. reflexivity. Qed.

Lemma substring_snoc s j c :
  get j s = Some c -> substring 0 (S j) s = substring 0 j s +:+ String.String c EmptyString.
Proof.
  revert j; induction s as [|a s IH]; intros [|j] H; simpl in *; try discriminate.
  - injection H as ->. rewrite substring_zero. reflexivity.
  - rewrite append_cons. f_equal. apply IH. exact H.
Qed.

Lemma get_snoc (x : string) c : get (String.length x) (x +:+ String.String c EmptyString) = Some c.
Proof. induction x as [|a x IH]; simpl; [reflexivity|exact IH]. Qed.

Lemma stripQuotes_quoted x :
  stripQuotes (String.String quote (x +:+ String.String quote EmptyString)) = x.
Proof.
  unfold stripQuotes. cbn [String.length]. rewrite length_append. cbn [String.length].
  replace (2 <=? S (String.length x + 1)) with true by (symmetry; apply Nat.leb_le; lia).
  cbn [get]. rewrite bool_decide_eq_true_2 by reflexivity.
  replace (S (String.length x + 1) - 1) with (S (String.length x)) by lia.
  cbn [get]. rewrite get_snoc. rewrite bool_decide_eq_true_2 by reflexivity.
  cbn [andb]. replace (S (String.length x + 1) - 2) with (String.length x) by lia.
  cbn [substring]. rewrite substring_append_l by lia. apply substring_full.
Qed.

(** ** More on the string scan *)

Lemma scanString_le fuel buf pos esc :
  pos <= String.length buf -> (scanString fuel buf pos esc).1.2 <= String.length buf.
Proof.
  revert pos esc; induction fuel as [|fuel IH]; intros pos esc Hle; simpl; [exact Hle|].
  destruct (get pos buf) eqn:E; simpl; [|exact Hle]. apply get_Some_lt in E.
  destruct esc; [apply IH; lia|].
  destruct (Ascii.eqb a backslash); [apply IH; lia|].
  destruct (Ascii.eqb a quote); simpl; [lia|apply IH; lia].
Qed.

(** A scan that finds no closing quote has read the whole buffer. *)
Lemma scanString_open fuel buf pos esc :
  String.length buf - pos <= fuel ->
  (scanString fuel buf pos esc).1.1 = false ->
  String.length buf <= (scanString fuel buf pos esc).1.2.
Proof.
  revert pos esc; induction fuel as [|fuel IH]; intros pos esc Hf; simpl.
  - intros _. lia.
  - destruct (get pos buf) eqn:E; simpl; [|intros _; apply get_None_ge; exact E].
    destruct esc; [apply IH; lia|].
    destruct (Ascii.eqb a backslash); [apply IH; lia|].
    destruct (Ascii.eqb a quote); simpl; [discriminate|apply IH; lia].
Qed.

(** A scan that closes the string stops right after a quote. *)
Lemma scanString_closed fuel buf pos esc :
  (scanString fuel buf pos esc).1.1 = true ->
  pos < (scanString fuel buf pos esc).1.2
  /\ get ((scanString fuel buf pos esc).1.2 - 1) buf = Some quote.
Proof.
  revert pos esc; induction fuel as [|fuel IH]; intros pos esc; simpl; [discriminate|].
  destruct (get pos buf) eqn:E; simpl; [|discriminate].
  destruct esc; [intros H; destruct (IH _ _ H); split; [lia|assumption]|].
  destruct (Ascii.eqb a backslash); [intros H; destruct (IH _ _ H); split; [lia|assumption]|].
  destruct (Ascii.eqb a quote) eqn:Eq; simpl.
  - intros _. split; [lia|]. rewrite Nat.sub_0_r.
    apply Ascii.eqb_eq in Eq. congruence.
  - intros H; destruct (IH _ _ H); split; [lia|assumption].
Qed.

(** ** The position stays inside the buffer *)

Definition bounded (t : StreamJSONTokenizer) : Prop :=
  position t <= String.length (buffer t).

Lemma scanRun_le pred buf pos :
  pos <= String.length buf -> scanRun pred buf pos <= String.length buf.
Proof. apply scanWhile_le. Qed.

Lemma stringLoop_bounded t : bounded t -> bounded (stringLoop t).2.
Proof.
  unfold bounded, stringLoop. intros H.
  pose proof (scanString_le (String.length (buffer t) - position t) (buffer t)
                (position t) (escapeNext t) H) as Hle.
  destruct (scanString _ _ _ _) as [[closed pos] esc]. exact Hle.
Qed.

Lemma matchLiteral_le expected buf pos :
  pos <= String.length buf ->
  (matchLiteral expected buf pos).2 <= String.length buf
  /\ ((matchLiteral expected buf pos).1 = true ->
      (matchLiteral expected buf pos).2 < String.length buf).
Proof.
  revert pos; induction expected as [|e rest IH]; intros pos Hle; simpl.
  - split; [exact Hle|discriminate].
  - destruct (get pos buf) eqn:E; simpl; [|split; [exact Hle|discriminate]].
    apply get_Some_lt in E. destruct (Ascii.eqb a e); simpl.
    + apply IH. lia.
    + split; [lia|intros _; exact E].
Qed.

Lemma parseLiteral_bounded expected ty t startPos :
  bounded t -> bounded (parseLiteral expected ty t startPos).2.
Proof.
  unfold bounded, parseLiteral. intros H.
  pose proof (matchLiteral_le expected (buffer t) (position t) H) as [Hle Hlt].
  destruct (matchLiteral _ _ _) as [mismatch pos]. simpl in *.
  destruct mismatch; simpl; [specialize (Hlt eq_refl); lia|].
  destruct (_ =? _); [destruct (nextIsLetter _)|]; simpl; try exact Hle.
  apply scanRun_le. exact Hle.
Qed.

Lemma continueLiteral_bounded expected ty t last :
  bounded t -> bounded (continueLiteral expected ty t last).2.
Proof.
  unfold bounded, continueLiteral. intros H.
  pose proof (matchLiteral_le (drop (TokenEnd last - TokenStart last) expected)
                (buffer t) (position t) H) as [Hle _].
  destruct (matchLiteral _ _ _) as [mismatch pos]. simpl in *.
  destruct mismatch; simpl; [apply scanRun_le; exact Hle|].
  destruct (_ =? _); [destruct (nextIsLetter _)|]; simpl; try exact Hle.
  apply scanRun_le. exact Hle.
Qed.

Lemma parseNumber_bounded t startPos : bounded t -> bounded (parseNumber t startPos).2.
Proof.
  unfold bounded, parseNumber. intros H.
  destruct (get (position t) (buffer t)) as [c|] eqn:E.
  - apply get_Some_lt in E. destruct (Ascii.eqb c "-"%char); simpl;
      match goal with |- context [numberCompleted ?x] => destruct (numberCompleted x) end;
      simpl; apply scanRun_le; lia.
  - match goal with |- context [numberCompleted ?x] => destruct (numberCompleted x) end;
      simpl; apply scanRun_le; lia.
Qed.

Lemma continueToken_bounded t : bounded t -> bounded (continueToken t).2.
Proof.
  intros H. unfold continueToken. destruct (lastToken t) as [last|]; [|exact H].
  destruct (TokenTy last); try exact H.
  - unfold continueNumber, bounded. simpl. apply scanRun_le. exact H.
  - apply continueLiteral_bounded. exact H.
  - unfold continueString. pose proof (stringLoop_bounded t H).
    destruct (stringLoop t). assumption.
  - unfold continueString. pose proof (stringLoop_bounded t H).
    destruct (stringLoop t). assumption.
  - apply continueLiteral_bounded. exact H.
Qed.

Lemma parseString_bounded t startPos c :
  get (position t) (buffer t) = Some c -> bounded (parseString t startPos).2.
Proof.
  intros Hg. apply get_Some_lt in Hg. unfold parseString.
  assert (bounded (setPosition t (S (position t)))) as Hb by (unfold bounded; simpl; lia).
  pose proof (stringLoop_bounded _ Hb) as H.
  destruct (stringLoop _) as [closed t1]. destruct closed; exact H.
Qed.

Lemma freshToken_bounded t char :
  get (position t) (buffer t) = Some char -> bounded (freshToken t char).2.
Proof.
  intros Hg. pose proof (get_Some_lt _ _ _ Hg) as Hlt.
  assert (bounded t) as Hb by (unfold bounded; lia).
  unfold freshToken.
  repeat match goal with
  | |- bounded (if ?b then _ else _).2 => destruct b
  end; try (unfold bounded; simpl; lia).
  - eapply parseString_bounded; exact Hg.
  - apply parseLiteral_bounded; exact Hb.
  - apply parseLiteral_bounded; exact Hb.
  - apply parseNumber_bounded; exact Hb.
Qed.

Lemma NextToken_bounded t : bounded t -> bounded (NextToken t).2.
Proof.
  intros H. unfold NextToken. destruct (pending t).
  - pose proof (continueToken_bounded t H) as Hc.
    destruct (continueToken t) as [token t1]. exact Hc.
  - cbv zeta. destruct (get _ _) as [char|] eqn:E.
    + apply freshToken_bounded. exact E.
    + unfold bounded, skipWhitespace. simpl. apply scanRun_le. exact H.
Qed.

(** ** String tokens

    A String or ObjectKey token starts at a quote of the buffer, and its
    content is the slice of the buffer from that quote to the position
    reached. *)

Definition isStringTy (ty : TokenType) : bool :=
  match ty with String | ObjectKey => true | _ => false end.

Definition strInv (t : StreamJSONTokenizer) : Prop :=
  forall last, lastToken t = Some last -> isStringTy (TokenTy last) = true ->
    get (TokenStart last) (buffer t) = Some quote /\ TokenStart last < position t.

Definition stringShape (t t' : StreamJSONTokenizer) (token : Token) : Prop :=
  get (TokenStart token) (buffer t) = Some quote
  /\ TokenStart token < position t'
  /\ Content token
     = substring (TokenStart token) (position t' - TokenStart token) (buffer t)
  /\ (Completed token = false -> position t' = String.length (buffer t))
  /\ (Completed token = true ->
      TokenStart token + 1 < position t'
      /\ get (position t' - 1) (buffer t) = Some quote).

Lemma stringLoop_shape t start ty :
  bounded t -> get start (buffer t) = Some quote -> start < position t ->
  let r := stringLoop t in
  stringShape t r.2
    (mkToken start (position r.2) ty (buildString r.2 start (position r.2)) r.1).
Proof.
  intros Hb Hq Hlt. unfold stringLoop, stringShape.
  pose proof (scanString_ge (String.length (buffer t) - position t) (buffer t)
                (position t) (escapeNext t)) as Hge.
  pose proof (scanString_le (String.length (buffer t) - position t) (buffer t)
                (position t) (escapeNext t) Hb) as Hle.
  pose proof (scanString_open (String.length (buffer t) - position t) (buffer t)
                (position t) (escapeNext t) (Nat.le_refl _)) as Hopen.
  pose proof (scanString_closed (String.length (buffer t) - position t) (buffer t)
                (position t) (escapeNext t)) as Hclosed.
  destruct (scanString _ _ _ _) as [[closed pos] esc]. simpl in *.
  split; [exact Hq|]. split; [lia|]. split.
  - unfold buildString. simpl.
    replace (pos <=? start) with false by (symmetry; apply Nat.leb_gt; lia). reflexivity.
  - split.
    + intros ->. specialize (Hopen eq_refl). lia.
    + intros ->. destruct (Hclosed eq_refl) as [H1 H2]. split; [lia|exact H2].
Qed.

Lemma NextToken_string t token t' :
  tokInv t -> bounded t -> strInv t ->
  NextToken t = (token, t') -> isStringTy (TokenTy token) = true ->
  stringShape t t' token.
Proof.
  intros Hinv Hb Hs H Hty. unfold NextToken in H.
  destruct (pending t) as [last|] eqn:Ep.
  - apply pending_Some in Ep. unfold continueToken in H. rewrite Ep in H.
    assert (resumable (TokenTy last) = true) as Hr
      by (unfold tokInv in Hinv; rewrite Ep in Hinv; tauto).
    destruct (TokenTy last) eqn:El; simpl in Hr; try discriminate.
    + exfalso. unfold continueNumber in H. injection H as <- _. discriminate.
    + exfalso. destruct (continueBool t last) as [tk t1] eqn:Ec.
      injection H as <- _.
      assert (tk = (continueBool t last).1) as -> by (rewrite Ec; reflexivity).
      unfold continueBool in Hty.
      match type of Hty with
      | isStringTy (TokenTy (continueLiteral ?e ?ty ?t ?s).1) = _ =>
          destruct (continueLiteral_ty e ty t s) as [E|E]; rewrite E in Hty; discriminate
      end.
    + destruct (Hs last Ep) as [Hq Hlt]; [rewrite El; reflexivity|].
      pose proof (stringLoop_shape t (TokenStart last) (TokenTy last) Hb Hq Hlt) as Hsh.
      unfold continueString in H. destruct (stringLoop t) as [closed t1].
      injection H as <- <-. unfold stringShape in *. simpl in *. exact Hsh.
    + destruct (Hs last Ep) as [Hq Hlt]; [rewrite El; reflexivity|].
      pose proof (stringLoop_shape t (TokenStart last) (TokenTy last) Hb Hq Hlt) as Hsh.
      unfold continueString in H. destruct (stringLoop t) as [closed t1].
      injection H as <- <-. unfold stringShape in *. simpl in *. exact Hsh.
    + exfalso. destruct (continueNull t last) as [tk t1] eqn:Ec.
      injection H as <- _.
      assert (tk = (continueNull t last).1) as -> by (rewrite Ec; reflexivity).
      unfold continueNull in Hty.
      destruct (continueLiteral_ty nullBytes Null t last) as [E|E];
        rewrite E in Hty; discriminate.
  - cbv zeta in H. pose proof (skipWhitespace_facts t) as (Hbuf & _).
    destruct (get _ _) as [char|] eqn:Eg; [|injection H as <- _; discriminate].
    unfold freshToken in H.
    repeat match type of H with
    | (if ?b then _ else _) = _ => destruct b eqn:?
    end;
    try (injection H as <- _; simpl in Hty; discriminate).
    + rename Heqb5 into Eq. apply Ascii.eqb_eq in Eq. subst char.
      unfold parseString in H.
      pose proof (get_Some_lt _ _ _ Eg) as Hlt.
      remember (skipWhitespace t) as t0 eqn:Et0.
      assert (bounded (setPosition t0 (S (position t0)))) as Hb1
        by (unfold bounded; simpl; lia).
      pose proof (stringLoop_shape (setPosition t0 (S (position t0))) (position t0)
                    (if expectingKey (stringLoop (setPosition t0 (S (position t0)))).2
                     then ObjectKey else String) Hb1 Eg) as Hsh.
      simpl in Hsh. specialize (Hsh (Nat.lt_succ_diag_r _)).
      destruct (stringLoop _) as [closed t1].
      unfold stringShape in Hsh. simpl in Hsh. rewrite Hbuf in Hsh.
      destruct closed; injection H as <- <-; unfold stringShape; simpl; exact Hsh.
    + exfalso.
      assert (token = (parseBool (skipWhitespace t) (position (skipWhitespace t))).1) as ->
        by (rewrite H; reflexivity).
      unfold parseBool in Hty.
      match type of Hty with
      | isStringTy (TokenTy (parseLiteral ?e ?ty ?t ?s).1) = _ =>
          destruct (parseLiteral_ty e ty t s) as [E|E]; rewrite E in Hty; discriminate
      end.
    + exfalso.
      assert (token = (parseNull (skipWhitespace t) (position (skipWhitespace t))).1) as ->
        by (rewrite H; reflexivity).
      unfold parseNull in Hty.
      destruct (parseLiteral_ty nullBytes Null (skipWhitespace t)
                  (position (skipWhitespace t))) as [E|E]; rewrite E in Hty; discriminate.
    + exfalso.
      assert (token = (parseNumber (skipWhitespace t) (position (skipWhitespace t))).1) as ->
        by (rewrite H; reflexivity).
      destruct (parseNumber_token (skipWhitespace t) (position (skipWhitespace t))) as [E _].
      cbv zeta in E. rewrite E in Hty. discriminate.
Qed.


(** ** The states of a run

    [Running] holds of every state the parser goes through: the new parser,
    a state whose tokenizer has just been given a chunk, and the state after
    a turn of the loop. *)

Definition tokWf (t : StreamJSONTokenizer) : Prop :=
  tokInv t /\ bounded t /\ strInv t.

Lemma NextToken_tokWf t : tokWf t -> tokWf (NextToken t).2.
Proof.
  intros (Hinv & Hb & Hs).
  pose proof (NextToken_facts t Hinv) as (Hbuf & Hinv' & _ & Hdone & _ & Hinc).
  pose proof (NextToken_bounded t Hb) as Hb'.
  pose proof (NextToken_string t) as Hstr.
  destruct (NextToken t) as [token t'] eqn:E. simpl in *.
  split; [exact Hinv'|]. split; [exact Hb'|].
  intros last Hl Hty. destruct (Completed token) eqn:Ec.
  - rewrite Hdone in Hl by reflexivity. discriminate.
  - destruct (Hinc eq_refl) as [Hl' _]. rewrite Hl' in Hl. injection Hl as <-.
    destruct (Hstr token t' Hinv Hb Hs eq_refl Hty) as (Hq & Hlt & _).
    rewrite Hbuf. auto.
Qed.

Lemma tokAppend_tokWf t content : tokWf t -> tokWf (tokAppend t content).
Proof.
  intros (Hinv & Hb & Hs). split; [apply tokAppend_tokInv; exact Hinv|]. split.
  - unfold bounded in *. simpl. rewrite length_append. lia.
  - intros last Hl Hty. simpl in *. destruct (Hs last Hl Hty) as [Hq Hlt].
    split; [apply get_append_l; exact Hq|exact Hlt].
Qed.

Inductive Running : StreamJSONParser -> Prop :=
  | run_new : Running NewStreamJSONParser
  | run_chunk p content :
      Running p -> Running (setTokenizer p (tokAppend (tokenizer p) content))
  | run_step p : Running p -> Running (processStep p).2.

Lemma Running_inv p : Running p -> tokWf (tokenizer p) /\ parserWf p.
Proof.
  induction 1 as [|p content _ [Ht Hp]|p _ [Ht Hp]].
  - split.
    + split; [exact I|]. split; [unfold bounded; simpl; lia|].
      intros last H. discriminate.
    + unfold parserWf. simpl. split; [|split].
      * intros q n H. discriminate.
      * discriminate.
      * constructor.
  - split; [apply tokAppend_tokWf; exact Ht|exact Hp].
  - split; [|apply processStep_wf; exact Hp].
    rewrite processStep_tokenizer. apply NextToken_tokWf. exact Ht.
Qed.

Lemma Running_tokens n p p' : Running p -> processTokens n p = Some p' -> Running p'.
Proof.
  revert p; induction n as [|n IH]; intros p Hr H; [discriminate|].
  simpl in H. pose proof (run_step p Hr) as H1.
  destruct (processStep p) as [[] p1]; simpl in *.
  - eapply IH; eauto.
  - congruence.
Qed.

Lemma Reachable_Running p : Reachable p -> Running p.
Proof.
  induction 1 as [|p fuel content p' _ IH Happ]; [constructor|].
  unfold Append in Happ. eapply Running_tokens; [|exact Happ].
  apply run_chunk. exact IH.
Qed.

(** ** A value attached under a key *)

(** The object node [node] holds under [key] a Value node with the value [v]
    and the completion flag [completed]. *)
Definition valueAt (h : list Node) (node : ptr) (key : string)
    (v : GoValue) (completed : bool) : Prop :=
  exists n q c,
    h !! node = Some n /\ NodeTy n = ObjectNode /\ Children n !! key = Some q
    /\ h !! q = Some c /\ NodeTy c = ValueNode /\ Value c = v
    /\ NodeCompleted c = completed.

Lemma valueAt_get h node key v completed :
  valueAt h node key v completed -> getFromNode h (Some node) [key] = Ok v.
Proof.
  intros (n & q & c & Hn & Hty & Hk & Hq & Hc & Hv & _). simpl.
  rewrite Hn, Hty, Hk. unfold yield. rewrite Hq. unfold isValueNode. rewrite Hc, Hv.
  reflexivity.
Qed.

Lemma isObjectAt_Some h node :
  isObjectAt h node = true <-> exists n, h !! node = Some n /\ NodeTy n = ObjectNode.
Proof.
  unfold isObjectAt, nodeTypeAt. destruct (h !! node) as [n|]; simpl.
  - destruct (NodeTy n) eqn:E; split; try discriminate; eauto.
    + intros (n' & [= <-] & H). congruence.
    + intros (n' & [= <-] & H). congruence.
  - split; [discriminate|]. intros (n' & H & _). discriminate.
Qed.

Lemma isObjectAt_alloc h node v :
  isObjectAt h node = true -> isObjectAt (h ++ [v]) node = true.
Proof.
  rewrite !isObjectAt_Some. intros (n & Hn & Hty). exists n. split; [|exact Hty].
  rewrite lookup_app_l; [exact Hn|]. eapply lookup_lt_Some; exact Hn.
Qed.


Lemma valueAt_attach h node key v :
  isObjectAt h node = true -> NodeTy v = ValueNode ->
  valueAt (alter (setChild key (length h)) node (h ++ [v])) node key
          (Value v) (NodeCompleted v).
Proof.
  intros Ho Hv. apply isObjectAt_Some in Ho as (n & Hn & Hty).
  pose proof (lookup_lt_Some _ _ _ Hn) as Hlt.
  exists (setChild key (length h) n), (length h), v. repeat split; auto.
  - rewrite list_lookup_alter_eq, lookup_app_l by exact Hlt. rewrite Hn. reflexivity.
  - simpl. apply lookup_insert_eq.
  - rewrite list_lookup_alter_ne by lia.
    apply lookup_snoc_Some. right. auto.
Qed.

Lemma attach_object h f q :
  isObjectAt h (FrameNode f) = true -> nonEmpty (CurrentKey f) = true ->
  attach h f q = (alter (setChild (CurrentKey f) q) (FrameNode f) h, true, false).
Proof. intros Ho Hk. unfold attach. rewrite Ho, Hk. reflexivity. Qed.

Lemma append_assoc (a b c : string) : (a +:+ b) +:+ c = a +:+ (b +:+ c).
Proof. induction a as [|x a IH]; [reflexivity|]. rewrite !append_cons, IH. reflexivity. Qed.

(** ** C3: a string value under construction *)





(** ** C2: feeding a text in chunks *)

(** A state on which a turn of the loop changes nothing and goes on: the
    loop never leaves it. *)
Lemma stuck_loop p :
  processStep p = (Continue, p) -> forall fuel, processTokens fuel p = None.
Proof.
  intros H fuel. induction fuel as [|fuel IH]; [reflexivity|].
  simpl. rewrite H. exact IH.
Qed.

Lemma stuck_after_one p p1 :
  processStep p = (Continue, p1) -> processStep p1 = (Continue, p1) ->
  forall fuel, processTokens fuel p = None.
Proof.
  intros H H1 [|fuel]; [reflexivity|]. simpl. rewrite H. apply stuck_loop. exact H1.
Qed.

(** C2. Feeding a text in chunks does not always give what feeding it whole
    gives.  The JSON text [null], fed whole, is read and dropped and [Append]
    returns; fed as [nu] then [ll], the first [Append] never returns: before
    the root exists the loop goes on after an incomplete token, and
    [NextToken] gives that token again for ever.  The same holds of a quoted
    string cut in two.  On [{'a':truex}] the whole text gives no value under
    [a], while [{'a':true] then [x}] gives true; on [{'a':t}] the whole text
    swallows the closing brace and is never completed, while the chunked one
    is. *)
Theorem C2_chunked_feeding_differs :
  (exists p, Append 100 NewStreamJSONParser "null" = Some p
             /\ IsCompleted p = false /\ root p = None)
  /\ (forall fuel, Append fuel NewStreamJSONParser "nu" = None)
  /\ (forall fuel, AppendAll fuel NewStreamJSONParser ["nu"; "ll"]%string = None)
  /\ (exists p, Append 100 NewStreamJSONParser (js "'ab'") = Some p)
  /\ (forall fuel, AppendAll fuel NewStreamJSONParser [js "'a"; js "b'"] = None)
  /\ (exists p1 p2,
        Append 100 NewStreamJSONParser (js "{'a':truex}") = Some p1
        /\ AppendAll 100 NewStreamJSONParser [js "{'a':true"; "x}"%string] = Some p2
        /\ IsCompleted p1 = true /\ IsCompleted p2 = true
        /\ Get p1 ["a"%string] = Ok GoNil
        /\ Get p2 ["a"%string] = Ok (GoBool true))
  /\ (exists p1 p2,
        Append 100 NewStreamJSONParser (js "{'a':t}") = Some p1
        /\ AppendAll 100 NewStreamJSONParser [js "{'a':t"; "}"%string] = Some p2
        /\ IsCompleted p1 = false /\ IsCompleted p2 = true).
Proof.
  assert (forall fuel, Append fuel NewStreamJSONParser "nu" = None) as Hnu.
  { intros fuel. unfold Append.
    eapply stuck_after_one; [vm_compute; reflexivity|vm_compute; reflexivity]. }
  assert (forall fuel, Append fuel NewStreamJSONParser (js "'a") = None) as Hstr.
  { intros fuel. unfold Append.
    eapply stuck_after_one; [vm_compute; reflexivity|vm_compute; reflexivity]. }
  split; [eexists; vm_compute; repeat split; reflexivity|].
  split; [exact Hnu|].
  split; [intros fuel; simpl; rewrite Hnu; reflexivity|].
  split; [eexists; vm_compute; reflexivity|].
  split; [intros fuel; simpl; rewrite Hstr; reflexivity|].
  split; [eexists _, _; vm_compute; repeat split; reflexivity|].
  eexists _, _; vm_compute; repeat split; reflexivity.
Qed.

(** ** More on slices and on the literal scan *)

Lemma buildString_slice t start end_ :
  buildString t start end_ = substring start (end_ - start) (buffer t).
Proof.
  unfold buildString. destruct (end_ <=? start) eqn:E; [|reflexivity].
  apply Nat.leb_le in E. replace (end_ - start) with 0 by lia.
  symmetry. apply substring_zero.
Qed.

Lemma substring_beyond n m s : String.length s <= n -> substring n m s = EmptyString.
Proof.
  revert n m; induction s as [|a s IH]; intros [|n] m H; simpl in *; try lia.
  - destruct m; reflexivity.
  - reflexivity.
  - apply IH. lia.
Qed.

(** A slice is the slice up to a cut followed by the slice from the cut. *)
Lemma substring_split n a b s :
  substring n (a + b) s = substring n a s +:+ substring (n + a) b s.
Proof.
  revert n a; induction s as [|c s IH]; intros n a.
  - rewrite !substring_beyond by (simpl; lia). reflexivity.
  - destruct n as [|n].
    + destruct a as [|a]; simpl.
      * reflexivity.
      * rewrite append_cons. f_equal. apply (IH 0 a).
    + simpl. apply IH.
Qed.

Lemma substring_one n s c :
  get n s = Some c -> substring n 1 s = String.String c EmptyString.
Proof. intros H. rewrite (substring_cons _ _ _ _ H), substring_zero. reflexivity. Qed.

Lemma string_of_list_ascii_app (a b : list ascii) :
  string_of_list_ascii (a ++ b) = string_of_list_ascii a +:+ string_of_list_ascii b.
Proof. induction a as [|x a IH]; simpl; [reflexivity|]. rewrite IH. reflexivity. Qed.

Lemma take_take_drop {A} (l : list A) k j :
  take k l ++ take j (drop k l) = take (k + j) l.
Proof.
  revert k; induction l as [|x l IH]; intros [|k]; simpl; try reflexivity.
  - destruct j; reflexivity.
  - f_equal. apply IH.
Qed.

(** What the literal scan has stepped over is the matching part of the
    expected word; it stops on a differing byte, at the end of the word or at
    the end of the buffer. *)
Lemma matchLiteral_spec expected buf pos :
  let r := matchLiteral expected buf pos in
  pos <= r.2 /\ r.2 - pos <= length expected
  /\ substring pos (r.2 - pos) buf = string_of_list_ascii (take (r.2 - pos) expected)
  /\ (r.1 = false -> r.2 - pos = length expected \/ String.length buf <= r.2)
  /\ (r.1 = true -> r.2 - pos < length expected /\ r.2 < String.length buf).
Proof.
  revert pos; induction expected as [|e rest IH]; intros pos; simpl.
  - rewrite Nat.sub_diag. repeat split; auto; try lia; try discriminate.
    apply substring_zero.
  - destruct (get pos buf) as [c|] eqn:Eg; simpl.
    + destruct (Ascii.eqb c e) eqn:Ec; simpl.
      * apply Ascii.eqb_eq in Ec. subst c.
        destruct (IH (S pos)) as (Hge & Hle & Hsub & Hf & Ht).
        set (r := matchLiteral rest buf (S pos)) in *.
        replace (r.2 - pos) with (S (r.2 - S pos)) by lia.
        split; [lia|]. split; [lia|]. split.
        { rewrite (substring_cons _ _ _ _ Eg). simpl. f_equal. exact Hsub. }
        split.
        { intros H. destruct (Hf H); [left|right]; lia. }
        { intros H. destruct (Ht H). split; lia. }
      * rewrite Nat.sub_diag. apply get_Some_lt in Eg.
        repeat split; auto; try lia; try discriminate. apply substring_zero.
    + rewrite Nat.sub_diag. apply get_None_ge in Eg.
      repeat split; auto; try lia; try discriminate. apply substring_zero.
Qed.

(** ** What every token is

    A token other than the end of input covers a non-empty span of the buffer
    that ends at the position reached, and its content is that slice.  The
    content of a Bool or Null token is the part of [true], [false] or [null]
    read so far. *)

Definition wordOf (ty : TokenType) (w : list ascii) : Prop :=
  match ty with
  | Bool => w = trueBytes \/ w = falseBytes
  | Null => w = nullBytes
  | _ => True
  end.

Definition litOk (tok : Token) : Prop :=
  TokenTy tok = Bool \/ TokenTy tok = Null ->
  exists w, wordOf (TokenTy tok) w
    /\ Content tok = string_of_list_ascii (take (TokenEnd tok - TokenStart tok) w)
    /\ if Completed tok then TokenEnd tok - TokenStart tok = length w
       else TokenEnd tok - TokenStart tok < length w.

Definition spanOk (buf : string) (pos : nat) (tok : Token) : Prop :=
  TokenStart tok < pos /\ TokenEnd tok = pos
  /\ Content tok = substring (TokenStart tok) (pos - TokenStart tok) buf
  /\ litOk tok.

(** The result of a scan: the span, and the buffer read to its end when the
    token is incomplete. *)
Definition tokenOk (buf : string) (r : Token * StreamJSONTokenizer) : Prop :=
  spanOk buf (position r.2) r.1
  /\ (Completed r.1 = false -> position r.2 = String.length buf).

Definition tokStrong (t : StreamJSONTokenizer) : Prop :=
  tokWf t /\ forall last, lastToken t = Some last -> spanOk (buffer t) (position t) last.

Lemma litOk_other tok :
  TokenTy tok <> Bool -> TokenTy tok <> Null -> litOk tok.
Proof. intros H1 H2 [H|H]; contradiction. Qed.

Lemma stringLoop_tokenOk t start ty :
  bounded t -> start < position t -> ty <> Bool -> ty <> Null ->
  let r := stringLoop t in
  tokenOk (buffer t)
    (mkToken start (position r.2) ty (buildString r.2 start (position r.2)) r.1, r.2).
Proof.
  intros Hb Hlt H1 H2. cbv zeta.
  pose proof (stringLoop_facts t) as (Hbuf & Hge & _).
  pose proof (stringLoop_bounded t Hb) as Hb'.
  unfold stringLoop in *.
  pose proof (scanString_open (String.length (buffer t) - position t) (buffer t)
                (position t) (escapeNext t) (Nat.le_refl _)) as Hopen.
  destruct (scanString _ _ _ _) as [[closed pos] esc]. simpl in *.
  unfold tokenOk, spanOk, bounded in *. simpl in *.
  split; [split; [lia|split; [reflexivity|split]]|].
  - rewrite buildString_slice. reflexivity.
  - apply litOk_other; assumption.
  - intros ->. specialize (Hopen eq_refl). lia.
Qed.

Lemma parseString_tokenOk t c :
  get (position t) (buffer t) = Some c -> tokenOk (buffer t) (parseString t (position t)).
Proof.
  intros Hg. apply get_Some_lt in Hg. unfold parseString.
  set (t1 := setPosition t (S (position t))).
  assert (bounded t1) as Hb by (unfold bounded; simpl; lia).
  assert (position t < position t1) as Hlt by (simpl; lia).
  assert (forall ty, ty <> Bool -> ty <> Null ->
            tokenOk (buffer t)
              (mkToken (position t) (position (stringLoop t1).2) ty
                 (buildString (stringLoop t1).2 (position t) (position (stringLoop t1).2))
                 (stringLoop t1).1, (stringLoop t1).2)) as H
    by (intros ty H1 H2; apply (stringLoop_tokenOk t1 (position t) ty Hb Hlt H1 H2)).
  destruct (stringLoop t1) as [closed t2]. simpl in H.
  assert ((if expectingKey t2 then ObjectKey else String) <> Bool
          /\ (if expectingKey t2 then ObjectKey else String) <> Null) as [H1 H2]
    by (destruct (expectingKey t2); split; discriminate).
  specialize (H _ H1 H2).
  destruct closed; unfold tokenOk in *; simpl in *; exact H.
Qed.

Lemma continueString_tokenOk t last :
  bounded t -> spanOk (buffer t) (position t) last ->
  TokenTy last <> Bool -> TokenTy last <> Null ->
  tokenOk (buffer t) (continueString t last).
Proof.
  intros Hb (Hlt & _) H1 H2. unfold continueString.
  pose proof (stringLoop_tokenOk t (TokenStart last) (TokenTy last) Hb Hlt H1 H2) as H.
  destruct (stringLoop t) as [closed t1]. exact H.
Qed.

Lemma numberScan_tokenOk t start :
  bounded t -> start < position t ->
  let t2 := setPosition t (scanRun isNumberChar (buffer t) (position t)) in
  tokenOk (buffer t)
    (mkToken start (position t2) Number (buildString t2 start (position t2))
             (numberCompleted t2), t2).
Proof.
  intros Hb Hlt. cbv zeta.
  pose proof (scanRun_ge isNumberChar (buffer t) (position t)) as Hge.
  pose proof (scanRun_le isNumberChar (buffer t) (position t) Hb) as Hle.
  pose proof (number_scan_end t) as Hend. cbv zeta in Hend.
  unfold tokenOk, spanOk. simpl in *.
  split; [split; [lia|split; [reflexivity|split]]|].
  - rewrite buildString_slice. reflexivity.
  - apply litOk_other; discriminate.
  - intros H. specialize (Hend H). lia.
Qed.

Lemma parseNumber_tokenOk t c :
  get (position t) (buffer t) = Some c ->
  Ascii.eqb c "-"%char || isDigit c = true ->
  tokenOk (buffer t) (parseNumber t (position t)).
Proof.
  intros Hg Hc. pose proof (get_Some_lt _ _ _ Hg) as Hlen.
  unfold parseNumber. rewrite Hg.
  destruct (Ascii.eqb c "-"%char) eqn:Em.
  - set (t1 := setPosition t (S (position t))).
    assert (bounded t1) as Hb by (unfold bounded; simpl; lia).
    pose proof (numberScan_tokenOk t1 (position t) Hb (Nat.lt_succ_diag_r _)) as H.
    cbv zeta in H.
    destruct (numberCompleted _); unfold tokenOk in *; simpl in *; exact H.
  - simpl in Hc.
    assert (isNumberChar c = true) as Hn by (unfold isNumberChar; rewrite Hc; reflexivity).
    pose proof (scanRun_step isNumberChar _ _ _ Hg Hn) as Hgt.
    pose proof (scanRun_le isNumberChar (buffer t) (position t) (Nat.lt_le_incl _ _ Hlen))
      as Hle.
    pose proof (number_scan_end t) as Hend. cbv zeta in Hend.
    destruct (numberCompleted _) eqn:En; unfold tokenOk, spanOk; simpl;
      (split; [split; [lia|split; [reflexivity|split;
         [rewrite buildString_slice; reflexivity|apply litOk_other; discriminate]]]|]);
      [discriminate|intros _; specialize (Hend eq_refl); simpl in Hend; lia].
Qed.

Lemma continueNumber_tokenOk t last :
  bounded t -> spanOk (buffer t) (position t) last ->
  tokenOk (buffer t) (continueNumber t last).
Proof.
  intros Hb (Hlt & _). unfold continueNumber.
  apply (numberScan_tokenOk t (TokenStart last) Hb Hlt).
Qed.

Lemma substring_head n m s a r :
  substring n (S m) s = String.String a r -> get n s = Some a.
Proof.
  revert n; induction s as [|c s IH]; intros [|n] H; simpl in *; try discriminate.
  - injection H as -> _. reflexivity.
  - apply IH. exact H.
Qed.

Lemma parseLiteral_tokenOk w ty t c :
  get (position t) (buffer t) = Some c -> w <> [] ->
  ty = Bool \/ ty = Null -> wordOf ty w ->
  tokenOk (buffer t) (parseLiteral w ty t (position t)).
Proof.
  intros Hg Hne Hty Hw. pose proof (get_Some_lt _ _ _ Hg) as Hlen.
  unfold parseLiteral.
  pose proof (matchLiteral_spec w (buffer t) (position t)) as (Hge & Hle & Hsub & Hf & Ht).
  pose proof (matchLiteral_progress w _ _ _ Hg Hne) as Hpr.
  pose proof (matchLiteral_le w (buffer t) (position t) (Nat.lt_le_incl _ _ Hlen)) as [Hb _].
  destruct (matchLiteral w (buffer t) (position t)) as [mismatch pos]. simpl in *.
  destruct mismatch; simpl.
  - unfold tokenOk, spanOk. simpl.
    split; [|discriminate]. split; [lia|]. split; [reflexivity|]. split.
    + rewrite buildString_slice. reflexivity.
    + apply litOk_other; discriminate.
  - destruct Hpr as [?|Hpr]; [discriminate|].
    assert (litOk (mkToken (position t) pos ty
                     (buildString (setPosition t pos) (position t) pos)
                     (pos - position t =? length w))) as Hlit.
    { intros _. exists w. simpl. split; [exact Hw|]. split.
      - rewrite buildString_slice. exact Hsub.
      - destruct (pos - position t =? length w) eqn:E.
        + apply Nat.eqb_eq in E. exact E.
        + apply Nat.eqb_neq in E. lia. }
    destruct (pos - position t =? length w) eqn:E.
    + destruct (nextIsLetter _); simpl.
      * pose proof (scanRun_ge isLetter (buffer t) pos).
        unfold tokenOk, spanOk. simpl.
        split; [|discriminate]. split; [lia|]. split; [reflexivity|]. split.
        -- rewrite buildString_slice. reflexivity.
        -- apply litOk_other; discriminate.
      * unfold tokenOk, spanOk. simpl.
        split; [|discriminate]. split; [lia|]. split; [reflexivity|]. split.
        -- rewrite buildString_slice. reflexivity.
        -- exact Hlit.
    + simpl. unfold tokenOk, spanOk. simpl. apply Nat.eqb_neq in E.
      split.
      * split; [lia|]. split; [reflexivity|]. split.
        -- rewrite buildString_slice. reflexivity.
        -- exact Hlit.
      * intros _. destruct (Hf eq_refl); lia.
Qed.

Lemma continueLiteral_tokenOk w ty t last :
  bounded t -> spanOk (buffer t) (position t) last ->
  ty = Bool \/ ty = Null -> wordOf ty w ->
  Content last = string_of_list_ascii (take (TokenEnd last - TokenStart last) w) ->
  TokenEnd last - TokenStart last < length w ->
  tokenOk (buffer t) (continueLiteral w ty t last).
Proof.
  intros Hb (Hlt & Hend & Hcont & _) Hty Hw Hpre Hk.
  unfold continueLiteral. rewrite Hend in *.
  set (k := position t - TokenStart last) in *.
  pose proof (matchLiteral_spec (drop k w) (buffer t) (position t))
    as (Hge & Hle & Hsub & Hf & Ht).
  pose proof (matchLiteral_le (drop k w) (buffer t) (position t) Hb) as [Hb' _].
  rewrite length_drop in *.
  destruct (matchLiteral (drop k w) (buffer t) (position t)) as [mismatch pos].
  simpl in *.
  assert (substring (TokenStart last) (pos - TokenStart last) (buffer t)
          = string_of_list_ascii (take (pos - TokenStart last) w)) as Hall.
  { replace (pos - TokenStart last) with (k + (pos - position t)) by (subst k; lia).
    rewrite substring_split. rewrite <- Hcont, Hpre.
    replace (TokenStart last + k) with (position t) by (subst k; lia).
    rewrite Hsub, <- string_of_list_ascii_app, take_take_drop. reflexivity. }
  assert (forall completed : bool,
            (if completed then pos - TokenStart last = length w
             else pos - TokenStart last < length w) ->
            litOk (mkToken (TokenStart last) pos ty
                     (buildString (setPosition t pos) (TokenStart last) pos) completed))
    as Hlit.
  { intros completed Hc _. exists w. simpl. split; [exact Hw|]. split; [|exact Hc].
    rewrite buildString_slice. exact Hall. }
  pose proof (scanRun_ge isLetter (buffer t) pos) as Hl.
  destruct mismatch; simpl.
  - unfold tokenOk, spanOk. simpl.
    split; [|discriminate]. split; [lia|]. split; [reflexivity|]. split.
    + rewrite buildString_slice. reflexivity.
    + apply litOk_other; discriminate.
  - destruct (pos - TokenStart last =? length w) eqn:E.
    + apply Nat.eqb_eq in E. destruct (nextIsLetter _); simpl.
      * unfold tokenOk, spanOk. simpl.
        split; [|discriminate]. split; [lia|]. split; [reflexivity|]. split.
        -- rewrite buildString_slice. reflexivity.
        -- apply litOk_other; discriminate.
      * unfold tokenOk, spanOk. simpl.
        split; [|discriminate]. split; [lia|]. split; [reflexivity|]. split.
        -- rewrite buildString_slice. reflexivity.
        -- apply (Hlit true). exact E.
    + apply Nat.eqb_neq in E. simpl. unfold tokenOk, spanOk. simpl.
      split.
      * split; [lia|]. split; [reflexivity|]. split.
        -- rewrite buildString_slice. reflexivity.
        -- apply (Hlit false). subst k. lia.
      * intros _. destruct (Hf eq_refl); subst k; lia.
Qed.

(** The word [continueBool] picks from the first byte of the token is the
    word the token is a part of. *)
Lemma continueBool_word t last w :
  spanOk (buffer t) (position t) last ->
  w = trueBytes \/ w = falseBytes ->
  Content last = string_of_list_ascii (take (TokenEnd last - TokenStart last) w) ->
  continueBool t last = continueLiteral w Bool t last.
Proof.
  intros (Hlt & Hend & Hcont & _) Hw Hpre. unfold continueBool.
  rewrite Hend in *.
  replace (0 <? position t - TokenStart last) with true
    by (symmetry; apply Nat.ltb_lt; lia).
  rewrite Hcont in Hpre.
  destruct (position t - TokenStart last) as [|k] eqn:Ek; [lia|].
  destruct Hw as [-> | ->]; simpl in Hpre;
    apply substring_head in Hpre; rewrite Hpre; reflexivity.
Qed.

Lemma continueToken_tokenOk t last :
  tokStrong t -> lastToken t = Some last -> Completed last = false ->
  tokenOk (buffer t) (continueToken t).
Proof.
  intros [(Hinv & Hb & _) Hspan] Hl Hc. specialize (Hspan last Hl).
  assert (resumable (TokenTy last) = true) as Hr
    by (unfold tokInv in Hinv; rewrite Hl in Hinv; tauto).
  unfold continueToken. rewrite Hl.
  destruct (TokenTy last) eqn:Ety; simpl in Hr; try discriminate.
  - apply continueNumber_tokenOk; assumption.
  - destruct Hspan as (H1 & H2 & H3 & Hlit).
    destruct Hlit as (w & Hw & Hpre & Hk); [left; exact Ety|].
    rewrite Ety in Hw. rewrite Hc in Hk. simpl in Hw.
    rewrite (continueBool_word t last w); [|repeat split; auto| exact Hw|exact Hpre].
    + apply continueLiteral_tokenOk; auto. repeat split; auto.
      intros _. exists w. rewrite Ety, Hc. auto.
    + intros _. exists w. rewrite Ety, Hc. auto.
  - apply continueString_tokenOk; try assumption; rewrite Ety; discriminate.
  - apply continueString_tokenOk; try assumption; rewrite Ety; discriminate.
  - pose proof Hspan as (H1 & H2 & H3 & Hlit).
    destruct Hlit as (w & Hw & Hpre & Hk); [right; exact Ety|].
    rewrite Ety in Hw. rewrite Hc in Hk. simpl in Hw. subst w.
    unfold continueNull. apply continueLiteral_tokenOk; auto. reflexivity.
Qed.

Lemma single_tokenOk t ty char e :
  get (position t) (buffer t) = Some char -> ty <> Bool -> ty <> Null ->
  tokenOk (buffer t) (single t ty char, setExpectingKey (setPosition t (S (position t))) e).
Proof.
  intros Hg H1 H2. unfold tokenOk, spanOk. simpl.
  split; [|discriminate]. split; [lia|]. split; [reflexivity|]. split.
  - replace (S (position t) - position t) with 1 by lia.
    symmetry. apply substring_one. exact Hg.
  - apply litOk_other; assumption.
Qed.

Lemma freshToken_tokenOk t char :
  get (position t) (buffer t) = Some char -> tokenOk (buffer t) (freshToken t char).
Proof.
  intros Hg. unfold freshToken.
  repeat match goal with
  | |- tokenOk _ (if ?b then _ else _) => destruct b eqn:?
  end;
  try (apply single_tokenOk; [exact Hg|discriminate|discriminate]).
  - eapply parseString_tokenOk; exact Hg.
  - unfold parseBool. rewrite Hg.
    destruct (Ascii.eqb char "t"%char);
      (eapply parseLiteral_tokenOk;
       [exact Hg|apply bytes_nonempty; simpl; lia|left; reflexivity|simpl; auto]).
  - unfold parseNull.
    eapply parseLiteral_tokenOk;
      [exact Hg|apply bytes_nonempty; simpl; lia|right; reflexivity|reflexivity].
  - eapply parseNumber_tokenOk; eauto.
Qed.

(** [NextToken] keeps the strong invariant, and its token, unless it is the
    end of input, is a well-formed span. *)
Lemma NextToken_strong t :
  tokStrong t ->
  tokStrong (NextToken t).2
  /\ (TokenTy (NextToken t).1 <> EOF -> tokenOk (buffer t) (NextToken t)).
Proof.
  intros Hstrong. pose proof Hstrong as [Hwf Hspan].
  pose proof Hwf as (Hinv & Hb & _).
  assert (TokenTy (NextToken t).1 <> EOF -> tokenOk (buffer t) (NextToken t)) as Hok.
  { unfold NextToken. destruct (pending t) as [last|] eqn:Ep.
    - pose proof (pending_Some _ _ Ep) as Hl.
      assert (Completed last = false) as Hc
        by (unfold pending in Ep; rewrite Hl in Ep; destruct (Completed last);
            [discriminate|reflexivity]).
      pose proof (continueToken_tokenOk t last Hstrong Hl Hc) as H.
      destruct (continueToken t) as [token t1]. intros _.
      unfold tokenOk in *. simpl in *. exact H.
    - cbv zeta. pose proof (skipWhitespace_facts t) as (Hbuf & _).
      destruct (get _ _) as [char|] eqn:Eg.
      + intros _. rewrite <- Hbuf. apply freshToken_tokenOk. exact Eg.
      + simpl. congruence. }
  split; [|exact Hok]. split; [apply NextToken_tokWf; exact Hwf|].
  pose proof (NextToken_facts t Hinv) as (Hbuf & _ & _ & Hdone & _ & Hinc).
  intros last Hl. destruct (Completed (NextToken t).1) eqn:Ec.
  - rewrite Hdone in Hl by reflexivity. discriminate.
  - destruct (Hinc eq_refl) as [Hl' Hr]. rewrite Hl' in Hl. injection Hl as <-.
    rewrite Hbuf. apply Hok. intros E. rewrite E in Hr. discriminate.
Qed.

Lemma tokAppend_strong t content : tokStrong t -> tokStrong (tokAppend t content).
Proof.
  intros [Hwf Hspan]. pose proof Hwf as (_ & Hb & _).
  split; [apply tokAppend_tokWf; exact Hwf|].
  intros last Hl. simpl in *. destruct (Hspan last Hl) as (H1 & H2 & H3 & H4).
  repeat split; auto. unfold bounded in Hb.
  rewrite substring_append_l by lia. exact H3.
Qed.

(** ** The states of a tokenizer

    [Scanning] holds of every state a tokenizer goes through: the new
    tokenizer, after an [Append], after a [NextToken]. *)
Inductive Scanning : StreamJSONTokenizer -> Prop :=
  | scan_new : Scanning NewStreamJSONTokenizer
  | scan_append t content : Scanning t -> Scanning (tokAppend t content)
  | scan_next t : Scanning t -> Scanning (NextToken t).2.

Lemma Scanning_strong t : Scanning t -> tokStrong t.
Proof.
  induction 1 as [|t content _ IH|t _ IH].
  - split.
    + split; [exact I|]. split; [unfold bounded; simpl; lia|].
      intros last H. discriminate.
    + intros last H. discriminate.
  - apply tokAppend_strong. exact IH.
  - apply NextToken_strong. exact IH.
Qed.

Lemma Running_Scanning p : Running p -> Scanning (tokenizer p).
Proof.
  induction 1 as [|p content _ IH|p _ IH].
  - apply scan_new.
  - simpl. apply scan_append. exact IH.
  - rewrite processStep_tokenizer. apply scan_next. exact IH.
Qed.

(** ** Properties of the tokenizer *)



(** X2. A token is returned incomplete only when the buffer has been read to
    its end: the token then ends at the end of the buffer, is of a kind that
    can be resumed (String, ObjectKey, Number, Bool or Null) and is the one
    token the tokenizer keeps for the next call; after a complete token the
    tokenizer keeps none. *)
Theorem X2_incomplete_only_at_end_of_buffer t token t' :
  Scanning t -> NextToken t = (token, t') ->
  (Completed token = false ->
   position t' = String.length (buffer t) /\ TokenEnd token = String.length (buffer t)
   /\ lastToken t' = Some token /\ resumable (TokenTy token) = true)
  /\ (Completed token = true -> lastToken t' = None).
Proof.
  intros Hscan Hnext. pose proof (Scanning_strong t Hscan) as Hstrong.
  pose proof Hstrong as [(Hinv & _) _].
  pose proof (NextToken_facts t Hinv) as (_ & _ & _ & Hdone & _ & Hinc).
  destruct (NextToken_strong t Hstrong) as [_ Hok].
  rewrite Hnext in *. simpl in *. split; [|exact Hdone].
  intros Hc. destruct (Hinc Hc) as [Hl Hr].
  assert (TokenTy token <> EOF) as Hne by (intros E; rewrite E in Hr; discriminate).
  destruct (Hok Hne) as [(_ & H2 & _) Hend]. simpl in *.
  specialize (Hend Hc). repeat split; auto. congruence.
Qed.

Lemma token_eta tok :
  tok = mkToken (TokenStart tok) (TokenEnd tok) (TokenTy tok) (Content tok) (Completed tok).
Proof. destruct tok; reflexivity. Qed.

Lemma tokenizer_eta t :
  t = mkTokenizer (buffer t) (position t) (lastToken t) (escapeNext t) (expectingKey t).
Proof. destruct t; reflexivity. Qed.

Lemma scanRun_at_end pred buf pos : String.length buf <= pos -> scanRun pred buf pos = pos.
Proof.
  intros H. unfold scanRun. replace (String.length buf - pos) with 0 by lia. reflexivity.
Qed.

Lemma matchLiteral_at_end expected buf pos :
  String.length buf <= pos -> matchLiteral expected buf pos = (false, pos).
Proof.
  intros H. apply get_None_ge in H. destruct expected; simpl; [|rewrite H]; reflexivity.
Qed.

(** Resuming a token with no new input gives the same token and state. *)
Lemma continueToken_again t tok :
  tokStrong t -> lastToken t = Some tok -> Completed tok = false ->
  position t = String.length (buffer t) ->
  continueToken t = (tok, t).
Proof.
  intros [(Hinv & _) Hspan] Hl Hc Hend.
  destruct (Hspan tok Hl) as (Hlt & Hte & Hcont & Hlit).
  assert (resumable (TokenTy tok) = true) as Hr
    by (unfold tokInv in Hinv; rewrite Hl in Hinv; tauto).
  assert (get (position t) (buffer t) = None) as Hnone by (apply get_None_ge; lia).
  assert (forall ty, ty = TokenTy tok ->
            mkToken (TokenStart tok) (position t) ty
                    (buildString t (TokenStart tok) (position t)) false = tok) as Htok.
  { intros ty ->. rewrite buildString_slice, <- Hcont, <- Hte, <- Hc.
    symmetry. apply token_eta. }
  assert (forall w ty, ty = TokenTy tok ->
            Content tok = string_of_list_ascii (take (TokenEnd tok - TokenStart tok) w) ->
            TokenEnd tok - TokenStart tok < length w ->
            continueLiteral w ty t tok = (tok, t)) as Hlitc.
  { intros w ty Hty Hpre Hk. unfold continueLiteral.
    rewrite matchLiteral_at_end by lia.
    replace (setPosition t (position t)) with t by (rewrite (tokenizer_eta t) at 1; reflexivity).
    simpl. rewrite <- Hte at 1.
    replace (TokenEnd tok - TokenStart tok =? length w) with false
      by (symmetry; apply Nat.eqb_neq; lia).
    unfold tokenAt. rewrite (Htok ty Hty). reflexivity. }
  unfold continueToken. rewrite Hl.
  destruct (TokenTy tok) eqn:Ety; simpl in Hr; try discriminate.
  - unfold continueNumber. rewrite scanRun_at_end by lia.
    replace (setPosition t (position t)) with t by (rewrite (tokenizer_eta t) at 1; reflexivity).
    unfold numberCompleted. rewrite Hnone. rewrite (Htok Number); [reflexivity|congruence].
  - destruct Hlit as (w & Hw & Hpre & Hk); [left; exact Ety|].
    rewrite Ety in Hw. rewrite Hc in Hk. simpl in Hw.
    rewrite (continueBool_word t tok w); [|repeat split; auto|exact Hw|exact Hpre].
    + apply Hlitc; auto.
    + intros _. exists w. rewrite Ety, Hc. auto.
  - unfold continueString, stringLoop.
    replace (String.length (buffer t) - position t) with 0 by lia. simpl.
    replace (setEscapeNext (setPosition t (position t)) (escapeNext t)) with t
      by (rewrite (tokenizer_eta t) at 1; reflexivity).
    rewrite (Htok (TokenTy tok) Ety). reflexivity.
  - unfold continueString, stringLoop.
    replace (String.length (buffer t) - position t) with 0 by lia. simpl.
    replace (setEscapeNext (setPosition t (position t)) (escapeNext t)) with t
      by (rewrite (tokenizer_eta t) at 1; reflexivity).
    rewrite (Htok (TokenTy tok) Ety). reflexivity.
  - destruct Hlit as (w & Hw & Hpre & Hk); [right; exact Ety|].
    rewrite Ety in Hw. rewrite Hc in Hk. simpl in Hw. subst w.
    unfold continueNull. apply Hlitc; auto.
Qed.

Lemma NextToken_again t token t' :
  Scanning t -> NextToken t = (token, t') -> Completed token = false ->
  NextToken t' = (token, t').
Proof.
  intros Hscan Hnext Hc.
  assert (Scanning t') as Hscan'
    by (replace t' with (NextToken t).2 by (rewrite Hnext; reflexivity);
        apply scan_next; exact Hscan).
  pose proof (Scanning_strong t' Hscan') as Hstrong'.
  pose proof (Scanning_strong t Hscan) as Hstrong.
  pose proof Hstrong as [(Hinv & _) _].
  pose proof (NextToken_facts t Hinv) as (Hbuf & _ & _ & _ & _ & Hinc).
  destruct (NextToken_strong t Hstrong) as [_ Hok].
  rewrite Hnext in *. simpl in *.
  destruct (Hinc Hc) as [Hl Hr].
  assert (TokenTy token <> EOF) as Hne by (intros E; rewrite E in Hr; discriminate).
  destruct (Hok Hne) as [_ Hend]. simpl in Hend. specialize (Hend Hc).
  rewrite <- Hbuf in Hend.
  unfold NextToken.
  assert (pending t' = Some token) as -> by (unfold pending; rewrite Hl, Hc; reflexivity).
  rewrite (continueToken_again t' token Hstrong' Hl Hc Hend). rewrite Hc.
  f_equal. rewrite (tokenizer_eta t') at 2. rewrite Hl. reflexivity.
Qed.

(** X3. With no new input, [NextToken] is idempotent on an incomplete token:
    called again, it returns the same token (same span, same content, still
    incomplete) and leaves the tokenizer as it was. *)
Theorem X3_incomplete_token_is_returned_again t token t' :
  Scanning t -> NextToken t = (token, t') -> Completed token = false ->
  NextToken t' = (token, t')
  /\ forall n, Nat.iter n (fun s => (NextToken s).2) t' = t'.
Proof.
  intros Hscan Hnext Hc.
  pose proof (NextToken_again t token t' Hscan Hnext Hc) as H.
  split; [exact H|]. induction n as [|n IH]; [reflexivity|].
  simpl. rewrite IH, H. reflexivity.
Qed.

(** X4. Before the root exists, a turn of the loop on an incomplete token
    goes on instead of stopping, and the next turn meets the same token: from
    any state of a run where the parser has not started and [NextToken] gives
    an incomplete token, the loop of [processTokens] never ends, whatever the
    number of turns allowed. *)
Theorem X4_loop_never_ends_on_incomplete_token_before_root p :
  Running p -> started p = false ->
  Completed (NextToken (tokenizer p)).1 = false ->
  forall fuel, processTokens fuel p = None.
Proof.
  intros Hrun Hst Hc.
  pose proof (Running_Scanning p Hrun) as Hscan.
  destruct (NextToken (tokenizer p)) as [token t'] eqn:Hnext. simpl in Hc.
  pose proof (NextToken_again _ _ _ Hscan Hnext Hc) as Hagain.
  pose proof (Scanning_strong _ Hscan) as [(Hinv & _) _].
  pose proof (NextToken_facts _ Hinv) as (_ & _ & _ & _ & _ & Hinc).
  rewrite Hnext in Hinc. simpl in Hinc. destruct (Hinc Hc) as [_ Hr].
  assert (forall q, started q = false -> processToken q token = (Continue, q)) as Htok.
  { intros q Hq. unfold processToken. rewrite Hq.
    destruct (TokenTy token); simpl in *; try discriminate; reflexivity. }
  apply (stuck_after_one p (setTokenizer p t')).
  - unfold processStep. rewrite Hnext. apply Htok. exact Hst.
  - unfold processStep. simpl. rewrite Hagain. apply (Htok (setTokenizer p t')). exact Hst.
Qed.

Lemma processTokens_started n p p' :
  started p = true -> processTokens n p = Some p' -> started p' = true.
Proof.
  revert p; induction n as [|n IH]; intros p Hs H; [discriminate|].
  simpl in H. pose proof (processStep_started p Hs) as H1.
  destruct (processStep p) as [[] p1]; simpl in *; [eapply IH; eauto|congruence].
Qed.

Lemma measure_bound t :
  measure t < 2 * (String.length (buffer t) - position t) + 2.
Proof. unfold measure. destruct (lastToken t); lia. Qed.

(** X5. Once the root exists the loop always ends: from any state of a run
    with [started] set, [processTokens] returns within two turns per unread
    byte plus two; so every [Append] to a started parser returns, and the
    parser stays started. *)
Theorem X5_append_returns_once_started p content :
  Running p -> started p = true ->
  (exists p',
     processTokens (2 * (String.length (buffer (tokenizer p)) - position (tokenizer p)) + 2) p
     = Some p')
  /\ (exists p',
        Append (2 * (String.length (buffer (tokenizer p)) + String.length content
                     - position (tokenizer p)) + 2) p content = Some p'
        /\ started p' = true).
Proof.
  intros Hrun Hst. destruct (Running_inv p Hrun) as [(Hinv & _) _]. split.
  - apply processTokens_terminates; auto. apply measure_bound.
  - set (q := setTokenizer p (tokAppend (tokenizer p) content)).
    pose proof (measure_bound (tokenizer q)) as Hm.
    destruct (processTokens_terminates _ q (tokAppend_tokInv _ content Hinv) Hst Hm)
      as [p' Hp'].
    exists p'. unfold Append. fold q. subst q. simpl in *.
    rewrite length_append in Hp'. split; [exact Hp'|].
    eapply processTokens_started; [|exact Hp']. exact Hst.
Qed.

(** X6. With no token pending, [NextToken] skips the whitespace (space, tab,
    newline, carriage return) in front of it: it returns the end of input
    exactly when every byte from the position on is whitespace, and otherwise
    a token that starts at the first byte that is not whitespace.  The end of
    input is a complete token with no content, and the whole buffer has then
    been read. *)
Theorem X6_whitespace_is_skipped t token t' :
  Scanning t -> lastToken t = None -> NextToken t = (token, t') ->
  (TokenTy token = EOF <->
   forall i c, position t <= i -> get i (buffer t) = Some c -> isWhitespace c = true)
  /\ (TokenTy token = EOF ->
      Completed token = true /\ Content token = EmptyString
      /\ position t' = String.length (buffer t))
  /\ (TokenTy token <> EOF ->
      position t <= TokenStart token
      /\ (exists c, get (TokenStart token) (buffer t) = Some c /\ isWhitespace c = false)
      /\ forall i, position t <= i < TokenStart token ->
           exists c, get i (buffer t) = Some c /\ isWhitespace c = true).
Proof.
  intros Hscan Hl Hnext.
  pose proof (Scanning_strong t Hscan) as [(_ & Hb & _) _].
  assert (pending t = None) as Hp by (unfold pending; rewrite Hl; reflexivity).
  unfold NextToken in Hnext. rewrite Hp in Hnext. cbv zeta in Hnext.
  unfold skipWhitespace in Hnext. simpl in Hnext.
  pose proof (scanRun_ge isWhitespace (buffer t) (position t)) as Hge.
  pose proof (scanRun_le isWhitespace (buffer t) (position t) Hb) as Hle.
  pose proof (scanWhile_stop isWhitespace (String.length (buffer t) - position t)
                (buffer t) (position t) (Nat.le_refl _)) as Hstop.
  assert (forall i, position t <= i < scanRun isWhitespace (buffer t) (position t) ->
            exists c, get i (buffer t) = Some c /\ isWhitespace c = true) as Hrun
    by (intros i Hi; apply (scanWhile_run isWhitespace _ _ _ _ Hi)).
  fold (scanRun isWhitespace (buffer t) (position t)) in Hstop.
  set (pos := scanRun isWhitespace (buffer t) (position t)) in *.
  destruct (get pos (buffer t)) as [char|] eqn:Eg.
  - set (t0 := setPosition t pos) in *.
    assert (get (position t0) (buffer t0) = Some char) as Eg0 by exact Eg.
    pose proof (freshToken_ok t0 char Eg0) as (_ & _ & Hne & _).
    pose proof (freshToken_tokenOk t0 char Eg0) as [(Hlt & _) _].
    assert (TokenStart (freshToken t0 char).1 = pos) as Hstart.
    { unfold freshToken.
      repeat match goal with
      | |- TokenStart (if ?b then _ else _).1 = _ => destruct b
      end; try reflexivity.
      - unfold parseString. destruct (stringLoop _) as [[] ?]; reflexivity.
      - unfold parseBool, parseLiteral.
        destruct (matchLiteral _ _ _) as [[] ?]; simpl; [reflexivity|].
        destruct (_ =? _); [destruct (nextIsLetter _)|]; reflexivity.
      - unfold parseNull, parseLiteral.
        destruct (matchLiteral _ _ _) as [[] ?]; simpl; [reflexivity|].
        destruct (_ =? _); [destruct (nextIsLetter _)|]; reflexivity.
      - unfold parseNumber. destruct (get _ _) as [x|]; [destruct (Ascii.eqb x _)|];
          simpl; destruct (numberCompleted _); reflexivity. }
    rewrite Hnext in *. simpl in *. split; [|split].
    + split; [contradiction|]. intros H. exfalso.
      specialize (H pos char Hge Eg). congruence.
    + contradiction.
    + intros _. rewrite Hstart. split; [exact Hge|]. split; [eauto|exact Hrun].
  - injection Hnext as <- <-. simpl. apply get_None_ge in Eg.
    split; [|split].
    + split; [|reflexivity]. intros _ i c Hi Hg.
      destruct (Nat.lt_ge_cases i pos) as [Hlt|Hge'].
      * destruct (Hrun i (conj Hi Hlt)) as (c' & Hc' & Hw). congruence.
      * apply get_Some_lt in Hg. lia.
    + intros _. repeat split. lia.
    + congruence.
Qed.

(** X7. A complete Bool token is exactly [true] or [false] and a complete
    Null token is exactly [null], also when the word arrived in several
    chunks; [parseTokenValue] decodes them to the booleans true and false and
    to nil.  An incomplete Bool or Null token is a proper prefix of its word. *)
Theorem X7_literal_tokens_are_the_words t token t' :
  Scanning t -> NextToken t = (token, t') ->
  (TokenTy token = Bool ->
   if Completed token then
     (Content token = "true"%string /\ parseTokenValue token = GoBool true)
     \/ (Content token = "false"%string /\ parseTokenValue token = GoBool false)
   else exists w k, (w = "true" \/ w = "false")%string /\ k < String.length w
                    /\ Content token = substring 0 k w)
  /\ (TokenTy token = Null ->
      if Completed token then
        Content token = "null"%string /\ parseTokenValue token = GoNil
      else exists k, k < 4 /\ Content token = substring 0 k "null").
Proof.
  intros Hscan Hnext. pose proof (Scanning_strong t Hscan) as Hstrong.
  destruct (NextToken_strong t Hstrong) as [_ Hok]. rewrite Hnext in Hok. simpl in Hok.
  assert (forall w : list ascii,
            string_of_list_ascii (take (length w) w) = string_of_list_ascii w) as Hfull
    by (intros w; rewrite firstn_all; reflexivity).
  assert (forall (w : list ascii) k,
            string_of_list_ascii (take k w) = substring 0 k (string_of_list_ascii w))
    as Hpre.
  { induction w as [|x w IH]; intros [|k]; simpl; try reflexivity. f_equal. apply IH. }
  split; intros Hty.
  - destruct Hok as [(_ & _ & _ & Hlit) _]; [rewrite Hty; discriminate|].
    destruct Hlit as (w & Hw & Hc & Hk); [left; exact Hty|]. simpl in Hw, Hc, Hk.
    rewrite Hty in Hw. simpl in Hw. unfold parseTokenValue. rewrite Hty.
    destruct (Completed token).
    + rewrite Hk, Hfull in Hc. destruct Hw as [-> | ->]; rewrite Hc; simpl; auto.
    + rewrite Hpre in Hc.
      destruct Hw as [-> | ->]; [exists "true"%string|exists "false"%string];
        exists (TokenEnd token - TokenStart token); simpl in *; auto.
  - destruct Hok as [(_ & _ & _ & Hlit) _]; [rewrite Hty; discriminate|].
    destruct Hlit as (w & Hw & Hc & Hk); [right; exact Hty|]. simpl in Hw, Hc, Hk.
    rewrite Hty in Hw. simpl in Hw. subst w. unfold parseTokenValue. rewrite Hty.
    destruct (Completed token).
    + rewrite Hk, Hfull in Hc. rewrite Hc. simpl. auto.
    + rewrite Hpre in Hc. exists (TokenEnd token - TokenStart token). simpl in *. auto.
Qed.

(** ** A quoted text *)

(** A text with no quote and no backslash in it. *)
Fixpoint plainText (s : string) : bool :=
  match s with
  | EmptyString => true
  | String.String c r =>
      negb (Ascii.eqb c quote) && negb (Ascii.eqb c backslash) && plainText r
  end.

Definition quoted (s : string) : string :=
  String.String quote (s +:+ String.String quote EmptyString).

Lemma get_middle (pre : string) c post :
  get (String.length pre) (pre +:+ String.String c post) = Some c.
Proof. induction pre as [|a pre IH]; simpl; [reflexivity|exact IH]. Qed.

Lemma append_snoc_cons (pre : string) c r :
  (pre +:+ String.String c EmptyString) +:+ r = pre +:+ String.String c r.
Proof. rewrite append_assoc. reflexivity. Qed.

(** The string scan runs over a plain text up to the quote that follows it. *)
Lemma scanString_plain s : forall pre post fuel,
  plainText s = true -> String.length s < fuel ->
  scanString fuel (pre +:+ s +:+ String.String quote post) (String.length pre) false
  = (true, String.length pre + String.length s + 1, false).
Proof.
  induction s as [|c s IH]; intros pre post fuel Hp Hf.
  - destruct fuel as [|fuel]; [simpl in Hf; lia|].
    change (EmptyString +:+ String.String quote post) with (String.String quote post).
    cbn [scanString]. rewrite get_middle. simpl. f_equal. f_equal. lia.
  - destruct fuel as [|fuel]; [simpl in Hf; lia|].
    simpl in Hp. apply andb_prop in Hp as [Hp Hs]. apply andb_prop in Hp as [Hq Hb].
    cbn [scanString]. rewrite append_cons. rewrite get_middle.
    apply negb_true_iff in Hq, Hb. rewrite Hb, Hq.
    rewrite <- append_snoc_cons.
    replace (S (String.length pre))
      with (String.length (pre +:+ String.String c EmptyString))
      by (rewrite length_append; simpl; lia).
    rewrite IH; [|exact Hs|simpl in Hf; lia].
    rewrite length_append. simpl. f_equal. f_equal. lia.
Qed.

(** ** The escape flag

    The flag is set only while a string is being read: between two tokens it
    is clear. *)
Definition escInv (t : StreamJSONTokenizer) : Prop :=
  escapeNext t = true ->
  exists last, pending t = Some last /\ isStringTy (TokenTy last) = true.

Lemma scanString_closed_esc fuel buf pos esc :
  (scanString fuel buf pos esc).1.1 = true -> (scanString fuel buf pos esc).2 = false.
Proof.
  revert pos esc; induction fuel as [|fuel IH]; intros pos esc; simpl; [discriminate|].
  destruct (get pos buf); simpl; [|discriminate].
  destruct esc; [apply IH|].
  destruct (Ascii.eqb a backslash); [apply IH|].
  destruct (Ascii.eqb a quote); simpl; [reflexivity|apply IH].
Qed.

Lemma stringLoop_esc t : (stringLoop t).1 = true -> escapeNext (stringLoop t).2 = false.
Proof.
  unfold stringLoop.
  pose proof (scanString_closed_esc (String.length (buffer t) - position t) (buffer t)
                (position t) (escapeNext t)) as H.
  destruct (scanString _ _ _ _) as [[closed pos] esc]. simpl in *. exact H.
Qed.

Lemma parseNumber_esc t startPos : escapeNext (parseNumber t startPos).2 = escapeNext t.
Proof.
  unfold parseNumber. destruct (get _ _) as [x|]; [destruct (Ascii.eqb x _)|];
    simpl; destruct (numberCompleted _); reflexivity.
Qed.

Lemma continueNumber_esc t last : escapeNext (continueNumber t last).2 = escapeNext t.
Proof. reflexivity. Qed.

Lemma parseLiteral_esc expected ty t startPos :
  escapeNext (parseLiteral expected ty t startPos).2 = escapeNext t.
Proof.
  unfold parseLiteral. destruct (matchLiteral _ _ _) as [[] pos]; simpl; [reflexivity|].
  destruct (_ =? _); [destruct (nextIsLetter _)|]; reflexivity.
Qed.

Lemma continueLiteral_esc expected ty t last :
  escapeNext (continueLiteral expected ty t last).2 = escapeNext t.
Proof.
  unfold continueLiteral. destruct (matchLiteral _ _ _) as [[] pos]; simpl; [reflexivity|].
  destruct (_ =? _); [destruct (nextIsLetter _)|]; reflexivity.
Qed.

Lemma escInv_clear t last :
  escInv t -> pending t = Some last -> isStringTy (TokenTy last) = false ->
  escapeNext t = false.
Proof.
  intros He Hp Hty. destruct (escapeNext t) eqn:E; [|reflexivity].
  destruct (He E) as (l & Hl & Hs). congruence.
Qed.

Lemma NextToken_escInv t : escInv t -> escInv (NextToken t).2.
Proof.
  intros He. unfold NextToken. destruct (pending t) as [last|] eqn:Ep.
  - pose proof (pending_Some t last Ep) as Hl. unfold continueToken. rewrite Hl.
    assert (isStringTy (TokenTy last) = false -> escapeNext t = false) as Hclear
      by (apply escInv_clear; assumption).
    destruct (TokenTy last) eqn:Ety; simpl in Hclear;
      lazymatch goal with
      | |- context [continueString t last] =>
          unfold continueString; pose proof (stringLoop_esc t) as Hesc;
          destruct (stringLoop t) as [closed t1]; simpl in *; intros H; simpl in H;
          destruct closed; [rewrite Hesc in H by reflexivity; discriminate|];
          eexists; unfold pending; simpl; split; [reflexivity|]; simpl;
          rewrite Ety; reflexivity
      | |- context [continueNumber t last] =>
          pose proof (continueNumber_esc t last) as Hk;
          destruct (continueNumber t last) as [token t1]; simpl in *;
          intros H; simpl in H; rewrite Hk, Hclear in H by reflexivity; discriminate
      | |- context [continueBool t last] =>
          unfold continueBool;
          match goal with |- context [continueLiteral ?e Bool t last] =>
            pose proof (continueLiteral_esc e Bool t last) as Hk;
            destruct (continueLiteral e Bool t last) as [token t1] end;
          simpl in *; intros H; simpl in H;
          rewrite Hk, Hclear in H by reflexivity; discriminate
      | |- context [continueNull t last] =>
          unfold continueNull;
          pose proof (continueLiteral_esc nullBytes Null t last) as Hk;
          destruct (continueLiteral nullBytes Null t last) as [token t1];
          simpl in *; intros H; simpl in H;
          rewrite Hk, Hclear in H by reflexivity; discriminate
      | |- _ => intros H; simpl in H; rewrite Hclear in H by reflexivity; discriminate
      end.
  - assert (escapeNext t = false) as Hf.
    { destruct (escapeNext t) eqn:E; [|reflexivity].
      destruct (He E) as (l & Hl & _). congruence. }
    cbv zeta. set (t0 := skipWhitespace t).
    assert (escapeNext t0 = false) as Hf0 by exact Hf.
    destruct (get (position t0) (buffer t0)) as [char|];
      [|intros H; simpl in H; congruence].
    unfold freshToken.
    repeat match goal with
    | |- escInv (if ?b then _ else _).2 => destruct b
    end; try (intros H; simpl in H; congruence).
    + unfold parseString.
      pose proof (stringLoop_esc (setPosition t0 (S (position t0)))) as Hesc.
      destruct (stringLoop _) as [closed t1]. simpl in *.
      destruct closed; intros H; simpl in H.
      * rewrite Hesc in H by reflexivity. discriminate.
      * eexists. unfold pending. simpl. split; [reflexivity|].
        simpl. destruct (expectingKey t1); reflexivity.
    + unfold parseBool. intros H. rewrite parseLiteral_esc in H. congruence.
    + unfold parseNull. intros H. rewrite parseLiteral_esc in H. congruence.
    + intros H. rewrite parseNumber_esc in H. congruence.
Qed.

Lemma Scanning_escInv t : Scanning t -> escInv t.
Proof.
  induction 1 as [|t content _ IH|t _ IH].
  - intros H. discriminate.
  - exact IH.
  - apply NextToken_escInv. exact IH.
Qed.

Lemma scanRun_here pred buf pos c :
  get pos buf = Some c -> pred c = false -> scanRun pred buf pos = pos.
Proof.
  intros Hg Hp. unfold scanRun. destruct (String.length buf - pos); simpl; [reflexivity|].
  rewrite Hg, Hp. reflexivity.
Qed.

Lemma substring_middle (pre m post : string) :
  substring (String.length pre) (String.length m) (pre +:+ m +:+ post) = m.
Proof.
  induction pre as [|c pre IH]; simpl.
  - change (EmptyString +:+ m +:+ post) with (m +:+ post).
    rewrite substring_append_l by lia. apply substring_full.
  - rewrite ?append_cons. simpl. exact IH.
Qed.

Lemma freshToken_quote t : freshToken t quote = parseString t (position t).
Proof. reflexivity. Qed.

Lemma quoted_buffer (pre s post : string) :
  pre +:+ quoted s +:+ post
  = (pre +:+ String.String quote EmptyString) +:+ s +:+ String.String quote post.
Proof.
  unfold quoted. rewrite append_cons, append_snoc_cons, append_snoc_cons. reflexivity.
Qed.

(** The token of a quoted plain text and the state it leaves. *)
Lemma NextToken_quoted t pre s post :
  lastToken t = None -> escapeNext t = false ->
  buffer t = pre +:+ quoted s +:+ post -> position t = String.length pre ->
  plainText s = true ->
  NextToken t
  = (mkToken (String.length pre) (String.length pre + String.length s + 2)
             (if expectingKey t then ObjectKey else String) (quoted s) true,
     mkTokenizer (buffer t) (String.length pre + String.length s + 2) None false
                 (expectingKey t)).
Proof.
  intros Hl Hesc Hbuf Hpos Hplain.
  assert (pending t = None) as Hp by (unfold pending; rewrite Hl; reflexivity).
  assert (get (position t) (buffer t) = Some quote) as Hq.
  { rewrite Hbuf, Hpos. unfold quoted. rewrite append_cons. apply get_middle. }
  unfold NextToken. rewrite Hp. cbv zeta.
  assert (skipWhitespace t = t) as Hskip.
  { unfold skipWhitespace. rewrite (scanRun_here _ _ _ _ Hq eq_refl).
    destruct t; reflexivity. }
  rewrite Hskip, Hq, freshToken_quote.
  unfold parseString, stringLoop. simpl. rewrite Hesc.
  assert (scanString (String.length (buffer t) - S (position t)) (buffer t)
            (S (position t)) false
          = (true, String.length pre + String.length s + 2, false)) as Hscan.
  { rewrite Hbuf, quoted_buffer, Hpos.
    replace (S (String.length pre))
      with (String.length (pre +:+ String.String quote EmptyString))
      by (rewrite length_append; simpl; lia).
    rewrite scanString_plain; [|exact Hplain|].
    - rewrite length_append. simpl. f_equal. f_equal. lia.
    - rewrite !length_append. simpl. lia. }
  rewrite Hscan. simpl.
  assert (buildString
            (setEscapeNext
               (setPosition (setPosition t (S (position t)))
                  (String.length pre + String.length s + 2)) false)
            (position t) (String.length pre + String.length s + 2) = quoted s) as Hc.
  { rewrite buildString_slice. simpl. rewrite Hbuf, Hpos.
    replace (String.length pre + String.length s + 2 - String.length pre)
      with (String.length (quoted s))
      by (unfold quoted; simpl; rewrite length_append; simpl; lia).
    apply substring_middle. }
  rewrite Hc, Hpos. unfold setEscapeNext, setPosition. simpl. rewrite Hl. reflexivity.
Qed.

(** X8. A quoted text with no quote and no backslash in it, met between two
    tokens, is read as one complete token whose content is the quoted text;
    [stripQuotes], and so the value [parseTokenValue] gives for a String
    token, is the text itself.  The token is an ObjectKey or a String as
    the tokenizer expects a key or not. *)
Theorem X8_quoted_plain_text_round_trip t pre s post token t' :
  Scanning t -> lastToken t = None ->
  buffer t = pre +:+ quoted s +:+ post -> position t = String.length pre ->
  plainText s = true ->
  NextToken t = (token, t') ->
  TokenTy token = (if expectingKey t then ObjectKey else String)
  /\ Completed token = true
  /\ Content token = quoted s
  /\ stripQuotes (Content token) = s
  /\ (TokenTy token = String -> parseTokenValue token = GoString s)
  /\ TokenStart token = String.length pre
  /\ position t' = String.length pre + String.length s + 2
  /\ lastToken t' = None /\ escapeNext t' = false /\ expectingKey t' = expectingKey t.
Proof.
  intros Hscan Hl Hbuf Hpos Hplain Hnext.
  assert (escapeNext t = false) as Hesc.
  { destruct (escapeNext t) eqn:E; [|reflexivity].
    destruct (Scanning_escInv t Hscan E) as (l & Hl' & _).
    unfold pending in Hl'. rewrite Hl in Hl'. discriminate. }
  rewrite (NextToken_quoted t pre s post Hl Hesc Hbuf Hpos Hplain) in Hnext.
  injection Hnext as <- <-. simpl.
  pose proof (stripQuotes_quoted s) as Hstrip. fold (quoted s) in Hstrip.
  rewrite Hstrip. repeat split; auto.
  intros Hty. unfold parseTokenValue. simpl.
  destruct (expectingKey t); [discriminate|]. rewrite Hstrip. reflexivity.
Qed.

Lemma substring_snoc_at s n k c :
  get (n + k) s = Some c ->
  substring n (S k) s = substring n k s +:+ String.String c EmptyString.
Proof.
  revert n; induction s as [|a s IH]; intros [|n] H; simpl in H; try discriminate.
  - apply substring_snoc. exact H.
  - simpl. apply IH. exact H.
Qed.

(** X9. A complete String or ObjectKey token is a quote, a body and a
    quote, the body being the bytes of the buffer between the two: nothing is
    decoded.  [stripQuotes] gives back the body, and the value of a String
    token is the body as it was written, its backslashes included. *)
Theorem X9_string_value_is_the_raw_body t token t' :
  Scanning t -> NextToken t = (token, t') ->
  isStringTy (TokenTy token) = true -> Completed token = true ->
  let body := substring (S (TokenStart token)) (TokenEnd token - TokenStart token - 2)
                        (buffer t) in
  TokenStart token + 2 <= TokenEnd token
  /\ Content token = quoted body
  /\ stripQuotes (Content token) = body
  /\ (TokenTy token = String -> parseTokenValue token = GoString body).
Proof.
  intros Hscan Hnext Hty Hc body.
  pose proof (Scanning_strong t Hscan) as Hstrong.
  pose proof Hstrong as [(Hinv & Hb & Hs) _].
  destruct (NextToken_string t token t' Hinv Hb Hs Hnext Hty)
    as (Hq & _ & Hcont & _ & Hclosed).
  destruct (Hclosed Hc) as [Hlen Hlast].
  destruct (NextToken_strong t Hstrong) as [_ Hok]. rewrite Hnext in Hok. simpl in Hok.
  destruct Hok as [(_ & Hend & _) _]; [destruct (TokenTy token); discriminate|].
  simpl in Hend. rewrite <- Hend in *. clear Hend.
  assert (Content token = quoted body) as Hq'.
  { rewrite Hcont. unfold quoted, body.
    remember (TokenEnd token - TokenStart token - 2) as k eqn:Ek.
    replace (TokenEnd token - TokenStart token) with (S (S k)) by lia.
    rewrite (substring_cons _ _ _ _ Hq). f_equal.
    apply substring_snoc_at.
    replace (S (TokenStart token) + k) with (TokenEnd token - 1) by lia.
    exact Hlast. }
  pose proof (stripQuotes_quoted body) as Hstrip. fold (quoted body) in Hstrip.
  split; [lia|]. split; [exact Hq'|]. split; [rewrite Hq'; exact Hstrip|].
  intros Es. unfold parseTokenValue. rewrite Es, Hq', Hstrip. reflexivity.
Qed.

(** ** The bytes of a number *)

(** The bytes from [start] up to [pos] are a sign or a digit, then number
    bytes only. *)
Definition numberRun (buf : string) (start pos : nat) : Prop :=
  (exists c, get start buf = Some c /\ (c = "-"%char \/ isDigit c = true))
  /\ forall i, start < i < pos -> exists c, get i buf = Some c /\ isNumberChar c = true.

Definition numInv (t : StreamJSONTokenizer) : Prop :=
  forall last, lastToken t = Some last -> TokenTy last = Number ->
    numberRun (buffer t) (TokenStart last) (position t).

Lemma numberRun_scan buf start from :
  (forall i, start < i < from -> exists c, get i buf = Some c /\ isNumberChar c = true) ->
  forall i, start < i < scanRun isNumberChar buf from ->
    exists c, get i buf = Some c /\ isNumberChar c = true.
Proof.
  intros H i Hi. destruct (Nat.lt_ge_cases i from) as [Hlt|Hge].
  - apply H. lia.
  - apply (scanWhile_run isNumberChar (String.length buf - from) buf from). 
    unfold scanRun in Hi. lia.
Qed.

Lemma NextToken_numberRun t token t' :
  tokInv t -> numInv t -> NextToken t = (token, t') -> TokenTy token = Number ->
  numberRun (buffer t) (TokenStart token) (position t').
Proof.
  intros Hinv Hn H Hty. unfold NextToken in H.
  destruct (pending t) as [last|] eqn:Ep.
  - apply pending_Some in Ep. unfold continueToken in H. rewrite Ep in H.
    assert (resumable (TokenTy last) = true) as Hr
      by (unfold tokInv in Hinv; rewrite Ep in Hinv; tauto).
    destruct (TokenTy last) eqn:El; simpl in Hr; try discriminate.
    + destruct (Hn last Ep El) as [Hfirst Hrest].
      unfold continueNumber in H. injection H as <- <-. simpl.
      split; [exact Hfirst|]. apply numberRun_scan. exact Hrest.
    + exfalso. destruct (continueBool t last) as [tk t1] eqn:Ec.
      injection H as <- _.
      assert (tk = (continueBool t last).1) as -> by (rewrite Ec; reflexivity).
      unfold continueBool in Hty.
      match type of Hty with
      | TokenTy (continueLiteral ?e ?ty ?t ?s).1 = _ =>
          destruct (continueLiteral_ty e ty t s) as [E|E]; rewrite E in Hty; discriminate
      end.
    + exfalso. pose proof (continueString_ty t last) as E.
      destruct (continueString t last) as [tk t1]. injection H as <- _.
      simpl in E. congruence.
    + exfalso. pose proof (continueString_ty t last) as E.
      destruct (continueString t last) as [tk t1]. injection H as <- _.
      simpl in E. congruence.
    + exfalso. destruct (continueNull t last) as [tk t1] eqn:Ec.
      injection H as <- _.
      assert (tk = (continueNull t last).1) as -> by (rewrite Ec; reflexivity).
      unfold continueNull in Hty.
      destruct (continueLiteral_ty nullBytes Null t last) as [E|E];
        rewrite E in Hty; discriminate.
  - cbv zeta in H. pose proof (skipWhitespace_facts t) as (Hbuf & _).
    remember (skipWhitespace t) as t0 eqn:Et0.
    destruct (get (position t0) (buffer t0)) as [char|] eqn:Eg;
      [|injection H as <- _; discriminate].
    unfold freshToken in H.
    repeat match type of H with
    | (if ?b then _ else _) = _ => destruct b eqn:?
    end;
    try (injection H as <- _; simpl in Hty; discriminate).
    + exfalso. destruct (parseString_ty t0 (position t0)) as [E|E];
        rewrite H in E; simpl in E; congruence.
    + exfalso. unfold parseBool in H.
      match type of H with
      | parseLiteral ?e ?ty ?t ?s = _ =>
          destruct (parseLiteral_ty e ty t s) as [E|E]; rewrite H in E; simpl in E;
            congruence
      end.
    + exfalso. unfold parseNull in H.
      destruct (parseLiteral_ty nullBytes Null t0 (position t0)) as [E|E];
        rewrite H in E; simpl in E; congruence.
    + rename Heqb8 into Hsign. unfold parseNumber in H. rewrite Eg in H.
      rewrite <- Hbuf.
      destruct (Ascii.eqb char "-"%char) eqn:Eminus.
      * apply Ascii.eqb_eq in Eminus. subst char. simpl in H.
        destruct (numberCompleted _); injection H as <- <-; simpl;
          (split; [eauto|]); apply numberRun_scan; intros i Hi; lia.
      * simpl in Hsign.
        destruct (numberCompleted _); injection H as <- <-; simpl;
          (split; [eauto|]); apply numberRun_scan; intros i Hi; lia.
Qed.

Lemma NextToken_numInv t : tokInv t -> numInv t -> numInv (NextToken t).2.
Proof.
  intros Hinv Hn.
  pose proof (NextToken_facts t Hinv) as (Hbuf & _ & _ & Hdone & _ & Hinc).
  pose proof (NextToken_numberRun t) as Hrun.
  destruct (NextToken t) as [token t'] eqn:E. simpl in *.
  intros last Hl Hty. destruct (Completed token) eqn:Ec.
  - rewrite Hdone in Hl by reflexivity. discriminate.
  - destruct (Hinc eq_refl) as [Hl' _]. rewrite Hl' in Hl. injection Hl as <-.
    rewrite Hbuf. apply Hrun; auto.
Qed.

Lemma Scanning_numInv t : Scanning t -> numInv t.
Proof.
  induction 1 as [|t content _ IH|t Hs IH].
  - intros last H. discriminate.
  - intros last Hl Hty. simpl in *. destruct (IH last Hl Hty) as [(c & Hc & Hd) Hrest].
    split.
    + exists c. split; [apply get_append_l; exact Hc|exact Hd].
    + intros i Hi. destruct (Hrest i Hi) as (x & Hx & Hn). exists x.
      split; [apply get_append_l; exact Hx|exact Hn].
  - apply NextToken_numInv; [|exact IH].
    apply (Scanning_strong t Hs).
Qed.

(** X10. A Number token is a sign or a digit followed by number bytes
    (digits, [.], [e], [E], [+], [-]) only, also when it arrived in several
    chunks.  Nothing more is checked: the bytes need not form a number. *)
Theorem X10_number_token_bytes t token t' :
  Scanning t -> NextToken t = (token, t') -> TokenTy token = Number ->
  (exists c, get 0 (Content token) = Some c /\ (c = "-"%char \/ isDigit c = true))
  /\ forall i c, 0 < i -> get i (Content token) = Some c -> isNumberChar c = true.
Proof.
  intros Hscan Hnext Hty.
  pose proof (Scanning_strong t Hscan) as Hstrong.
  pose proof Hstrong as [(Hinv & Hb & _) _].
  destruct (NextToken_numberRun t token t' Hinv (Scanning_numInv t Hscan) Hnext Hty)
    as [(c & Hc & Hd) Hrest].
  destruct (NextToken_strong t Hstrong) as [[_ Hb'] Hok]. rewrite Hnext in Hok, Hb'.
  simpl in Hok, Hb'.
  destruct Hok as [(Hlt & Hend & Hcont & _) _]; [rewrite Hty; discriminate|].
  simpl in Hlt, Hend, Hcont.
  rewrite Hcont. split.
  - exists c. rewrite substring_correct1 by lia. split; [exact Hc|exact Hd].
  - intros i x Hi Hg.
    assert (i < position t' - TokenStart token) as Hin.
    { destruct (Nat.lt_ge_cases i (position t' - TokenStart token)) as [H|H];
        [exact H|].
      rewrite substring_correct2 in Hg by lia. discriminate. }
    rewrite substring_correct1 in Hg by exact Hin.
    destruct (Hrest (i + TokenStart token)) as (y & Hy & Hn); [lia|].
    congruence.
Qed.

(** ** What the builder never undoes

    A node is never removed, retyped or given another value or parent; a
    completed node stays completed; an array grows at its end only; a key of
    an object stays, though the node under it may be replaced. *)

Definition nodeLe (n n' : Node) : Prop :=
  NodeTy n' = NodeTy n /\ Value n' = Value n /\ Parent n' = Parent n
  /\ (NodeCompleted n = true -> NodeCompleted n' = true)
  /\ (exists more, Array n' = Array n ++ more)
  /\ (forall key, is_Some (Children n !! key) -> is_Some (Children n' !! key)).

Definition heapLe (h h' : list Node) : Prop :=
  forall q n, h !! q = Some n -> exists n', h' !! q = Some n' /\ nodeLe n n'.

Lemma nodeLe_refl n : nodeLe n n.
Proof.
  unfold nodeLe. repeat split; auto. exists []. rewrite app_nil_r. reflexivity.
Qed.

Lemma nodeLe_trans a b c : nodeLe a b -> nodeLe b c -> nodeLe a c.
Proof.
  intros (T1 & V1 & P1 & C1 & [m1 A1] & K1) (T2 & V2 & P2 & C2 & [m2 A2] & K2).
  unfold nodeLe. repeat split; try congruence; auto.
  exists (m1 ++ m2). rewrite A2, A1, app_assoc. reflexivity.
Qed.

Lemma nodeLe_setChild key q n : nodeLe n (setChild key q n).
Proof.
  unfold nodeLe. simpl. repeat split; auto.
  - exists []. rewrite app_nil_r. reflexivity.
  - intros k H. destruct (decide (key = k)) as [->|Hne].
    + rewrite lookup_insert_eq. eauto.
    + rewrite lookup_insert_ne by exact Hne. exact H.
Qed.

Lemma nodeLe_appendElem q n : nodeLe n (appendElem q n).
Proof. unfold nodeLe. simpl. repeat split; eauto. Qed.

Lemma nodeLe_markCompleted n : nodeLe n (markCompleted n).
Proof.
  unfold nodeLe. simpl. repeat split; auto. exists []. rewrite app_nil_r. reflexivity.
Qed.

Lemma heapLe_refl h : heapLe h h.
Proof. intros q n H. exists n. split; [exact H|apply nodeLe_refl]. Qed.

Lemma heapLe_trans a b c : heapLe a b -> heapLe b c -> heapLe a c.
Proof.
  intros H1 H2 q n H. destruct (H1 q n H) as (n1 & Hn1 & L1).
  destruct (H2 q n1 Hn1) as (n2 & Hn2 & L2). exists n2.
  split; [exact Hn2|eapply nodeLe_trans; eauto].
Qed.

Lemma heapLe_alloc h n : heapLe h (h ++ [n]).
Proof.
  intros q m H. exists m. split; [|apply nodeLe_refl].
  apply lookup_app_l_Some. exact H.
Qed.

Lemma heapLe_alter h g i : (forall n, nodeLe n (g n)) -> heapLe h (alter g i h).
Proof.
  intros Hg q n H. rewrite list_lookup_alter.
  destruct (decide (i = q)) as [->|Hne].
  - rewrite H. simpl. eauto.
  - exists n. split; [exact H|apply nodeLe_refl].
Qed.

Lemma attach_heapLe h f q : heapLe h (attach h f q).1.1.
Proof.
  pose proof (attach_cases h f q) as [_ Hc]. cbv zeta in Hc.
  destruct Hc as [->|(g & -> & [->| ->])]; [apply heapLe_refl| |];
    apply heapLe_alter; auto using nodeLe_setChild, nodeLe_appendElem.
Qed.

Lemma handleContainerStart_heapLe ty p f rest :
  heapLe (heap p) (heap (handleContainerStart ty p f rest)).
Proof.
  unfold handleContainerStart, alloc.
  pose proof (attach_heapLe (heap p ++ [mkNode ty GoNil ∅ [] false (Some (FrameNode f))])
                f (length (heap p))) as H.
  destruct (attach _ f (length (heap p))) as [[h1 inObject] inArray]. simpl in *.
  eapply heapLe_trans; [apply heapLe_alloc|exact H].
Qed.

Lemma handleValue_heapLe p token f rest :
  heapLe (heap p) (heap (handleValue p token f rest)).
Proof.
  unfold handleValue, alloc.
  match goal with |- context [attach ?h f ?q] =>
    pose proof (attach_heapLe h f q) as H; destruct (attach h f q) as [[h1 inObject] inArray]
  end. simpl in *.
  eapply heapLe_trans; [apply heapLe_alloc|exact H].
Qed.

Lemma handleEnd_heapLe p : heapLe (heap p) (heap (handleEnd p)).
Proof.
  unfold handleEnd. destruct (stack p) as [|f rest]; [apply heapLe_refl|]. simpl.
  apply heapLe_alter. apply nodeLe_markCompleted.
Qed.

Lemma processCompleteToken_heapLe p token :
  heapLe (heap p) (heap (processCompleteToken p token)).
Proof.
  unfold processCompleteToken. destruct (stack p) as [|f rest] eqn:Es; [apply heapLe_refl|].
  destruct (TokenTy token); try apply heapLe_refl;
    try apply handleContainerStart_heapLe; try apply handleEnd_heapLe;
    try apply handleValue_heapLe.
  - unfold handleObjectKey. destruct (isObjectAt _ _); apply heapLe_refl.
  - unfold handleColon. destruct (isObjectAt _ _); apply heapLe_refl.
  - unfold handleComma. destruct (isObjectAt _ _); [apply heapLe_refl|].
    destruct (isArrayAt _ _); apply heapLe_refl.
Qed.

Lemma processIncompleteToken_heapLe p token :
  heapLe (heap p) (heap (processIncompleteToken p token)).
Proof.
  unfold processIncompleteToken.
  destruct (stack p) as [|f rest] eqn:Es; [apply heapLe_refl|].
  destruct (TokenTy token); try apply heapLe_refl.
  destruct (_ && _); [|apply heapLe_refl].
  destruct (Content token) as [|c partialValue]; [apply heapLe_refl|].
  destruct (Ascii.eqb c quote); [|apply heapLe_refl].
  unfold alloc. simpl.
  eapply heapLe_trans; [apply heapLe_alloc|].
  apply heapLe_alter. intros n. apply nodeLe_setChild.
Qed.

Lemma processToken_heapLe p token : heapLe (heap p) (heap (processToken p token).2).
Proof.
  unfold processToken.
  destruct (TokenTy token); simpl; try apply heapLe_refl;
    (destruct (started p); simpl;
     [destruct (Completed token); simpl;
      [apply processCompleteToken_heapLe|apply processIncompleteToken_heapLe]
     |try apply heapLe_refl; unfold startRoot, alloc; simpl; apply heapLe_alloc]).
Qed.

Lemma processStep_heapLe p : heapLe (heap p) (heap (processStep p).2).
Proof.
  unfold processStep. destruct (NextToken (tokenizer p)) as [token t].
  apply (processToken_heapLe (setTokenizer p t) token).
Qed.

Lemma processTokens_heapLe n p p' :
  processTokens n p = Some p' -> heapLe (heap p) (heap p').
Proof.
  revert p; induction n as [|n IH]; intros p H; [discriminate|].
  simpl in H. pose proof (processStep_heapLe p) as H1.
  destruct (processStep p) as [[] p1]; simpl in *.
  - eapply heapLe_trans; [exact H1|]. apply IH. exact H.
  - injection H as <-. exact H1.
Qed.

Lemma AppendAll_heapLe fuel chunks : forall p p',
  AppendAll fuel p chunks = Some p' -> heapLe (heap p) (heap p').
Proof.
  induction chunks as [|c cs IH]; intros p p' H; simpl in H.
  - injection H as <-. apply heapLe_refl.
  - destruct (Append fuel p c) as [p1|] eqn:E; [|discriminate].
    eapply heapLe_trans; [|apply IH; exact H].
    unfold Append in E. apply processTokens_heapLe in E. exact E.
Qed.

(** X11. Feeding more input never takes anything back from the tree: every
    node stays where it is, with its type, its value and its parent; a node
    marked completed stays so; an array keeps its elements and grows at the
    end only; an object keeps its keys. *)
Theorem X11_the_tree_only_grows fuel p chunks p' q n :
  AppendAll fuel p chunks = Some p' -> heap p !! q = Some n ->
  exists n', heap p' !! q = Some n'
    /\ NodeTy n' = NodeTy n /\ Value n' = Value n /\ Parent n' = Parent n
    /\ (NodeCompleted n = true -> NodeCompleted n' = true)
    /\ (exists more, Array n' = Array n ++ more)
    /\ (forall key, is_Some (Children n !! key) -> is_Some (Children n' !! key)).
Proof.
  intros H Hq. destruct (AppendAll_heapLe fuel chunks p p' H q n Hq) as (n' & Hn' & Hle).
  exists n'. split; [exact Hn'|exact Hle].
Qed.

(** ** The stack and the open containers

    The stack holds the containers that are open, the innermost first: each
    one is the parent of the one above it and the lowest is the root.  A
    container is marked completed when its frame is popped, and not before. *)

Definition isContainer (n : Node) : bool := negb (isValueNode n).

Definition openNodes (frames : list StackFrame) : list ptr := map FrameNode frames.

Definition treeOk (h : list Node) (r : option ptr) (open : list ptr) (st : bool) : Prop :=
  match r with
  | None => st = false /\ open = [] /\ h = []
  | Some q =>
      st = true /\ exists n, h !! q = Some n /\ isContainer n = true /\ Parent n = None
  end
  /\ (forall i q, open !! i = Some q ->
        exists n, h !! q = Some n /\ isContainer n = true
                  /\ Parent n = open !! S i /\ (open !! S i = None -> r = Some q))
  /\ NoDup open
  /\ (forall q n, h !! q = Some n -> isContainer n = true ->
        (NodeCompleted n = false <-> q ∈ open)).

Definition treeInv (p : StreamJSONParser) : Prop :=
  treeOk (heap p) (root p) (openNodes (stack p)) (started p).

(** What [treeOk] reads of a node. *)
Definition shape (n : Node) : NodeType * option ptr * bool :=
  (NodeTy n, Parent n, NodeCompleted n).

Definition sameShape (h h' : list Node) : Prop :=
  length h' = length h
  /\ forall q n, h !! q = Some n -> exists n', h' !! q = Some n' /\ shape n' = shape n.

Lemma sameShape_back h h' q n' :
  sameShape h h' -> h' !! q = Some n' -> exists n, h !! q = Some n /\ shape n' = shape n.
Proof.
  intros [Hlen Hs] H. pose proof (lookup_lt_Some _ _ _ H) as Hlt. rewrite Hlen in Hlt.
  destruct (lookup_lt_is_Some_2 h q Hlt) as [n Hn]. exists n. split; [exact Hn|].
  destruct (Hs q n Hn) as (n'' & Hn'' & E). congruence.
Qed.

Lemma shape_inv n n' :
  shape n' = shape n ->
  isContainer n' = isContainer n /\ Parent n' = Parent n
  /\ NodeCompleted n' = NodeCompleted n.
Proof.
  unfold shape, isContainer, isValueNode. intros [= -> -> ->]. auto.
Qed.

Lemma sameShape_alter h g i : (forall n, shape (g n) = shape n) -> sameShape h (alter g i h).
Proof.
  intros Hg. split; [apply length_alter|]. intros q n H. rewrite list_lookup_alter.
  destruct (decide (i = q)) as [->|Hne]; [rewrite H; simpl|]; eauto.
Qed.

Lemma sameShape_refl h : sameShape h h.
Proof. split; [reflexivity|]. eauto. Qed.

Lemma attach_sameShape h f q : sameShape h (attach h f q).1.1.
Proof.
  pose proof (attach_cases h f q) as [_ Hc]. cbv zeta in Hc.
  destruct Hc as [->|(g & -> & [->| ->])]; [apply sameShape_refl| |];
    apply sameShape_alter; reflexivity.
Qed.

Lemma treeOk_shape h h' r open st :
  sameShape h h' -> treeOk h r open st -> treeOk h' r open st.
Proof.
  intros Hs (Hr & Hc & Hd & Ho). pose proof Hs as [Hlen Hfw].
  split; [|split; [|split]].
  - destruct r as [q|].
    + destruct Hr as (Hst & n & Hn & Hk & Hp). split; [exact Hst|].
      destruct (Hfw q n Hn) as (n' & Hn' & E). apply shape_inv in E as (E1 & E2 & _).
      exists n'. repeat split; congruence.
    + destruct Hr as (Hst & Hop & Hh). repeat split; auto.
      subst h. destruct h'; [reflexivity|discriminate].
  - intros i q Hi. destruct (Hc i q Hi) as (n & Hn & Hk & Hp & Hb).
    destruct (Hfw q n Hn) as (n' & Hn' & E). apply shape_inv in E as (E1 & E2 & _).
    exists n'. repeat split; try congruence. exact Hb.
  - exact Hd.
  - intros q n' Hn' Hk.
    destruct (sameShape_back h h' q n' Hs Hn') as (n & Hn & E).
    apply shape_inv in E as (E1 & _ & E3). rewrite E3. apply (Ho q n Hn). congruence.
Qed.

Lemma treeOk_lt h r open st q : treeOk h r open st -> q ∈ open -> q < length h.
Proof.
  intros (_ & Hc & _) Hq. apply list_elem_of_lookup_1 in Hq as [i Hi].
  destruct (Hc i q Hi) as (n & Hn & _). eapply lookup_lt_Some. exact Hn.
Qed.

(** A Value node is allocated. *)
Lemma treeOk_value h v r open :
  isContainer v = false -> treeOk h r open true -> treeOk (h ++ [v]) r open true.
Proof.
  intros Hv (Hr & Hc & Hd & Ho). split; [|split; [|split]].
  - destruct r as [q|]; [|destruct Hr; discriminate].
    destruct Hr as (Hst & n & Hn & Hk & Hp). split; [exact Hst|].
    exists n. split; [apply lookup_app_l_Some; exact Hn|auto].
  - intros i q Hi. destruct (Hc i q Hi) as (n & Hn & Hk & Hp & Hb).
    exists n. split; [apply lookup_app_l_Some; exact Hn|auto].
  - exact Hd.
  - intros q n Hn Hk. apply lookup_snoc_Some in Hn as [[_ Hn]|[_ <-]].
    + apply (Ho q n Hn Hk).
    + congruence.
Qed.

(** A container is opened under the innermost open one. *)
Lemma treeOk_push h new r top rest :
  treeOk h r (top :: rest) true ->
  isContainer new = true -> NodeCompleted new = false -> Parent new = Some top ->
  treeOk (h ++ [new]) r (length h :: top :: rest) true.
Proof.
  intros Hok Hk Hn Hp. pose proof Hok as (Hr & Hc & Hd & Ho).
  assert (forall q, q ∈ top :: rest -> q <> length h) as Hfresh.
  { intros q Hq. pose proof (treeOk_lt _ _ _ _ q Hok Hq). lia. }
  split; [|split; [|split]].
  - destruct r as [q|]; [|destruct Hr; discriminate].
    destruct Hr as (Hst & n & Hq & Hkq & Hpq). split; [exact Hst|].
    exists n. split; [apply lookup_app_l_Some; exact Hq|auto].
  - intros [|i] q Hi; simpl in Hi.
    + injection Hi as <-. exists new. split; [apply list_lookup_middle; reflexivity|].
      simpl. repeat split; auto. discriminate.
    + destruct (Hc i q Hi) as (n & Hq & Hkq & Hpq & Hb).
      exists n. split; [apply lookup_app_l_Some; exact Hq|auto].
  - apply NoDup_cons. split; [|exact Hd].
    intros Hin. apply (Hfresh _ Hin). reflexivity.
  - intros q n Hq Hkq. rewrite elem_of_cons.
    apply lookup_snoc_Some in Hq as [[Hlt Hq]|[-> <-]].
    + rewrite (Ho q n Hq Hkq). split; [auto|]. intros [->|H]; [lia|exact H].
    + split; auto.
Qed.

(** The innermost open container is closed. *)
Lemma treeOk_pop h r top rest st :
  treeOk h r (top :: rest) st -> treeOk (alter markCompleted top h) r rest st.
Proof.
  intros (Hr & Hc & Hd & Ho). apply NoDup_cons in Hd as [Hnotin Hd].
  assert (forall q n, h !! q = Some n ->
            exists n', alter markCompleted top h !! q = Some n'
                       /\ isContainer n' = isContainer n /\ Parent n' = Parent n) as Hfw.
  { intros q n Hq. rewrite list_lookup_alter.
    destruct (decide (top = q)) as [->|Hne]; [rewrite Hq; simpl|]; eauto. }
  split; [|split; [|split]].
  - destruct r as [q|].
    + destruct Hr as (Hst & n & Hq & Hkq & Hpq). split; [exact Hst|].
      destruct (Hfw q n Hq) as (n' & Hn' & E1 & E2). exists n'.
      repeat split; congruence.
    + destruct Hr as (_ & Hop & _). discriminate.
  - intros i q Hi. destruct (Hc (S i) q Hi) as (n & Hq & Hkq & Hpq & Hb).
    change ((top :: rest) !! S (S i)) with (rest !! S i) in Hpq, Hb.
    destruct (Hfw q n Hq) as (n' & Hn' & E1 & E2). exists n'.
    repeat split; try congruence. exact Hb.
  - exact Hd.
  - intros q n' Hq Hk. rewrite list_lookup_alter in Hq.
    destruct (decide (top = q)) as [->|Hne].
    + destruct (h !! q) as [n|]; [|discriminate]. simpl in Hq. injection Hq as <-.
      simpl. split; [discriminate|]. intros Hin. contradiction.
    + rewrite (Ho q n' Hq Hk). rewrite elem_of_cons. split; [|auto].
      intros [->|H]; [contradiction|exact H].
Qed.

Lemma treeOk_start ty :
  ty <> ValueNode -> treeOk [NewNode ty] (Some 0) [0] true.
Proof.
  intros Hty. assert (isContainer (NewNode ty) = true) as Hk
    by (destruct ty; [reflexivity|reflexivity|contradiction]).
  split; [|split; [|split]].
  - split; [reflexivity|]. exists (NewNode ty). auto.
  - intros [|i] q Hi; simpl in Hi; [|discriminate]. injection Hi as <-.
    exists (NewNode ty). repeat split; auto.
  - apply NoDup_cons. split; [apply not_elem_of_nil|apply NoDup_nil_2].
  - intros [|q] n Hn _; simpl in Hn; [|discriminate]. injection Hn as <-.
    split; [intros _; apply elem_of_cons; left; reflexivity|reflexivity].
Qed.

Lemma openNodes_firstFrame ty q : FrameNode (firstFrame ty q) = q.
Proof. destruct ty; reflexivity. Qed.

Lemma handleContainerStart_treeInv ty p f rest :
  ty <> ValueNode -> started p = true -> stack p = f :: rest ->
  treeInv p -> treeInv (handleContainerStart ty p f rest).
Proof.
  intros Hty Hst Hs Hinv. unfold treeInv in *. rewrite Hs, Hst in Hinv. simpl in Hinv.
  unfold handleContainerStart, alloc.
  set (new := mkNode ty GoNil ∅ [] false (Some (FrameNode f))).
  pose proof (attach_sameShape (heap p ++ [new]) f (length (heap p))) as Hsame.
  destruct (attach _ f (length (heap p))) as [[h1 inObject] inArray]. simpl in *.
  rewrite openNodes_firstFrame, Hst.
  replace (FrameNode (if inObject then clearKey f else f)) with (FrameNode f)
    by (destruct inObject; reflexivity).
  eapply treeOk_shape; [exact Hsame|].
  apply treeOk_push; auto. destruct ty; [reflexivity|reflexivity|contradiction].
Qed.

Lemma handleEnd_treeInv p : treeInv p -> treeInv (handleEnd p).
Proof.
  unfold treeInv, handleEnd. destruct (stack p) as [|f rest] eqn:Es;
    [rewrite Es; auto|].
  simpl. intros Hinv. apply treeOk_pop in Hinv.
  destruct rest as [|parentFrame below]; [exact Hinv|]. simpl.
  replace (FrameNode (if isObjectAt _ (FrameNode parentFrame) then _ else _))
    with (FrameNode parentFrame); [exact Hinv|].
  destruct (isObjectAt _ _); [reflexivity|]. destruct (isArrayAt _ _); reflexivity.
Qed.

Lemma handleValue_treeInv p token f rest :
  started p = true -> stack p = f :: rest ->
  treeInv p -> treeInv (handleValue p token f rest).
Proof.
  intros Hst Hs Hinv. unfold treeInv in *. rewrite Hs, Hst in Hinv. simpl in Hinv.
  unfold handleValue, alloc.
  set (v := mkNode ValueNode (parseTokenValue token) ∅ [] true (Some (FrameNode f))).
  pose proof (attach_sameShape (heap p ++ [v]) f (length (heap p))) as Hsame.
  destruct (attach _ f (length (heap p))) as [[h1 inObject] inArray]. simpl in *.
  rewrite Hst.
  match goal with |- treeOk _ _ (FrameNode ?x :: _) _ =>
    replace (FrameNode x) with (FrameNode f) by (destruct inObject, inArray; reflexivity)
  end.
  eapply treeOk_shape; [exact Hsame|]. apply treeOk_value; [reflexivity|exact Hinv].
Qed.

Lemma withTop_treeInv p f g rest :
  stack p = f :: rest -> FrameNode g = FrameNode f -> treeInv p -> treeInv (withTop p g rest).
Proof.
  intros Hs Hg. unfold treeInv, withTop. rewrite Hs. simpl. rewrite Hg. auto.
Qed.

Lemma processCompleteToken_treeInv p token :
  started p = true -> treeInv p -> treeInv (processCompleteToken p token).
Proof.
  intros Hst Hinv. unfold processCompleteToken.
  destruct (stack p) as [|f rest] eqn:Es; [exact Hinv|].
  destruct (TokenTy token); try exact Hinv;
    try (apply handleContainerStart_treeInv; [discriminate|assumption..]);
    try (apply handleEnd_treeInv; assumption);
    try (apply handleValue_treeInv; assumption).
  - unfold handleObjectKey. destruct (isObjectAt _ _); [|exact Hinv].
    eapply withTop_treeInv; eauto.
  - unfold handleColon. destruct (isObjectAt _ _); [|exact Hinv].
    eapply withTop_treeInv; eauto.
  - unfold handleComma. destruct (isObjectAt _ _); [eapply withTop_treeInv; eauto|].
    destruct (isArrayAt _ _); [eapply withTop_treeInv; eauto|exact Hinv].
Qed.

Lemma processIncompleteToken_treeInv p token :
  started p = true -> treeInv p -> treeInv (processIncompleteToken p token).
Proof.
  intros Hst Hinv. unfold processIncompleteToken.
  destruct (stack p) as [|f rest] eqn:Es; [exact Hinv|].
  destruct (TokenTy token); try exact Hinv.
  destruct (_ && _); [|exact Hinv].
  destruct (Content token) as [|c partialValue]; [exact Hinv|].
  destruct (Ascii.eqb c quote); [|exact Hinv].
  unfold treeInv in *. unfold alloc. simpl. rewrite Hst in *.
  eapply treeOk_shape; [apply sameShape_alter; reflexivity|].
  apply treeOk_value; [reflexivity|]. rewrite Es in Hinv. exact Hinv.
Qed.

Lemma startRoot_treeInv ty p :
  ty <> ValueNode -> started p = false -> treeInv p -> treeInv (startRoot ty p).
Proof.
  intros Hty Hst Hinv. unfold treeInv in *. destruct Hinv as (Hr & _).
  destruct (root p) as [q|]; [destruct Hr; congruence|].
  destruct Hr as (_ & Hop & Hh). unfold startRoot, alloc. rewrite Hh.
  destruct (stack p); [|discriminate]. simpl. rewrite openNodes_firstFrame.
  apply treeOk_start. exact Hty.
Qed.

Lemma processToken_treeInv p token : treeInv p -> treeInv (processToken p token).2.
Proof.
  intros Hinv. unfold processToken.
  destruct (TokenTy token); simpl; try exact Hinv;
    (destruct (started p) eqn:Hst; simpl;
     [destruct (Completed token); simpl;
      [apply processCompleteToken_treeInv|apply processIncompleteToken_treeInv]; assumption
     |first [exact Hinv|apply startRoot_treeInv; [discriminate|assumption..]]]).
Qed.

Lemma processStep_treeInv p : treeInv p -> treeInv (processStep p).2.
Proof.
  intros Hinv. unfold processStep. destruct (NextToken (tokenizer p)) as [token t].
  apply (processToken_treeInv (setTokenizer p t)). exact Hinv.
Qed.

Lemma Running_treeInv p : Running p -> treeInv p.
Proof.
  induction 1 as [|p content _ IH|p _ IH].
  - unfold treeInv, treeOk. simpl. split; [auto|]. split; [intros i q H; discriminate|].
    split; [apply NoDup_nil_2|]. intros q n H. discriminate.
  - exact IH.
  - apply processStep_treeInv. exact IH.
Qed.

Lemma isContainer_true n : isContainer n = true <-> NodeTy n <> ValueNode.
Proof.
  unfold isContainer, isValueNode. destruct (NodeTy n); simpl; split; intros H;
    try reflexivity; try discriminate. contradiction.
Qed.

Lemma openNodes_lookup frames i : openNodes frames !! i = FrameNode <$> frames !! i.
Proof. unfold openNodes. apply list_lookup_fmap. Qed.

(** X12. The stack is the path of the open containers: the node of every
    frame is a container that is not completed; its parent is the node of
    the frame below, and the node of the lowest frame is the root; no node
    is on the stack twice; and a container that is not completed is on the
    stack.  So a container is marked completed exactly when it has been
    closed, and the closed ones are the containers off the stack. *)
Theorem X12_stack_is_the_path_of_open_containers p :
  Running p ->
  (forall i f, stack p !! i = Some f ->
     exists n, heap p !! FrameNode f = Some n
       /\ NodeTy n <> ValueNode /\ NodeCompleted n = false
       /\ Parent n = FrameNode <$> stack p !! S i
       /\ (stack p !! S i = None -> root p = Some (FrameNode f)))
  /\ (forall q n, heap p !! q = Some n -> NodeTy n <> ValueNode ->
        NodeCompleted n = false -> exists f, f ∈ stack p /\ FrameNode f = q)
  /\ NoDup (FrameNode <$> stack p).
Proof.
  intros Hrun. destruct (Running_treeInv p Hrun) as (_ & Hc & Hd & Ho).
  split; [|split].
  - intros i f Hi.
    assert (openNodes (stack p) !! i = Some (FrameNode f)) as Hi'
      by (rewrite openNodes_lookup, Hi; reflexivity).
    destruct (Hc i (FrameNode f) Hi') as (n & Hn & Hk & Hp & Hb).
    rewrite openNodes_lookup in Hp, Hb. exists n.
    split; [exact Hn|]. split; [apply isContainer_true; exact Hk|].
    split; [|split; [exact Hp|]].
    + apply (Ho _ n Hn Hk). eapply list_elem_of_lookup_2. exact Hi'.
    + intros Hnone. apply Hb. rewrite Hnone. reflexivity.
  - intros q n Hn Hty Hopen. apply isContainer_true in Hty.
    apply (Ho q n Hn Hty) in Hopen. apply list_elem_of_fmap in Hopen as (f & -> & Hf).
    eauto.
  - exact Hd.
Qed.

Lemma last_frame_is_root p r :
  treeInv p -> root p = Some r -> stack p <> [] -> r ∈ openNodes (stack p).
Proof.
  intros (_ & Hc & _) Hr Hne.
  assert (exists i q, openNodes (stack p) !! i = Some q
                      /\ openNodes (stack p) !! S i = None) as (i & q & Hi & Hnone).
  { assert (0 < length (openNodes (stack p))) as Hlen
      by (destruct (stack p); [contradiction|simpl; lia]).
    destruct (lookup_lt_is_Some_2 (openNodes (stack p))
                (length (openNodes (stack p)) - 1)) as [q Hq]; [lia|].
    exists (length (openNodes (stack p)) - 1), q. split; [exact Hq|].
    apply lookup_ge_None_2. lia. }
  destruct (Hc i q Hi) as (n & _ & _ & _ & Hb). specialize (Hb Hnone).
  rewrite Hr in Hb. injection Hb as ->. eapply list_elem_of_lookup_2. exact Hi.
Qed.

(** X13. There is a root exactly when parsing has started; the root is a
    container without a parent; and [IsCompleted] holds exactly when the
    root node is marked completed. *)
Theorem X13_completed_iff_root_closed p :
  Running p ->
  (root p = None <-> started p = false)
  /\ (forall r, root p = Some r ->
        exists n, heap p !! r = Some n /\ NodeTy n <> ValueNode /\ Parent n = None)
  /\ (IsCompleted p = true <->
      exists r n, root p = Some r /\ heap p !! r = Some n /\ NodeCompleted n = true).
Proof.
  intros Hrun. pose proof (Running_treeInv p Hrun) as Hinv.
  pose proof Hinv as (Hr & Hc & Hd & Ho).
  split; [|split].
  - destruct (root p) as [r|]; split; intros H; try discriminate; try reflexivity.
    + destruct Hr as [Hst _]. congruence.
    + destruct Hr as [Hst _]. exact Hst.
  - intros r E. rewrite E in Hr. destruct Hr as (_ & n & Hn & Hk & Hp).
    exists n. split; [exact Hn|]. split; [apply isContainer_true; exact Hk|exact Hp].
  - rewrite IsCompleted_true. split.
    + intros [Hs Hst]. destruct (root p) as [r|] eqn:E; [|destruct Hr; congruence].
      destruct Hr as (_ & n & Hn & Hk & _). exists r, n. split; [reflexivity|].
      split; [exact Hn|]. destruct (NodeCompleted n) eqn:Ec; [reflexivity|].
      apply (Ho r n Hn Hk) in Ec. rewrite Hs in Ec. apply elem_of_nil in Ec. contradiction.
    + intros (r & n & E & Hn & Hdone). rewrite E in Hr.
      destruct Hr as (Hst & n' & Hn' & Hk & _). split; [|exact Hst].
      assert (stack p = [] \/ stack p <> []) as [Hnil|Hne]
        by (destruct (stack p); [left; reflexivity|right; discriminate]);
        [exact Hnil|exfalso].
      assert (r ∈ openNodes (stack p)) as Hin
        by (apply last_frame_is_root; [exact Hinv|exact E|exact Hne]).
      rewrite Hn in Hn'. injection Hn' as <-.
      apply (Ho r n Hn Hk) in Hin. congruence.
Qed.

Lemma processToken_root p token :
  started p = true -> root (processToken p token).2 = root p.
Proof.
  intros Hs. unfold processToken. rewrite Hs.
  pose proof (processCompleteToken_frame p token) as (_ & Hc & _).
  pose proof (processIncompleteToken_frame p token) as (_ & Hi & _).
  destruct (TokenTy token), (Completed token); simpl; congruence.
Qed.

Lemma processTokens_root n p p' :
  started p = true -> processTokens n p = Some p' -> root p' = root p.
Proof.
  revert p; induction n as [|n IH]; intros p Hs H; [discriminate|].
  simpl in H. pose proof (processStep_started p Hs) as H1.
  assert (root (processStep p).2 = root p) as H2.
  { unfold processStep. destruct (NextToken (tokenizer p)) as [token t].
    apply (processToken_root (setTokenizer p t) token Hs). }
  destruct (processStep p) as [[] p1]; simpl in *.
  - rewrite <- H2. apply IH; assumption.
  - congruence.
Qed.

Lemma AppendAll_root fuel chunks : forall p p',
  started p = true -> AppendAll fuel p chunks = Some p' ->
  root p' = root p /\ started p' = true.
Proof.
  induction chunks as [|c cs IH]; intros p p' Hst Happ; simpl in Happ.
  - injection Happ as <-. auto.
  - destruct (Append fuel p c) as [p1|] eqn:E; [|discriminate]. unfold Append in E.
    set (p0 := setTokenizer p (tokAppend (tokenizer p) c)) in E.
    assert (started p0 = true) as Hst0 by exact Hst.
    destruct (IH p1 p') as [H1 H2];
      [eapply processTokens_started; [|exact E]; exact Hst0|exact Happ|].
    split; [|exact H2]. rewrite H1. apply (processTokens_root _ _ _ Hst0 E).
Qed.

(** X14. The root is set once: when there is a root, feeding more input
    leaves the same node as the root, and that node keeps its type. *)
Theorem X14_root_is_never_replaced fuel chunks : forall p p' r,
  Running p -> root p = Some r -> AppendAll fuel p chunks = Some p' ->
  root p' = Some r /\ started p' = true
  /\ nodeTypeAt (heap p') r = nodeTypeAt (heap p) r.
Proof.
  intros p p' r Hrun Hr Happ.
  assert (started p = true) as Hst.
  { destruct (Running_treeInv p Hrun) as (H & _). rewrite Hr in H. tauto. }
  assert (exists n, heap p !! r = Some n) as [n Hn].
  { destruct (Running_treeInv p Hrun) as (H & _). rewrite Hr in H.
    destruct H as (_ & n & Hn & _). eauto. }
  destruct (AppendAll_heapLe fuel chunks p p' Happ r n Hn) as (n' & Hn' & Hty & _).
  destruct (AppendAll_root fuel chunks p p' Hst Happ) as [H1 H2]. rewrite Hr in H1.
  split; [exact H1|]. split; [exact H2|].
  unfold nodeTypeAt. rewrite Hn, Hn'. simpl. congruence.
Qed.

Lemma yield_heapLe h h' child c :
  heapLe h h' -> h !! child = Some c -> yield h' child = yield h child.
Proof.
  intros Hle Hc. destruct (Hle child c Hc) as (c' & Hc' & Hty & Hv & _).
  unfold yield, isValueNode. rewrite Hc, Hc', Hty, Hv. reflexivity.
Qed.

(** X15. An element of an array never changes once it is there: whatever
    is fed later, reading the array at an index it already had gives the
    same result, the value of a Value node or the handle of a container.
    For the root this is [Get] with one key. *)
Theorem X15_array_elements_never_change fuel chunks p p' q n key index :
  Running p -> AppendAll fuel p chunks = Some p' ->
  heap p !! q = Some n -> NodeTy n = ArrayNode ->
  Atoi key = Some index -> (0 <= index < Z.of_nat (length (Array n)))%Z ->
  getFromNode (heap p') (Some q) [key] = getFromNode (heap p) (Some q) [key]
  /\ (exists v, getFromNode (heap p) (Some q) [key] = Ok v)
  /\ (root p = Some q -> Get p' [key] = Get p [key]).
Proof.
  intros Hrun Happ Hn Hty Hkey Hidx.
  destruct (Running_inv p Hrun) as [_ (Hwf & _)].
  pose proof (AppendAll_heapLe fuel chunks p p' Happ) as Hle.
  destruct (Hle q n Hn) as (n' & Hn' & Hty' & _ & _ & _ & [more Harr] & _).
  assert (Z.to_nat index < length (Array n)) as Hlt by lia.
  destruct (lookup_lt_is_Some_2 _ _ Hlt) as [child Hchild].
  assert (child < length (heap p)) as Hc
    by (destruct (Hwf q n Hn) as [_ Ha]; eapply Ha; exact Hchild).
  destruct (lookup_lt_is_Some_2 _ _ Hc) as [c Hcn].
  assert (getFromNode (heap p) (Some q) [key] = yield (heap p) child) as Hold.
  { simpl. rewrite Hn, Hty, Hkey.
    replace ((0 <=? index)%Z && (index <? Z.of_nat (length (Array n)))%Z) with true
      by (symmetry; apply andb_true_intro; split; [apply Z.leb_le|apply Z.ltb_lt]; lia).
    rewrite Hchild. reflexivity. }
  assert (getFromNode (heap p') (Some q) [key] = yield (heap p') child) as Hnew.
  { simpl. rewrite Hn', Hty', Hty, Hkey, Harr, length_app.
    replace ((0 <=? index)%Z
             && (index <? Z.of_nat (length (Array n) + length more))%Z) with true
      by (symmetry; apply andb_true_intro; split; [apply Z.leb_le|apply Z.ltb_lt]; lia).
    rewrite lookup_app_l by exact Hlt. rewrite Hchild. reflexivity. }
  assert (getFromNode (heap p') (Some q) [key] = getFromNode (heap p) (Some q) [key]) as Heq
    by (rewrite Hold, Hnew; eapply yield_heapLe; eauto).
  split; [exact Heq|]. split.
  - rewrite Hold. apply yield_ok. exact Hc.
  - intros Hr.
    assert (started p = true) as Hst.
    { destruct (Running_treeInv p Hrun) as (H & _). rewrite Hr in H. tauto. }
    destruct (AppendAll_root fuel chunks p p' Hst Happ) as [Hr' _]. rewrite Hr in Hr'.
    unfold Get. rewrite Hr, Hr'. exact Heq.
Qed.

(** ** The kinds of node

    A Value node is a leaf holding a scalar; an object has keys and no
    elements, an array elements and no keys, and neither holds a value.  A
    node stored under a key or in an array has that container as parent. *)

Definition scalar (v : GoValue) : bool :=
  match v with
  | GoNil | GoString _ | GoInt64 _ | GoFloat64 _ | GoBool _ => true
  | GoNode _ | GoMap _ | GoSlice _ => false
  end.

Definition typedNode (n : Node) : Prop :=
  match NodeTy n with
  | ObjectNode => Array n = [] /\ Value n = GoNil
  | ArrayNode => Children n = ∅ /\ Value n = GoNil
  | ValueNode => Children n = ∅ /\ Array n = [] /\ scalar (Value n) = true
  end.

Definition childOf (h : list Node) (q child : ptr) : Prop :=
  exists m, h !! child = Some m /\ Parent m = Some q.

Definition linkedNode (h : list Node) (q : ptr) (n : Node) : Prop :=
  (forall key child, Children n !! key = Some child -> childOf h q child)
  /\ (forall i child, Array n !! i = Some child -> childOf h q child).

Definition linkInv (h : list Node) : Prop :=
  forall q n, h !! q = Some n -> typedNode n /\ linkedNode h q n.

Lemma parseTokenValue_scalar token : scalar (parseTokenValue token) = true.
Proof.
  unfold parseTokenValue, parseNumberValue.
  destruct (TokenTy token); try reflexivity.
  destruct (scanDecimalExp _) as [hasDecimal hasExp].
  destruct (negb hasDecimal && negb hasExp); [destruct (ParseInt _)|];
    try reflexivity; destruct (ParseFloat _); reflexivity.
Qed.

Lemma childOf_alloc h n q child : childOf h q child -> childOf (h ++ [n]) q child.
Proof.
  intros (m & Hm & Hp). exists m. split; [apply lookup_app_l_Some; exact Hm|exact Hp].
Qed.

Lemma childOf_alter h g i q child :
  (forall n, Parent (g n) = Parent n) -> childOf h q child -> childOf (alter g i h) q child.
Proof.
  intros Hg (m & Hm & Hp). unfold childOf. rewrite list_lookup_alter.
  destruct (decide (i = child)) as [->|Hne]; [rewrite Hm; simpl|]; eauto.
  exists (g m). split; [reflexivity|]. rewrite Hg. exact Hp.
Qed.

Lemma linkInv_alloc h n :
  linkInv h -> typedNode n -> Children n = ∅ -> Array n = [] -> linkInv (h ++ [n]).
Proof.
  intros Hinv Hty Hc Ha q m Hq. apply lookup_snoc_Some in Hq as [[_ Hq]|[_ <-]].
  - destruct (Hinv q m Hq) as [Ht [Hk He]]. split; [exact Ht|].
    split; intros ? child H; apply childOf_alloc; eauto.
  - split; [exact Hty|]. split; intros ? child H.
    + rewrite Hc, lookup_empty in H. discriminate.
    + rewrite Ha in H. discriminate.
Qed.

Lemma linkInv_markCompleted h i : linkInv h -> linkInv (alter markCompleted i h).
Proof.
  intros Hinv q n Hq. rewrite list_lookup_alter in Hq.
  assert (exists m, h !! q = Some m /\ typedNode n
                    /\ Children n = Children m /\ Array n = Array m)
    as (m & Hm & Ht & Hc & Ha).
  { destruct (decide (i = q)) as [->|Hne].
    - destruct (h !! q) as [m|] eqn:E; [|discriminate]. injection Hq as <-.
      exists m. destruct (Hinv q m E) as [Ht _]. auto.
    - exists n. destruct (Hinv q n Hq) as [Ht _]. auto. }
  split; [exact Ht|]. destruct (Hinv q m Hm) as [_ [Hk He]].
  split; intros ? child H; [rewrite Hc in H|rewrite Ha in H];
    apply childOf_alter; eauto.
Qed.

Lemma linkInv_setChild h i key child :
  linkInv h -> isObjectAt h i = true -> childOf h i child ->
  linkInv (alter (setChild key child) i h).
Proof.
  intros Hinv Hobj Hchild q n Hq. rewrite list_lookup_alter in Hq.
  destruct (decide (i = q)) as [->|Hne].
  - destruct (h !! q) as [m|] eqn:E; [|discriminate]. injection Hq as <-.
    destruct (Hinv q m E) as [Ht [Hk He]].
    assert (NodeTy m = ObjectNode) as Hty.
    { unfold isObjectAt, nodeTypeAt in Hobj. rewrite E in Hobj. simpl in Hobj.
      destruct (NodeTy m); [reflexivity|discriminate|discriminate]. }
    split.
    + unfold typedNode in *. simpl. rewrite Hty in *. exact Ht.
    + split; simpl.
      * intros k c H. destruct (decide (key = k)) as [->|Hk'].
        -- rewrite lookup_insert_eq in H. injection H as <-.
           apply childOf_alter; auto.
        -- rewrite lookup_insert_ne in H by exact Hk'. apply childOf_alter; eauto.
      * intros j c H. apply childOf_alter; eauto.
  - destruct (Hinv q n Hq) as [Ht [Hk He]]. split; [exact Ht|].
    split; intros ? c H; apply childOf_alter; eauto.
Qed.

Lemma linkInv_appendElem h i child :
  linkInv h -> isArrayAt h i = true -> childOf h i child ->
  linkInv (alter (appendElem child) i h).
Proof.
  intros Hinv Harr Hchild q n Hq. rewrite list_lookup_alter in Hq.
  destruct (decide (i = q)) as [->|Hne].
  - destruct (h !! q) as [m|] eqn:E; [|discriminate]. injection Hq as <-.
    destruct (Hinv q m E) as [Ht [Hk He]].
    assert (NodeTy m = ArrayNode) as Hty.
    { unfold isArrayAt, nodeTypeAt in Harr. rewrite E in Harr. simpl in Harr.
      destruct (NodeTy m); [discriminate|reflexivity|discriminate]. }
    split.
    + unfold typedNode in *. simpl. rewrite Hty in *. exact Ht.
    + split; simpl.
      * intros k c H. apply childOf_alter; eauto.
      * intros j c H. apply lookup_snoc_Some in H as [[_ H]|[_ <-]];
          apply childOf_alter; eauto.
  - destruct (Hinv q n Hq) as [Ht [Hk He]]. split; [exact Ht|].
    split; intros ? c H; apply childOf_alter; eauto.
Qed.

Lemma attach_linkInv h f q :
  linkInv h -> childOf h (FrameNode f) q -> linkInv (attach h f q).1.1.
Proof.
  intros Hinv Hchild. unfold attach.
  destruct (isObjectAt h (FrameNode f) && nonEmpty (CurrentKey f)) eqn:E; simpl.
  - apply andb_prop in E as [E _]. apply linkInv_setChild; assumption.
  - destruct (isArrayAt h (FrameNode f)) eqn:E'; simpl; [|exact Hinv].
    apply linkInv_appendElem; assumption.
Qed.

Lemma fresh_childOf h n q : Parent n = Some q -> childOf (h ++ [n]) q (length h).
Proof. intros Hp. exists n. split; [apply list_lookup_middle; reflexivity|exact Hp]. Qed.

Lemma handleContainerStart_linkInv ty p f rest :
  ty <> ValueNode -> linkInv (heap p) -> linkInv (heap (handleContainerStart ty p f rest)).
Proof.
  intros Hty Hinv. unfold handleContainerStart, alloc.
  set (new := mkNode ty GoNil ∅ [] false (Some (FrameNode f))).
  assert (linkInv (attach (heap p ++ [new]) f (length (heap p))).1.1) as H.
  { apply attach_linkInv; [|apply fresh_childOf; reflexivity].
    apply linkInv_alloc; auto. unfold typedNode. simpl.
    destruct ty; [auto|auto|contradiction]. }
  destruct (attach _ f (length (heap p))) as [[h1 inObject] inArray]. exact H.
Qed.

Lemma handleValue_linkInv p token f rest :
  linkInv (heap p) -> linkInv (heap (handleValue p token f rest)).
Proof.
  intros Hinv. unfold handleValue, alloc.
  set (v := mkNode ValueNode (parseTokenValue token) ∅ [] true (Some (FrameNode f))).
  assert (linkInv (attach (heap p ++ [v]) f (length (heap p))).1.1) as H.
  { apply attach_linkInv; [|apply fresh_childOf; reflexivity].
    apply linkInv_alloc; auto. unfold typedNode. simpl.
    repeat split. apply parseTokenValue_scalar. }
  destruct (attach _ f (length (heap p))) as [[h1 inObject] inArray]. exact H.
Qed.

Lemma isObjectAt_app h n i : isObjectAt h i = true -> isObjectAt (h ++ [n]) i = true.
Proof.
  unfold isObjectAt, nodeTypeAt. destruct (h !! i) as [m|] eqn:E; [|discriminate].
  rewrite (lookup_app_l_Some _ _ _ _ E). auto.
Qed.

Lemma processCompleteToken_linkInv p token :
  linkInv (heap p) -> linkInv (heap (processCompleteToken p token)).
Proof.
  intros Hinv. unfold processCompleteToken.
  destruct (stack p) as [|f rest] eqn:Es; [exact Hinv|].
  destruct (TokenTy token); try exact Hinv;
    try (apply handleContainerStart_linkInv; [discriminate|assumption]);
    try (apply handleValue_linkInv; assumption).
  - unfold handleObjectEnd, handleEnd. rewrite Es. simpl.
    apply linkInv_markCompleted. exact Hinv.
  - unfold handleArrayEnd, handleEnd. rewrite Es. simpl.
    apply linkInv_markCompleted. exact Hinv.
  - unfold handleObjectKey. destruct (isObjectAt _ _); exact Hinv.
  - unfold handleColon. destruct (isObjectAt _ _); exact Hinv.
  - unfold handleComma. destruct (isObjectAt _ _); [exact Hinv|].
    destruct (isArrayAt _ _); exact Hinv.
Qed.

Lemma processIncompleteToken_linkInv p token :
  linkInv (heap p) -> linkInv (heap (processIncompleteToken p token)).
Proof.
  intros Hinv. unfold processIncompleteToken.
  destruct (stack p) as [|f rest] eqn:Es; [exact Hinv|].
  destruct (TokenTy token); try exact Hinv.
  destruct (_ && _) eqn:E; [|exact Hinv].
  destruct (Content token) as [|c partialValue]; [exact Hinv|].
  destruct (Ascii.eqb c quote); [|exact Hinv].
  unfold alloc. simpl. apply andb_prop in E as [E _].
  apply linkInv_setChild.
  - apply linkInv_alloc; auto. unfold typedNode. simpl. auto.
  - apply isObjectAt_app. exact E.
  - apply fresh_childOf. reflexivity.
Qed.

Lemma processToken_linkInv p token :
  linkInv (heap p) -> linkInv (heap (processToken p token).2).
Proof.
  intros Hinv. unfold processToken.
  assert (forall ty, ty <> ValueNode -> linkInv (heap (startRoot ty p))) as Hstart.
  { intros ty Hty. unfold startRoot, alloc. simpl. apply linkInv_alloc; auto.
    unfold typedNode. simpl. destruct ty; [auto|auto|contradiction]. }
  destruct (TokenTy token); simpl; try exact Hinv;
    (destruct (started p) eqn:Hst; simpl;
     [destruct (Completed token); simpl;
      [apply processCompleteToken_linkInv|apply processIncompleteToken_linkInv]; assumption
     |first [exact Hinv|apply Hstart; discriminate]]).
Qed.

Lemma Running_linkInv p : Running p -> linkInv (heap p).
Proof.
  induction 1 as [|p content _ IH|p _ IH].
  - intros q n H. discriminate.
  - exact IH.
  - unfold processStep. destruct (NextToken (tokenizer p)) as [token t].
    apply (processToken_linkInv (setTokenizer p t)). exact IH.
Qed.

(** X16. Every node is of one of three kinds: a Value node is a leaf that
    holds a scalar (nil, a string, an int64, a float64 or a bool, never a
    node, a map or a slice); an object has no elements and an array no
    keys, and neither holds a value.  A node stored under a key or in an
    array is in the tree and has that container as its parent. *)
Theorem X16_nodes_are_well_formed p q n :
  Running p -> heap p !! q = Some n ->
  match NodeTy n with
  | ObjectNode => Array n = [] /\ Value n = GoNil
  | ArrayNode => Children n = ∅ /\ Value n = GoNil
  | ValueNode => Children n = ∅ /\ Array n = [] /\ scalar (Value n) = true
  end
  /\ (forall key child, Children n !! key = Some child ->
        exists m, heap p !! child = Some m /\ Parent m = Some q)
  /\ (forall i child, Array n !! i = Some child ->
        exists m, heap p !! child = Some m /\ Parent m = Some q).
Proof.
  intros Hrun Hq. destruct (Running_linkInv p Hrun q n Hq) as [Ht [Hk He]].
  split; [exact Ht|]. split; [exact Hk|exact He].
Qed.

(** ** Paths *)

(** What [yield] gives for a handle is the node asked for, a container. *)
Lemma yield_handle h child q :
  linkInv h -> yield h child = Ok (GoNode (Some q)) ->
  q = child /\ yield h q = Ok (GoNode (Some q)).
Proof.
  intros Hinv H. unfold yield in *. destruct (h !! child) as [c|] eqn:E; [|discriminate].
  destruct (isValueNode c) eqn:Ev.
  - exfalso. destruct (Hinv child c E) as [Ht _]. unfold typedNode in Ht.
    unfold isValueNode in Ev. destruct (NodeTy c); try discriminate.
    destruct Ht as (_ & _ & Hs). injection H as Hv. rewrite Hv in Hs. discriminate.
  - injection H as <-. split; [reflexivity|]. rewrite E, Ev. reflexivity.
Qed.

Lemma getFromNode_app h ks2 :
  linkInv h -> forall ks1 r q,
  ks1 <> [] -> getFromNode h (Some r) ks1 = Ok (GoNode (Some q)) ->
  getFromNode h (Some r) (ks1 ++ ks2) = getFromNode h (Some q) ks2.
Proof.
  intros Hinv. induction ks1 as [|k ks IH]; intros r q Hne H; [contradiction|].
  assert (forall child,
            match ks with
            | [] => yield h child
            | _ :: _ => getFromNode h (Some child) ks
            end = Ok (GoNode (Some q)) ->
            match ks ++ ks2 with
            | [] => yield h child
            | _ :: _ => getFromNode h (Some child) (ks ++ ks2)
            end = getFromNode h (Some q) ks2) as Hstep.
  { intros child Hd. destruct ks as [|k' ks'].
    - destruct (yield_handle h child q Hinv Hd) as [-> Hy]. simpl.
      destruct ks2; reflexivity.
    - rewrite <- (IH child q); [reflexivity|discriminate|exact Hd]. }
  change ((k :: ks) ++ ks2) with (k :: (ks ++ ks2)).
  cbn [getFromNode] in *. destruct (h !! r) as [n|]; [|discriminate].
  destruct (NodeTy n); [| |discriminate].
  - destruct (Children n !! k) as [child|]; [|discriminate]. apply Hstep. exact H.
  - destruct (Atoi k) as [index|]; [|discriminate].
    destruct ((0 <=? index)%Z && (index <? Z.of_nat (length (Array n)))%Z);
      [|discriminate].
    destruct (Array n !! Z.to_nat index) as [child|]; [|discriminate].
    apply Hstep. exact H.
Qed.

(** X17. Paths compose: when [Get] with a path gives the handle of a
    container, [Get] with a longer path is the lookup of the rest of the path
    from that container. *)
Theorem X17_get_composes p ks1 ks2 q :
  Running p -> Get p ks1 = Ok (GoNode (Some q)) ->
  Get p (ks1 ++ ks2) = getFromNode (heap p) (Some q) ks2
  /\ exists n, heap p !! q = Some n /\ NodeTy n <> ValueNode.
Proof.
  intros Hrun H. pose proof (Running_linkInv p Hrun) as Hinv.
  unfold Get in *. destruct (root p) as [r|]; [|discriminate].
  destruct ks1 as [|k ks]; [discriminate|].
  change ((k :: ks) ++ ks2) with (k :: (ks ++ ks2)).
  change (getFromNode (heap p) (Some r) (k :: ks ++ ks2))
    with (getFromNode (heap p) (Some r) ((k :: ks) ++ ks2)).
  split; [apply getFromNode_app; [exact Hinv|discriminate|exact H]|].
  pose proof (getFromNode_app (heap p) [] Hinv (k :: ks) r q ltac:(discriminate) H) as Hq.
  rewrite app_nil_r, H in Hq. cbn [getFromNode] in Hq. unfold yield in Hq.
  destruct (heap p !! q) as [n|] eqn:En; [|discriminate].
  exists n. split; [reflexivity|]. intros Hty.
  destruct (Hinv q n En) as [Ht _]. unfold typedNode in Ht. unfold isValueNode in Hq.
  rewrite Hty in Ht, Hq. destruct Ht as (_ & _ & Hs). injection Hq as Hv.
  rewrite <- Hv in Hs. discriminate.
Qed.

(** ** An object with one string member *)

Lemma NextToken_at t c :
  lastToken t = None -> get (position t) (buffer t) = Some c -> isWhitespace c = false ->
  NextToken t = freshToken t c.
Proof.
  intros Hl Hg Hw.
  assert (pending t = None) as Hp by (unfold pending; rewrite Hl; reflexivity).
  unfold NextToken. rewrite Hp. cbv zeta.
  assert (skipWhitespace t = t) as ->.
  { unfold skipWhitespace. rewrite (scanRun_here _ _ _ _ Hg Hw). destruct t; reflexivity. }
  rewrite Hg. reflexivity.
Qed.

Lemma NextToken_eof t :
  lastToken t = None -> position t = String.length (buffer t) ->
  NextToken t = (mkToken (position t) (position t) EOF EmptyString true, t).
Proof.
  intros Hl Hpos.
  assert (pending t = None) as Hp by (unfold pending; rewrite Hl; reflexivity).
  unfold NextToken. rewrite Hp. cbv zeta.
  assert (skipWhitespace t = t) as ->.
  { unfold skipWhitespace. rewrite scanRun_at_end by lia. destruct t; reflexivity. }
  assert (get (position t) (buffer t) = None) as -> by (apply get_None_ge; lia).
  reflexivity.
Qed.

(** The text of an object with the one member [k : v], both written as
    quoted texts. *)
Definition flatObject (k v : string) : string :=
  "{" +:+ quoted k +:+ ":" +:+ quoted v +:+ "}".

Lemma flatObject_round_trip k v :
  plainText k = true -> plainText v = true -> nonEmpty k = true ->
  processTokens 6 (setTokenizer NewStreamJSONParser
                     (tokAppend NewStreamJSONTokenizer (flatObject k v)))
  = Some (mkParser
            (mkTokenizer (flatObject k v) (String.length (flatObject k v)) None false false)
            [mkNode ObjectNode GoNil (<[k := 1]> ∅) [] true None;
             mkNode ValueNode (GoString v) ∅ [] true (Some 0)]
            (Some 0) [] true).
Proof.
  intros Hk Hv Hne.
  set (buf := flatObject k v).
  assert (tokAppend NewStreamJSONTokenizer buf = mkTokenizer buf 0 None false false) as ->
    by reflexivity.
  pose proof (stripQuotes_quoted k) as Hsk. fold (quoted k) in Hsk.
  pose proof (stripQuotes_quoted v) as Hsv. fold (quoted v) in Hsv.
  assert (String.length (quoted k) = String.length k + 2) as Hlk
    by (unfold quoted; simpl; rewrite length_append; simpl; lia).
  assert (String.length (quoted v) = String.length v + 2) as Hlv
    by (unfold quoted; simpl; rewrite length_append; simpl; lia).
  (* the opening brace *)
  assert (processStep (mkParser (mkTokenizer buf 0 None false false) [] None [] false)
          = (Continue,
             mkParser (mkTokenizer buf 1 None false true) [NewNode ObjectNode] (Some 0)
                      [mkFrame 0 EmptyString true false] true)) as H1.
  { unfold processStep. simpl tokenizer.
    rewrite (NextToken_at _ "{"%char); [reflexivity|reflexivity|reflexivity|reflexivity]. }
  (* the key *)
  assert (NextToken (mkTokenizer buf 1 None false true)
          = (mkToken 1 (String.length k + 3) ObjectKey (quoted k) true,
             mkTokenizer buf (String.length k + 3) None false true)) as N2.
  { rewrite (NextToken_quoted _ "{" k (":" +:+ quoted v +:+ "}"));
      [|reflexivity|reflexivity|reflexivity|reflexivity|exact Hk].
    cbn [buffer expectingKey String.length].
    replace (1 + String.length k + 2) with (String.length k + 3) by lia. reflexivity. }
  assert (processStep
            (mkParser (mkTokenizer buf 1 None false true) [NewNode ObjectNode] (Some 0)
                      [mkFrame 0 EmptyString true false] true)
          = (Continue,
             mkParser (mkTokenizer buf (String.length k + 3) None false true)
                      [NewNode ObjectNode] (Some 0) [mkFrame 0 k false false] true)) as H2.
  { unfold processStep. cbn [tokenizer]. rewrite N2.
    unfold processToken, processCompleteToken, handleObjectKey, withTop. simpl.
    rewrite Hsk. reflexivity. }
  (* the colon *)
  assert (get (String.length k + 3) buf = Some ":"%char) as G3.
  { replace buf with (("{" +:+ quoted k) +:+ String.String ":"%char (quoted v +:+ "}"))
      by (unfold buf, flatObject; rewrite append_assoc; reflexivity).
    replace (String.length k + 3) with (String.length ("{" +:+ quoted k))
      by (rewrite length_append, Hlk; simpl; lia).
    apply get_middle. }
  assert (processStep
            (mkParser (mkTokenizer buf (String.length k + 3) None false true)
                      [NewNode ObjectNode] (Some 0) [mkFrame 0 k false false] true)
          = (Continue,
             mkParser (mkTokenizer buf (S (String.length k + 3)) None false false)
                      [NewNode ObjectNode] (Some 0) [mkFrame 0 k false true] true)) as H3.
  { unfold processStep. cbn [tokenizer].
    rewrite (NextToken_at _ ":"%char); [reflexivity|reflexivity|exact G3|reflexivity]. }
  (* the value *)
  assert (NextToken (mkTokenizer buf (S (String.length k + 3)) None false false)
          = (mkToken (S (String.length k + 3)) (String.length k + String.length v + 6)
                     String (quoted v) true,
             mkTokenizer buf (String.length k + String.length v + 6) None false false))
    as N4.
  { rewrite (NextToken_quoted _ ("{" +:+ quoted k +:+ ":") v "}");
      [|reflexivity|reflexivity| | |exact Hv].
    - cbn [buffer expectingKey]. rewrite !length_append, Hlk.
      cbn [String.length].
      replace (1 + (String.length k + 2 + 1)) with (S (String.length k + 3)) by lia.
      replace (S (String.length k + 3) + String.length v + 2)
        with (String.length k + String.length v + 6) by lia.
      reflexivity.
    - cbn [buffer]. unfold buf, flatObject. rewrite !append_assoc. reflexivity.
    - cbn [position]. rewrite !length_append, Hlk. simpl. lia. }
  assert (processStep
            (mkParser (mkTokenizer buf (S (String.length k + 3)) None false false)
                      [NewNode ObjectNode] (Some 0) [mkFrame 0 k false true] true)
          = (Continue,
             mkParser (mkTokenizer buf (String.length k + String.length v + 6)
                                   None false false)
                      [mkNode ObjectNode GoNil (<[k := 1]> ∅) [] false None;
                       mkNode ValueNode (GoString v) ∅ [] true (Some 0)]
                      (Some 0) [mkFrame 0 EmptyString false false] true)) as H4.
  { unfold processStep. cbn [tokenizer]. rewrite N4.
    unfold processToken, processCompleteToken, handleValue, alloc, attach,
      parseTokenValue. simpl. rewrite Hne, Hsv. reflexivity. }
  (* the closing brace *)
  assert (get (String.length k + String.length v + 6) buf = Some "}"%char) as G5.
  { replace buf
      with (("{" +:+ quoted k +:+ ":" +:+ quoted v) +:+ String.String "}"%char EmptyString)
      by (unfold buf, flatObject; rewrite !append_assoc; reflexivity).
    replace (String.length k + String.length v + 6)
      with (String.length ("{" +:+ quoted k +:+ ":" +:+ quoted v))
      by (rewrite !length_append, Hlk, Hlv; simpl; lia).
    apply get_middle. }
  assert (String.length buf = S (String.length k + String.length v + 6)) as Hlen
    by (unfold buf, flatObject; rewrite !length_append, Hlk, Hlv; simpl; lia).
  assert (processStep
            (mkParser (mkTokenizer buf (String.length k + String.length v + 6)
                                   None false false)
                      [mkNode ObjectNode GoNil (<[k := 1]> ∅) [] false None;
                       mkNode ValueNode (GoString v) ∅ [] true (Some 0)]
                      (Some 0) [mkFrame 0 EmptyString false false] true)
          = (Continue,
             mkParser (mkTokenizer buf (String.length buf) None false false)
                      [mkNode ObjectNode GoNil (<[k := 1]> ∅) [] true None;
                       mkNode ValueNode (GoString v) ∅ [] true (Some 0)]
                      (Some 0) [] true)) as H5.
  { unfold processStep. cbn [tokenizer].
    rewrite (NextToken_at _ "}"%char); [|reflexivity|exact G5|reflexivity].
    rewrite Hlen. reflexivity. }
  (* the end of input *)
  assert (processStep
            (mkParser (mkTokenizer buf (String.length buf) None false false)
                      [mkNode ObjectNode GoNil (<[k := 1]> ∅) [] true None;
                       mkNode ValueNode (GoString v) ∅ [] true (Some 0)]
                      (Some 0) [] true)
          = (Break,
             mkParser (mkTokenizer buf (String.length buf) None false false)
                      [mkNode ObjectNode GoNil (<[k := 1]> ∅) [] true None;
                       mkNode ValueNode (GoString v) ∅ [] true (Some 0)]
                      (Some 0) [] true)) as H6.
  { unfold processStep. cbn [tokenizer].
    rewrite NextToken_eof; [reflexivity|reflexivity|reflexivity]. }
  unfold setTokenizer, NewStreamJSONParser. cbn [heap root stack started processTokens].
  rewrite H1, H2, H3, H4, H5, H6. reflexivity.
Qed.

(** X18. An object with one member, a plain key that is not empty and a
    plain string value, fed in one piece to a new parser: [Append] returns,
    [Get] with the key gives the value, with any other key nil, and the
    parse is completed. *)
Theorem X18_flat_object_round_trip k v fuel :
  plainText k = true -> plainText v = true -> k <> EmptyString -> 6 <= fuel ->
  exists p', Append fuel NewStreamJSONParser (flatObject k v) = Some p'
    /\ Get p' [k] = Ok (GoString v)
    /\ (forall key, key <> k -> Get p' [key] = Ok GoNil)
    /\ IsCompleted p' = true.
Proof.
  intros Hk Hv Hne Hfuel.
  assert (nonEmpty k = true) as Hne' by (destruct k; [contradiction|reflexivity]).
  eexists. split.
  - unfold Append. eapply processTokens_mono; [|exact Hfuel].
    apply flatObject_round_trip; assumption.
  - split; [|split; [|reflexivity]].
    + unfold Get. cbn [root heap getFromNode]. simpl. rewrite lookup_insert_eq.
      reflexivity.
    + intros key Hkey. unfold Get. cbn [root heap getFromNode]. simpl.
      rewrite lookup_insert_ne by congruence. rewrite lookup_empty. reflexivity.
Qed.

(** ** An array with one string element *)

Definition flatArray (v : string) : string := "[" +:+ quoted v +:+ "]".

Lemma flatArray_round_trip v :
  plainText v = true ->
  processTokens 4 (setTokenizer NewStreamJSONParser
                     (tokAppend NewStreamJSONTokenizer (flatArray v)))
  = Some (mkParser
            (mkTokenizer (flatArray v) (String.length (flatArray v)) None false false)
            [mkNode ArrayNode GoNil ∅ [1] true None;
             mkNode ValueNode (GoString v) ∅ [] true (Some 0)]
            (Some 0) [] true).
Proof.
  intros Hv.
  set (buf := flatArray v).
  assert (tokAppend NewStreamJSONTokenizer buf = mkTokenizer buf 0 None false false) as ->
    by reflexivity.
  pose proof (stripQuotes_quoted v) as Hsv. fold (quoted v) in Hsv.
  assert (String.length (quoted v) = String.length v + 2) as Hlv
    by (unfold quoted; simpl; rewrite length_append; simpl; lia).
  assert (processStep (mkParser (mkTokenizer buf 0 None false false) [] None [] false)
          = (Continue,
             mkParser (mkTokenizer buf 1 None false false) [NewNode ArrayNode] (Some 0)
                      [mkFrame 0 EmptyString false true] true)) as H1.
  { unfold processStep. cbn [tokenizer].
    rewrite (NextToken_at _ "["%char); [reflexivity|reflexivity|reflexivity|reflexivity]. }
  assert (NextToken (mkTokenizer buf 1 None false false)
          = (mkToken 1 (String.length v + 3) String (quoted v) true,
             mkTokenizer buf (String.length v + 3) None false false)) as N2.
  { rewrite (NextToken_quoted _ "[" v "]");
      [|reflexivity|reflexivity|reflexivity|reflexivity|exact Hv].
    cbn [buffer expectingKey String.length].
    replace (1 + String.length v + 2) with (String.length v + 3) by lia. reflexivity. }
  assert (processStep
            (mkParser (mkTokenizer buf 1 None false false) [NewNode ArrayNode] (Some 0)
                      [mkFrame 0 EmptyString false true] true)
          = (Continue,
             mkParser (mkTokenizer buf (String.length v + 3) None false false)
                      [mkNode ArrayNode GoNil ∅ [1] false None;
                       mkNode ValueNode (GoString v) ∅ [] true (Some 0)]
                      (Some 0) [mkFrame 0 EmptyString false false] true)) as H2.
  { unfold processStep. cbn [tokenizer]. rewrite N2.
    unfold processToken, processCompleteToken, handleValue, alloc, attach,
      parseTokenValue. simpl. rewrite Hsv. reflexivity. }
  assert (get (String.length v + 3) buf = Some "]"%char) as G3.
  { replace buf with (("[" +:+ quoted v) +:+ String.String "]"%char EmptyString)
      by (unfold buf, flatArray; rewrite !append_assoc; reflexivity).
    replace (String.length v + 3) with (String.length ("[" +:+ quoted v))
      by (rewrite !length_append, Hlv; simpl; lia).
    apply get_middle. }
  assert (String.length buf = S (String.length v + 3)) as Hlen
    by (unfold buf, flatArray; rewrite !length_append, Hlv; simpl; lia).
  assert (processStep
            (mkParser (mkTokenizer buf (String.length v + 3) None false false)
                      [mkNode ArrayNode GoNil ∅ [1] false None;
                       mkNode ValueNode (GoString v) ∅ [] true (Some 0)]
                      (Some 0) [mkFrame 0 EmptyString false false] true)
          = (Continue,
             mkParser (mkTokenizer buf (String.length buf) None false false)
                      [mkNode ArrayNode GoNil ∅ [1] true None;
                       mkNode ValueNode (GoString v) ∅ [] true (Some 0)]
                      (Some 0) [] true)) as H3.
  { unfold processStep. cbn [tokenizer].
    rewrite (NextToken_at _ "]"%char); [|reflexivity|exact G3|reflexivity].
    rewrite Hlen. reflexivity. }
  assert (processStep
            (mkParser (mkTokenizer buf (String.length buf) None false false)
                      [mkNode ArrayNode GoNil ∅ [1] true None;
                       mkNode ValueNode (GoString v) ∅ [] true (Some 0)]
                      (Some 0) [] true)
          = (Break,
             mkParser (mkTokenizer buf (String.length buf) None false false)
                      [mkNode ArrayNode GoNil ∅ [1] true None;
                       mkNode ValueNode (GoString v) ∅ [] true (Some 0)]
                      (Some 0) [] true)) as H4.
  { unfold processStep. cbn [tokenizer].
    rewrite NextToken_eof; [reflexivity|reflexivity|reflexivity]. }
  unfold setTokenizer, NewStreamJSONParser. cbn [heap root stack started processTokens].
  rewrite H1, H2, H3, H4. reflexivity.
Qed.

(** X19. An array with one element, a plain string, fed in one piece to a
    new parser: [Append] returns, [Get] with the index 0 gives the string,
    with the index 1 nil, and the parse is completed. *)
Theorem X19_flat_array_round_trip v fuel :
  plainText v = true -> 4 <= fuel ->
  exists p', Append fuel NewStreamJSONParser (flatArray v) = Some p'
    /\ Get p' ["0"%string] = Ok (GoString v)
    /\ Get p' ["1"%string] = Ok GoNil
    /\ IsCompleted p' = true.
Proof.
  intros Hv Hfuel. eexists. split.
  - unfold Append. eapply processTokens_mono; [|exact Hfuel].
    apply flatArray_round_trip; assumption.
  - split; [|split]; reflexivity.
Qed.

(** ** The flags of a frame

    [ExpectingKey] and [ExpectingValue] are written by the handlers and read
    by none of them. *)

Definition eraseFlags (f : StackFrame) : StackFrame :=
  mkFrame (FrameNode f) (CurrentKey f) false false.

Definition eraseParser (p : StreamJSONParser) : StreamJSONParser :=
  mkParser (tokenizer p) (heap p) (root p) (map eraseFlags (stack p)) (started p).

Lemma attach_eraseFlags h f q : attach h (eraseFlags f) q = attach h f q.
Proof. reflexivity. Qed.

Lemma eraseFlags_firstFrame ty q :
  eraseFlags (firstFrame ty q) = mkFrame q EmptyString false false.
Proof. destruct ty; reflexivity. Qed.

Lemma processCompleteToken_erase p token :
  eraseParser (processCompleteToken (eraseParser p) token)
  = eraseParser (processCompleteToken p token).
Proof.
  unfold processCompleteToken. destruct p as [t h r st s]. simpl.
  destruct st as [|f rest]; [reflexivity|]. simpl.
  destruct (TokenTy token);
    try (unfold eraseParser; simpl; rewrite ?map_map; reflexivity).
  - unfold handleObjectStart, handleContainerStart, alloc. rewrite attach_eraseFlags.
    destruct (attach _ f _) as [[h1 []] inArray]; unfold eraseParser; simpl;
      rewrite ?map_map; reflexivity.
  - unfold handleObjectEnd, handleEnd. simpl. destruct rest as [|g below]; [reflexivity|].
    unfold eraseParser. simpl. rewrite map_map.
    destruct (isObjectAt _ _); [reflexivity|]. destruct (isArrayAt _ _); reflexivity.
  - unfold handleArrayStart, handleContainerStart, alloc. rewrite attach_eraseFlags.
    destruct (attach _ f _) as [[h1 []] inArray]; unfold eraseParser; simpl;
      rewrite ?map_map; reflexivity.
  - unfold handleArrayEnd, handleEnd. simpl. destruct rest as [|g below]; [reflexivity|].
    unfold eraseParser. simpl. rewrite map_map.
    destruct (isObjectAt _ _); [reflexivity|]. destruct (isArrayAt _ _); reflexivity.
  - unfold handleValue, alloc. rewrite attach_eraseFlags.
    destruct (attach _ f _) as [[h1 []] []]; unfold eraseParser; simpl;
      rewrite ?map_map; reflexivity.
  - unfold handleValue, alloc. rewrite attach_eraseFlags.
    destruct (attach _ f _) as [[h1 []] []]; unfold eraseParser; simpl;
      rewrite ?map_map; reflexivity.
  - unfold handleObjectKey, withTop, eraseParser. simpl.
    destruct (isObjectAt _ _); simpl; rewrite ?map_map; reflexivity.
  - unfold handleValue, alloc. rewrite attach_eraseFlags.
    destruct (attach _ f _) as [[h1 []] []]; unfold eraseParser; simpl;
      rewrite ?map_map; reflexivity.
  - unfold handleColon, withTop, eraseParser. simpl.
    destruct (isObjectAt _ _); simpl; rewrite ?map_map; reflexivity.
  - unfold handleComma, withTop, eraseParser. simpl.
    destruct (isObjectAt _ _); simpl; [rewrite ?map_map; reflexivity|].
    destruct (isArrayAt _ _); simpl; rewrite ?map_map; reflexivity.
  - unfold handleValue, alloc. rewrite attach_eraseFlags.
    destruct (attach _ f _) as [[h1 []] []]; unfold eraseParser; simpl;
      rewrite ?map_map; reflexivity.
Qed.

Lemma eraseParser_idem p : eraseParser (eraseParser p) = eraseParser p.
Proof. unfold eraseParser. simpl. rewrite map_map. reflexivity. Qed.

Lemma processIncompleteToken_erase p token :
  eraseParser (processIncompleteToken (eraseParser p) token)
  = eraseParser (processIncompleteToken p token).
Proof.
  unfold processIncompleteToken. destruct p as [t h r st s]. simpl.
  destruct st as [|f rest]; [reflexivity|]. simpl.
  destruct (TokenTy token); try apply eraseParser_idem.
  destruct (isObjectAt h (FrameNode f) && nonEmpty (CurrentKey f));
    [|apply eraseParser_idem].
  destruct (Content token) as [|c partialValue]; [apply eraseParser_idem|].
  destruct (Ascii.eqb c quote); [|apply eraseParser_idem].
  unfold eraseParser. simpl. rewrite map_map. reflexivity.
Qed.

Lemma processToken_erase p token :
  (processToken (eraseParser p) token).1 = (processToken p token).1
  /\ eraseParser (processToken (eraseParser p) token).2
     = eraseParser (processToken p token).2.
Proof.
  pose proof (processCompleteToken_erase p token) as Hc.
  pose proof (processIncompleteToken_erase p token) as Hi.
  unfold processToken. cbn [started eraseParser].
  destruct (TokenTy token); simpl; try (split; [reflexivity|apply eraseParser_idem]);
    (destruct (started p); simpl;
     [destruct (Completed token); simpl; (split; [reflexivity|assumption])
     |split; [reflexivity|];
      first [apply eraseParser_idem
            |unfold startRoot, alloc, eraseParser; simpl; rewrite map_map; reflexivity]]).
Qed.

Lemma processStep_erase a b :
  eraseParser a = eraseParser b ->
  (processStep a).1 = (processStep b).1
  /\ eraseParser (processStep a).2 = eraseParser (processStep b).2.
Proof.
  intros H.
  assert (tokenizer a = tokenizer b) as Ht
    by (change (tokenizer (eraseParser a) = tokenizer (eraseParser b)); rewrite H;
        reflexivity).
  unfold processStep. rewrite Ht. destruct (NextToken (tokenizer b)) as [token t].
  pose proof (processToken_erase (setTokenizer a t) token) as [A1 A2].
  pose proof (processToken_erase (setTokenizer b t) token) as [B1 B2].
  assert (eraseParser (setTokenizer a t) = eraseParser (setTokenizer b t)) as E.
  { unfold eraseParser, setTokenizer in *. simpl. injection H as _ -> -> -> ->.
    reflexivity. }
  rewrite E in A1, A2. split; congruence.
Qed.

Lemma processTokens_erase n : forall a b,
  eraseParser a = eraseParser b ->
  eraseParser <$> processTokens n a = eraseParser <$> processTokens n b.
Proof.
  induction n as [|n IH]; intros a b H; [reflexivity|]. simpl.
  destruct (processStep_erase a b H) as [H1 H2].
  destruct (processStep a) as [ca a1], (processStep b) as [cb b1]. simpl in *. subst cb.
  destruct ca; [apply IH; exact H2|]. simpl. rewrite H2. reflexivity.
Qed.

(** X20. The flags [ExpectingKey] and [ExpectingValue] of the frames take no
    part in parsing: two parsers that differ in these flags only return from
    [Append] together, and then differ in these flags only; they give the
    same results for [Get] and for [IsCompleted]. *)
Theorem X20_frame_flags_are_never_read fuel a b content :
  eraseParser a = eraseParser b ->
  match Append fuel a content, Append fuel b content with
  | Some a', Some b' =>
      eraseParser a' = eraseParser b'
      /\ IsCompleted a' = IsCompleted b'
      /\ forall keys, Get a' keys = Get b' keys
  | None, None => True
  | _, _ => False
  end.
Proof.
  intros H. unfold Append.
  assert (eraseParser (setTokenizer a (tokAppend (tokenizer a) content))
          = eraseParser (setTokenizer b (tokAppend (tokenizer b) content))) as E.
  { unfold eraseParser, setTokenizer in *. simpl. injection H as -> -> -> -> ->.
    reflexivity. }
  pose proof (processTokens_erase fuel _ _ E) as Hp.
  destruct (processTokens fuel (setTokenizer a _)) as [a'|],
           (processTokens fuel (setTokenizer b _)) as [b'|]; simpl in Hp;
    try discriminate; [|exact I].
  assert (eraseParser a' = eraseParser b') as Hq by congruence. clear Hp.
  split; [exact Hq|].
  unfold eraseParser in Hq. injection Hq as Ht Hh Hr Hs Hst.
  split.
  - unfold IsCompleted. rewrite Hst.
    destruct (stack a'), (stack b'); try discriminate; reflexivity.
  - intros keys. unfold Get. rewrite Hh, Hr. reflexivity.
Qed.

(** ** Where a value goes *)

Definition isValueTy (ty : TokenType) : bool :=
  match ty with String | Number | Bool | Null => true | _ => false end.

(** The turn of the loop on a complete value token. *)
Lemma value_step p f rest token t' :
  started p = true -> stack p = f :: rest ->
  NextToken (tokenizer p) = (token, t') ->
  Completed token = true -> isValueTy (TokenTy token) = true ->
  processStep p = (Continue, handleValue (setTokenizer p t') token f rest).
Proof.
  intros Hst Hs Hnext Hc Hty. unfold processStep. rewrite Hnext.
  unfold processToken, processCompleteToken. cbn [started stack setTokenizer].
  rewrite Hst, Hc, Hs. destruct (TokenTy token); try discriminate; reflexivity.
Qed.

Lemma getFromNode_child h node n key child :
  h !! node = Some n -> NodeTy n = ObjectNode -> Children n !! key = Some child ->
  getFromNode h (Some node) [key] = yield h child.
Proof. intros Hn Hty Hk. simpl. rewrite Hn, Hty, Hk. reflexivity. Qed.

Lemma getFromNode_no_child h node n key :
  h !! node = Some n -> NodeTy n = ObjectNode -> Children n !! key = None ->
  getFromNode h (Some node) [key] = Ok GoNil.
Proof. intros Hn Hty Hk. simpl. rewrite Hn, Hty, Hk. reflexivity. Qed.

(** X22. A complete value token met in an object with a pending key is
    stored under that key, decoded by [parseTokenValue], whatever was under
    the key before; the key is then cleared, and what the object gives for
    every other key is unchanged. *)
Theorem X22_value_is_stored_under_the_pending_key p f rest n token t' :
  Running p -> started p = true -> stack p = f :: rest ->
  heap p !! FrameNode f = Some n -> NodeTy n = ObjectNode ->
  CurrentKey f <> EmptyString ->
  NextToken (tokenizer p) = (token, t') ->
  Completed token = true -> isValueTy (TokenTy token) = true ->
  exists p1 g,
    processStep p = (Continue, p1)
    /\ getFromNode (heap p1) (Some (FrameNode f)) [CurrentKey f]
       = Ok (parseTokenValue token)
    /\ (forall key, key <> CurrentKey f ->
          getFromNode (heap p1) (Some (FrameNode f)) [key]
          = getFromNode (heap p) (Some (FrameNode f)) [key])
    /\ stack p1 = g :: rest /\ FrameNode g = FrameNode f /\ CurrentKey g = EmptyString.
Proof.
  intros Hrun Hst Hs Hn Hty Hkey Hnext Hc Hv.
  destruct (Running_inv p Hrun) as [_ (Hwf & _)].
  assert (isObjectAt (heap p) (FrameNode f) = true) as Ho
    by (apply isObjectAt_Some; eauto).
  assert (nonEmpty (CurrentKey f) = true) as Hne
    by (destruct (CurrentKey f); [contradiction|reflexivity]).
  rewrite (value_step p f rest token t' Hst Hs Hnext Hc Hv).
  unfold handleValue, alloc. cbn [heap setTokenizer].
  set (v := mkNode ValueNode (parseTokenValue token) ∅ [] true (Some (FrameNode f))).
  rewrite attach_object; [|apply isObjectAt_alloc; exact Ho|exact Hne].
  eexists. eexists. split; [reflexivity|]. cbn [heap stack].
  pose proof (lookup_lt_Some _ _ _ Hn) as Hlt.
  assert (alter (setChild (CurrentKey f) (length (heap p))) (FrameNode f) (heap p ++ [v])
            !! FrameNode f = Some (setChild (CurrentKey f) (length (heap p)) n)) as Hn1.
  { rewrite list_lookup_alter_eq, lookup_app_l by exact Hlt. rewrite Hn. reflexivity. }
  split; [|split; [|auto]].
  - apply (valueAt_get _ _ _ _ true).
    apply (valueAt_attach (heap p) (FrameNode f) (CurrentKey f) v Ho eq_refl).
  - intros key Hk.
    destruct (Children n !! key) as [child|] eqn:Ec.
    + rewrite (getFromNode_child _ _ _ _ child Hn1 Hty)
        by (simpl; rewrite lookup_insert_ne by congruence; exact Ec).
      rewrite (getFromNode_child _ _ _ _ child Hn Hty Ec).
      assert (child < length (heap p)) as Hchild
        by (destruct (Hwf _ n Hn) as [Hk' _]; eapply Hk'; exact Ec).
      destruct (lookup_lt_is_Some_2 _ _ Hchild) as [c Hcn].
      apply (yield_heapLe (heap p) _ child c); [|exact Hcn].
      eapply heapLe_trans; [apply (heapLe_alloc _ v)|].
      apply heapLe_alter. intros m. apply nodeLe_setChild.
    + rewrite (getFromNode_no_child _ _ _ _ Hn1 Hty)
        by (simpl; rewrite lookup_insert_ne by congruence; exact Ec).
      rewrite (getFromNode_no_child _ _ _ _ Hn Hty Ec). reflexivity.
Qed.

Lemma yield_alloc h v q : q < length h -> yield (h ++ [v]) q = yield h q.
Proof. intros Hq. unfold yield. rewrite lookup_app_l by exact Hq. reflexivity. Qed.

(** A node that no node points to changes nothing that can be read. *)
Lemma getFromNode_alloc h v :
  heapWf h -> forall keys q, q < length h ->
  getFromNode (h ++ [v]) (Some q) keys = getFromNode h (Some q) keys.
Proof.
  intros Hwf. induction keys as [|key ks IH]; intros q Hq.
  - apply yield_alloc. exact Hq.
  - cbn [getFromNode]. rewrite lookup_app_l by exact Hq.
    destruct (h !! q) as [n|] eqn:En; [|reflexivity].
    destruct (Hwf q n En) as [Hk Ha].
    assert (forall child, child < length h ->
              match ks with
              | [] => yield (h ++ [v]) child
              | _ :: _ => getFromNode (h ++ [v]) (Some child) ks
              end
              = match ks with
                | [] => yield h child
                | _ :: _ => getFromNode h (Some child) ks
                end) as Hstep.
    { intros child Hc. destruct ks; [apply yield_alloc; exact Hc|apply IH; exact Hc]. }
    destruct (NodeTy n); [| |reflexivity].
    + destruct (Children n !! key) as [child|] eqn:Ec; [|reflexivity].
      apply Hstep. eapply Hk. exact Ec.
    + destruct (Atoi key) as [index|]; [|reflexivity].
      destruct ((0 <=? index)%Z && (index <? Z.of_nat (length (Array n)))%Z);
        [|reflexivity].
      destruct (Array n !! Z.to_nat index) as [child|] eqn:Ec; [|reflexivity].
      apply Hstep. eapply Ha. exact Ec.
Qed.

(** X23. A complete value token met in an object with no pending key (no
    key was read, the key was used already, or the key is the empty text) is
    dropped: a node is made for it and stored nowhere, the stack is left as
    it is, and nothing that can be read changes. *)
Theorem X23_value_without_a_key_is_dropped p f rest n token t' :
  Running p -> started p = true -> stack p = f :: rest ->
  heap p !! FrameNode f = Some n -> NodeTy n = ObjectNode ->
  CurrentKey f = EmptyString ->
  NextToken (tokenizer p) = (token, t') ->
  Completed token = true -> isValueTy (TokenTy token) = true ->
  exists p1,
    processStep p = (Continue, p1)
    /\ stack p1 = stack p /\ root p1 = root p
    /\ (forall q keys, q < length (heap p) ->
          getFromNode (heap p1) (Some q) keys = getFromNode (heap p) (Some q) keys)
    /\ (forall keys, Get p1 keys = Get p keys).
Proof.
  intros Hrun Hst Hs Hn Hty Hkey Hnext Hc Hv.
  destruct (Running_inv p Hrun) as [_ (Hwf & Hroot & _)].
  rewrite (value_step p f rest token t' Hst Hs Hnext Hc Hv).
  unfold handleValue, alloc, attach. cbn [heap setTokenizer].
  set (v := mkNode ValueNode (parseTokenValue token) ∅ [] true (Some (FrameNode f))).
  assert (isArrayAt (heap p ++ [v]) (FrameNode f) = false) as Harr.
  { unfold isArrayAt, nodeTypeAt.
    rewrite lookup_app_l by (eapply lookup_lt_Some; exact Hn).
    rewrite Hn. simpl. rewrite Hty. reflexivity. }
  rewrite Hkey, Harr, andb_false_r. cbn [nonEmpty].
  eexists. split; [reflexivity|]. cbn [heap stack root setTokenizer].
  split; [symmetry; exact Hs|]. split; [reflexivity|].
  assert (forall q keys, q < length (heap p) ->
            getFromNode (heap p ++ [v]) (Some q) keys
            = getFromNode (heap p) (Some q) keys) as Hsame
    by (intros q keys Hq; apply getFromNode_alloc; assumption).
  split; [exact Hsame|].
  intros keys. unfold Get. cbn [root heap setTokenizer].
  destruct (root p) as [r|] eqn:Er; [|reflexivity].
  destruct keys as [|key ks]; [reflexivity|]. apply Hsame. apply Hroot. reflexivity.
Qed.

(** X24. A complete value token met in an array is appended: the array
    has one element more, and reading the array at the index that was its
    length gives the value decoded by [parseTokenValue]. *)
Theorem X24_value_is_appended_to_the_array p f rest n token t' :
  started p = true -> stack p = f :: rest ->
  heap p !! FrameNode f = Some n -> NodeTy n = ArrayNode ->
  NextToken (tokenizer p) = (token, t') ->
  Completed token = true -> isValueTy (TokenTy token) = true ->
  exists p1 n1 child,
    processStep p = (Continue, p1)
    /\ heap p1 !! FrameNode f = Some n1 /\ Array n1 = Array n ++ [child]
    /\ yield (heap p1) child = Ok (parseTokenValue token)
    /\ (forall key, Atoi key = Some (Z.of_nat (length (Array n))) ->
          getFromNode (heap p1) (Some (FrameNode f)) [key]
          = Ok (parseTokenValue token)).
Proof.
  intros Hst Hs Hn Hty Hnext Hc Hv.
  rewrite (value_step p f rest token t' Hst Hs Hnext Hc Hv).
  unfold handleValue, alloc, attach. cbn [heap setTokenizer].
  set (v := mkNode ValueNode (parseTokenValue token) ∅ [] true (Some (FrameNode f))).
  pose proof (lookup_lt_Some _ _ _ Hn) as Hlt.
  assert (nodeTypeAt (heap p ++ [v]) (FrameNode f) = Some ArrayNode) as Hat.
  { unfold nodeTypeAt. rewrite lookup_app_l by exact Hlt. rewrite Hn. simpl.
    rewrite Hty. reflexivity. }
  unfold isObjectAt, isArrayAt. rewrite Hat. cbn [andb].
  exists (mkParser t' (alter (appendElem (length (heap p))) (FrameNode f) (heap p ++ [v]))
            (root p)
            (mkFrame (FrameNode f) (CurrentKey f) (ExpectingKey f) false :: rest)
            (started p)),
         (appendElem (length (heap p)) n), (length (heap p)).
  split; [reflexivity|]. cbn [heap].
  assert (alter (appendElem (length (heap p))) (FrameNode f) (heap p ++ [v])
            !! FrameNode f = Some (appendElem (length (heap p)) n)) as Hn1.
  { rewrite list_lookup_alter_eq, lookup_app_l by exact Hlt. rewrite Hn. reflexivity. }
  assert (yield (alter (appendElem (length (heap p))) (FrameNode f) (heap p ++ [v]))
                (length (heap p)) = Ok (parseTokenValue token)) as Hy.
  { unfold yield. rewrite list_lookup_alter_ne by lia.
    rewrite list_lookup_middle by reflexivity. reflexivity. }
  split; [exact Hn1|]. split; [reflexivity|]. split; [exact Hy|].
  intros key Hkey. cbn [getFromNode]. rewrite Hn1. cbn [NodeTy appendElem Array].
  rewrite Hty, Hkey, length_app. cbn [length].
  replace ((0 <=? Z.of_nat (length (Array n)))%Z
           && (Z.of_nat (length (Array n)) <? Z.of_nat (length (Array n) + 1))%Z)
    with true
    by (symmetry; apply andb_true_intro; split; [apply Z.leb_le|apply Z.ltb_lt]; lia).
  rewrite Nat2Z.id, list_lookup_middle by reflexivity. exact Hy.
Qed.

(** ** Opening and closing a container *)

Definition isStartTy (ty : TokenType) : option NodeType :=
  match ty with
  | ObjectStart => Some ObjectNode
  | ArrayStart => Some ArrayNode
  | _ => None
  end.

Definition isEndTy (ty : TokenType) : bool :=
  match ty with ObjectEnd | ArrayEnd => true | _ => false end.

Lemma start_step p f rest token t' ty :
  started p = true -> stack p = f :: rest ->
  NextToken (tokenizer p) = (token, t') ->
  Completed token = true -> isStartTy (TokenTy token) = Some ty ->
  processStep p = (Continue, handleContainerStart ty (setTokenizer p t') f rest).
Proof.
  intros Hst Hs Hnext Hc Hty. unfold processStep. rewrite Hnext.
  unfold processToken, processCompleteToken. cbn [started stack setTokenizer].
  rewrite Hst, Hc, Hs.
  destruct (TokenTy token); try discriminate; injection Hty as <-; reflexivity.
Qed.

Lemma end_step p token t' :
  started p = true ->
  NextToken (tokenizer p) = (token, t') ->
  Completed token = true -> isEndTy (TokenTy token) = true ->
  processStep p = (Continue, handleEnd (setTokenizer p t')).
Proof.
  intros Hst Hnext Hc Hty. unfold processStep. rewrite Hnext.
  unfold processToken, processCompleteToken, handleObjectEnd, handleArrayEnd, handleEnd.
  cbn [started stack setTokenizer]. rewrite Hst, Hc.
  destruct (TokenTy token); try discriminate; destruct (stack p); reflexivity.
Qed.

Lemma yield_alter h g i q :
  (forall n, NodeTy (g n) = NodeTy n /\ Value (g n) = Value n) ->
  yield (alter g i h) q = yield h q.
Proof.
  intros Hg. unfold yield. rewrite list_lookup_alter.
  destruct (decide (i = q)) as [->|Hne]; [|reflexivity].
  destruct (h !! q) as [n|]; [|reflexivity]. simpl. unfold isValueNode.
  destruct (Hg n) as [-> ->]. reflexivity.
Qed.

(** A change of the completion mark changes nothing that can be read. *)
Lemma getFromNode_markCompleted h i : forall keys q,
  getFromNode (alter markCompleted i h) q keys = getFromNode h q keys.
Proof.
  assert (forall q, yield (alter markCompleted i h) q = yield h q) as Hy
    by (intros q; apply yield_alter; intros n; split; reflexivity).
  induction keys as [|key ks IH]; intros [q|]; try reflexivity.
  - apply Hy.
  - cbn [getFromNode].
    assert (forall child,
              match ks with
              | [] => yield (alter markCompleted i h) child
              | _ :: _ => getFromNode (alter markCompleted i h) (Some child) ks
              end
              = match ks with
                | [] => yield h child
                | _ :: _ => getFromNode h (Some child) ks
                end) as Hstep
      by (intros child; destruct ks; [apply Hy|apply IH]).
    rewrite list_lookup_alter. destruct (decide (i = q)) as [->|Hne].
    + destruct (h !! q) as [n|]; [|reflexivity]. simpl.
      destruct (NodeTy n); [| |reflexivity].
      * destruct (Children n !! key); [apply Hstep|reflexivity].
      * destruct (Atoi key) as [index|]; [|reflexivity].
        destruct (_ && _); [|reflexivity].
        destruct (Array n !! Z.to_nat index); [apply Hstep|reflexivity].
    + destruct (h !! q) as [n|]; [|reflexivity].
      destruct (NodeTy n); [| |reflexivity].
      * destruct (Children n !! key); [apply Hstep|reflexivity].
      * destruct (Atoi key) as [index|]; [|reflexivity].
        destruct (_ && _); [|reflexivity].
        destruct (Array n !! Z.to_nat index); [apply Hstep|reflexivity].
Qed.

(** X25. An opening brace or bracket met inside a container makes a new
    empty container, not completed, whose parent is the innermost open
    container, and pushes a frame for it.  In an object with a pending key
    the new container is stored under the key and the key is cleared; in an
    array it is appended; in an object with no pending key it is stored
    nowhere, though it is on the stack. *)
Theorem X25_container_is_opened p f rest n token t' ty :
  started p = true -> stack p = f :: rest ->
  heap p !! FrameNode f = Some n ->
  NextToken (tokenizer p) = (token, t') ->
  Completed token = true -> isStartTy (TokenTy token) = Some ty ->
  let q := length (heap p) in
  exists p1 g n1,
    processStep p = (Continue, p1)
    /\ stack p1 = firstFrame ty q :: g :: rest /\ FrameNode g = FrameNode f
    /\ heap p1 !! q = Some (mkNode ty GoNil ∅ [] false (Some (FrameNode f)))
    /\ heap p1 !! FrameNode f = Some n1
    /\ match NodeTy n with
       | ObjectNode =>
           if nonEmpty (CurrentKey f) then
             n1 = setChild (CurrentKey f) q n /\ CurrentKey g = EmptyString
             /\ getFromNode (heap p1) (Some (FrameNode f)) [CurrentKey f]
                = Ok (GoNode (Some q))
           else n1 = n /\ g = f
       | ArrayNode => n1 = appendElem q n /\ g = f
       | ValueNode => n1 = n /\ g = f
       end.
Proof.
  intros Hst Hs Hn Hnext Hc Hty q.
  assert (ty <> ValueNode) as Hne
    by (destruct (TokenTy token); try discriminate; injection Hty as <-; discriminate).
  rewrite (start_step p f rest token t' ty Hst Hs Hnext Hc Hty).
  unfold handleContainerStart, alloc, attach. cbn [heap setTokenizer]. fold q.
  set (new := mkNode ty GoNil ∅ [] false (Some (FrameNode f))).
  pose proof (lookup_lt_Some _ _ _ Hn) as Hlt.
  assert (nodeTypeAt (heap p ++ [new]) (FrameNode f) = Some (NodeTy n)) as Hat
    by (unfold nodeTypeAt; rewrite lookup_app_l by exact Hlt; rewrite Hn; reflexivity).
  assert (forall g, alter g (FrameNode f) (heap p ++ [new]) !! q = Some new) as Hq
    by (intros g; rewrite list_lookup_alter_ne by (unfold q; lia);
        apply list_lookup_middle; reflexivity).
  assert (forall g, alter g (FrameNode f) (heap p ++ [new]) !! FrameNode f = Some (g n))
    as Hf
    by (intros g; rewrite list_lookup_alter_eq, lookup_app_l by exact Hlt; rewrite Hn;
        reflexivity).
  assert ((heap p ++ [new]) !! q = Some new) as Hq0
    by (apply list_lookup_middle; reflexivity).
  assert ((heap p ++ [new]) !! FrameNode f = Some n) as Hf0
    by (rewrite lookup_app_l by exact Hlt; exact Hn).
  unfold isObjectAt, isArrayAt. rewrite Hat.
  destruct (NodeTy n) eqn:Ety; cbn [andb].
  - destruct (nonEmpty (CurrentKey f)) eqn:Ek.
    + eexists. exists (clearKey f). eexists.
      split; [reflexivity|]. cbn [heap stack].
      split; [reflexivity|]. split; [reflexivity|]. split; [apply Hq|].
      split; [apply Hf|]. split; [reflexivity|]. split; [reflexivity|].
      rewrite (getFromNode_child _ _ _ _ q (Hf (setChild (CurrentKey f) q)))
        by (simpl; first [exact Ety|apply lookup_insert_eq]).
      unfold yield. rewrite Hq. unfold isValueNode, new. simpl.
      destruct ty; [reflexivity|reflexivity|contradiction].
    + eexists. exists f. eexists. split; [reflexivity|]. cbn [heap stack].
      split; [reflexivity|]. split; [reflexivity|]. split; [exact Hq0|].
      split; [exact Hf0|]. split; reflexivity.
  - eexists. exists f. eexists. split; [reflexivity|]. cbn [heap stack].
    split; [reflexivity|]. split; [reflexivity|]. split; [apply Hq|].
    split; [apply Hf|]. split; reflexivity.
  - eexists. exists f. eexists. split; [reflexivity|]. cbn [heap stack].
    split; [reflexivity|]. split; [reflexivity|]. split; [exact Hq0|].
    split; [exact Hf0|]. split; reflexivity.
Qed.

(** X26. A closing brace or bracket closes the innermost open container
    whatever its kind: a bracket closes an object and a brace an array.  The
    container is marked completed and its frame is popped; no other node
    changes, and nothing that can be read changes. *)
Theorem X26_closer_closes_the_innermost_container p f rest token t' :
  Running p -> started p = true -> stack p = f :: rest ->
  NextToken (tokenizer p) = (token, t') ->
  Completed token = true -> isEndTy (TokenTy token) = true ->
  exists p1,
    processStep p = (Continue, p1)
    /\ heap p1 = alter markCompleted (FrameNode f) (heap p)
    /\ (exists n, heap p1 !! FrameNode f = Some n /\ NodeCompleted n = true)
    /\ FrameNode <$> stack p1 = FrameNode <$> rest
    /\ (IsCompleted p1 = true <-> rest = [])
    /\ (forall keys, Get p1 keys = Get p keys).
Proof.
  intros Hrun Hst Hs Hnext Hc Hty.
  rewrite (end_step p token t' Hst Hnext Hc Hty).
  unfold handleEnd. cbn [stack setTokenizer heap]. rewrite Hs.
  eexists. split; [reflexivity|]. cbn [heap stack root started setTokenizer].
  split; [reflexivity|].
  destruct (Running_treeInv p Hrun) as (_ & Hchain & _).
  destruct (Hchain 0 (FrameNode f)) as (n & Hn & _);
    [rewrite Hs; reflexivity|].
  split.
  { exists (markCompleted n). rewrite list_lookup_alter_eq, Hn. split; reflexivity. }
  split.
  { destruct rest as [|g below]; [reflexivity|]. cbn [fmap list_fmap]. f_equal.
    destruct (isObjectAt _ _); [reflexivity|]. destruct (isArrayAt _ _); reflexivity. }
  split.
  { unfold IsCompleted. cbn [stack started setTokenizer]. rewrite Hst.
    destruct rest; split; intros H; try reflexivity; discriminate. }
  intros keys. unfold Get. cbn [root heap setTokenizer].
  destruct (root p); [|reflexivity]. destruct keys; [reflexivity|].
  apply getFromNode_markCompleted.
Qed.

(** ** Keys, separators and stray bytes *)

Definition isSeparatorTy (ty : TokenType) : bool :=
  match ty with ObjectKey | Colon | Comma => true | _ => false end.

(** X27. A key, a colon and a comma never change the tree, the root or the
    depth of the stack.  In an object a key token sets the pending key to
    its text without the quotes and a comma clears the pending key; a colon
    leaves it.  In an array none of them changes it. *)
Theorem X27_keys_and_separators_keep_the_tree p f rest token t' :
  started p = true -> stack p = f :: rest ->
  NextToken (tokenizer p) = (token, t') ->
  Completed token = true -> isSeparatorTy (TokenTy token) = true ->
  exists p1 g,
    processStep p = (Continue, p1)
    /\ heap p1 = heap p /\ root p1 = root p
    /\ stack p1 = g :: rest /\ FrameNode g = FrameNode f
    /\ CurrentKey g
       = if isObjectAt (heap p) (FrameNode f) then
           match TokenTy token with
           | ObjectKey => stripQuotes (Content token)
           | Comma => EmptyString
           | _ => CurrentKey f
           end
         else CurrentKey f.
Proof.
  intros Hst Hs Hnext Hc Hty. unfold processStep. rewrite Hnext.
  unfold processToken, processCompleteToken, handleObjectKey, handleColon, handleComma,
    withTop.
  cbn [started stack heap root setTokenizer]. rewrite Hst, Hc, Hs.
  destruct (TokenTy token); try discriminate; cbn [negb];
    destruct (isObjectAt (heap p) (FrameNode f)); try destruct (isArrayAt _ _);
    first
      [ eexists; eexists; (split; [reflexivity|]); cbn [heap root stack];
        repeat split; reflexivity
      | exists (setTokenizer p t'), f; (split; [reflexivity|]);
        cbn [heap root stack setTokenizer]; rewrite ?Hs; repeat split; reflexivity ].
Qed.



(** ** Incomplete tokens *)

(** X28. Only a string under a key is shown before it is complete: on an
    incomplete token the loop stops, and unless the token is a String and
    the innermost open container is an object with a pending key, nothing
    but the tokenizer changes.  An unfinished number, literal or key, and an
    unfinished string in an array, leave the tree as it is. *)
Theorem X28_partial_values_are_strings_under_a_key p token t' :
  Running p -> started p = true ->
  NextToken (tokenizer p) = (token, t') -> Completed token = false ->
  (TokenTy token = String ->
   forall f rest, stack p = f :: rest ->
     isObjectAt (heap p) (FrameNode f) = false \/ CurrentKey f = EmptyString) ->
  processStep p = (Break, setTokenizer p t')
  /\ forall keys, Get (processStep p).2 keys = Get p keys.
Proof.
  intros Hrun Hst Hnext Hc Hside.
  destruct (Running_inv p Hrun) as [(Hinv & _) _].
  pose proof (NextToken_facts _ Hinv) as (_ & _ & _ & _ & _ & Hinc).
  rewrite Hnext in Hinc. simpl in Hinc. destruct (Hinc Hc) as [_ Hres].
  assert (processStep p = (Break, setTokenizer p t')) as Hstep.
  { unfold processStep. rewrite Hnext. unfold processToken, processIncompleteToken.
    cbn [started stack heap setTokenizer]. rewrite Hst, Hc.
    destruct (TokenTy token) eqn:Ety; try discriminate; cbn [negb];
      destruct (stack p) as [|f rest] eqn:Es; try reflexivity.
    destruct (Hside eq_refl f rest eq_refl) as [Ho|Hk].
    - rewrite Ho. reflexivity.
    - rewrite Hk, andb_false_r. reflexivity. }
  split; [exact Hstep|]. rewrite Hstep. reflexivity.
Qed.

End Parser.

(** A float parser that rejects every text: with it the examples whose
    numbers are integers run as they do with [strconv.ParseFloat]. *)
Definition rejectFloat : string -> option float := fun _ => None.

Definition feed (chunks : list string) : option StreamJSONParser :=
  AppendAll rejectFloat 100 NewStreamJSONParser chunks.

Definition query (chunks : list string) (keys : list string) : option Result :=
  match feed chunks with Some p => Some (Get p keys) | None => None end.

Example basic_scenario :
  query [js "{'name':'John','age':30}"] ["name"%string] = Some (Ok (GoString "John"))
  /\ query [js "{'name':'John','age':30}"] ["age"%string] = Some (Ok (GoInt64 30))
  /\ (IsCompleted <$> feed [js "{'name':'John','age':30}"]) = Some true.
Proof. vm_compute. auto. Qed.

(** ** The scenarios of the specification *)

Example array_scenario :
  query [js "[{'id':1,'name':'Alice'},{'id':2,'name':'Bob'}]"] ["0"; "name"]%string
  = Some (Ok (GoString "Alice"))
  /\ query [js "[{'id':1,'name':'Alice'},{'id':2,'name':'Bob'}]"] ["1"; "name"]%string
     = Some (Ok (GoString "Bob")).
Proof. vm_compute. auto. Qed.

Example partial_string_scenario :
  query [js "{'message':"] ["message"%string] = Some (Ok GoNil)
  /\ query [js "{'message':"; js "'Hel"] ["message"%string] = Some (Ok (GoString "Hel"))
  /\ query [js "{'message':"; js "'Hel"; js "lo'}"] ["message"%string]
     = Some (Ok (GoString "Hello"))
  /\ (IsCompleted <$> feed [js "{'message':"; js "'Hel"; js "lo'}"]) = Some true.
Proof. vm_compute. auto. Qed.

(** The number of [{'value':12] then [3.45}] is hidden until the brace ends
    it, and is then whatever the float parser reads in [123.45]. *)
Example partial_number_scenario (ParseFloat : string -> option float) :
  ((fun p => Get p ["value"%string])
     <$> AppendAll ParseFloat 100 NewStreamJSONParser [js "{'value':12"])
  = Some (Ok GoNil)
  /\ ((fun p => Get p ["value"%string])
        <$> AppendAll ParseFloat 100 NewStreamJSONParser [js "{'value':12"; "3.45}"%string])
     = Some (Ok (match ParseFloat "123.45" with
                 | Some f => GoFloat64 f
                 | None => GoString "123.45"
                 end)).
Proof. split; vm_compute; reflexivity. Qed.

(** ** Instances *)


(** C8 at the token [42]. *)
Lemma C8_witness :
  let token := mkToken 0 2 Number "42" true in
  TokenTy token = Number
  /\ parseTokenValue rejectFloat token = decodeNumber rejectFloat (Content token)
  /\ parseTokenValue rejectFloat token = GoInt64 42.
Proof.
  intros token. split; [reflexivity|].
  split; [apply (C8_number_decoding rejectFloat token); reflexivity|].
  vm_compute. reflexivity.
Defined.


(** The parser after [{'a':[1,2]}]. *)
Definition sampleParser : StreamJSONParser :=
  default NewStreamJSONParser (feed [js "{'a':[1,2]}"]).

(** C7 at that parser and the path [a], [5]. *)
Lemma C7_witness :
  Reachable rejectFloat sampleParser
  /\ (exists v, Get sampleParser ["a"; "5"]%string = Ok v)
  /\ Get sampleParser [] = Ok GoNil.
Proof.
  assert (Reachable rejectFloat sampleParser) as H.
  { apply (reach_append rejectFloat NewStreamJSONParser 100 (js "{'a':[1,2]}"));
      [apply reach_new|vm_compute; reflexivity]. }
  split; [exact H|].
  destruct (C7_get_never_raises rejectFloat sampleParser ["a"; "5"]%string H)
    as (Hv & Hnil & _).
  split; [exact Hv|exact Hnil].
Defined.

(** C4 at that parser, then garbage, a brace and a second document. *)
Lemma C4_witness :
  Reachable rejectFloat sampleParser /\ IsCompleted sampleParser = true
  /\ exists fuel p',
       AppendAll rejectFloat fuel sampleParser ["garbage"; "}"; js "{'a':2}"]%string = Some p'
       /\ IsCompleted p' = true
       /\ heap p' = heap sampleParser /\ root p' = root sampleParser
       /\ forall keys, Get p' keys = Get sampleParser keys.
Proof.
  assert (Reachable rejectFloat sampleParser) as H.
  { apply (reach_append rejectFloat NewStreamJSONParser 100 (js "{'a':[1,2]}"));
      [apply reach_new|vm_compute; reflexivity]. }
  split; [exact H|]. split; [vm_compute; reflexivity|].
  apply (C4_completion_is_stable rejectFloat sampleParser); [exact H|vm_compute; reflexivity].
Defined.



(** ** Instances of the further properties *)

(** The tokenizer after [n] calls of [NextToken] on the text. *)
Definition scans (n : nat) (text : string) : StreamJSONTokenizer :=
  Nat.iter n (fun t => (NextToken t).2) (tokAppend NewStreamJSONTokenizer text).

Lemma scans_Scanning n text : Scanning (scans n text).
Proof.
  induction n as [|n IH]; [apply scan_append, scan_new|].
  unfold scans. simpl. apply scan_next. exact IH.
Qed.

(** The parser after [n] turns of the loop on the text. *)
Definition steps (n : nat) (text : string) : StreamJSONParser :=
  Nat.iter n (fun p => (processStep rejectFloat p).2)
    (setTokenizer NewStreamJSONParser (tokAppend NewStreamJSONTokenizer text)).

Lemma steps_Running n text : Running rejectFloat (steps n text).
Proof.
  induction n as [|n IH];
    [apply (run_chunk rejectFloat NewStreamJSONParser), run_new|].
  unfold steps. simpl. apply run_step. exact IH.
Qed.


(** X2 at the fourth token of [{'a': tru], the start of a literal. *)
Lemma X2_witness :
  let t := scans 3 (js "{'a': tru") in
  let token := (NextToken t).1 in
  let t' := (NextToken t).2 in
  Scanning t /\ NextToken t = (token, t') /\ Completed token = false
  /\ position t' = String.length (buffer t) /\ lastToken t' = Some token.
Proof.
  intros t token t'.
  assert (Scanning t) as H by apply scans_Scanning.
  assert (NextToken t = (token, t')) as Hn by (vm_compute; reflexivity).
  assert (Completed token = false) as Hc by (vm_compute; reflexivity).
  destruct (X2_incomplete_only_at_end_of_buffer t token t' H Hn) as [Hi _].
  destruct (Hi Hc) as (Hp & _ & Hl & _).
  repeat (split; [assumption|]). assumption.
Defined.

(** X3 at the same token. *)
Lemma X3_witness :
  let t := scans 3 (js "{'a': tru") in
  let token := (NextToken t).1 in
  let t' := (NextToken t).2 in
  Scanning t /\ NextToken t = (token, t') /\ Completed token = false
  /\ NextToken t' = (token, t').
Proof.
  intros t token t'.
  assert (Scanning t) as H by apply scans_Scanning.
  assert (NextToken t = (token, t')) as Hn by (vm_compute; reflexivity).
  assert (Completed token = false) as Hc by (vm_compute; reflexivity).
  destruct (X3_incomplete_token_is_returned_again t token t' H Hn Hc) as [Ha _].
  repeat (split; [assumption|]). assumption.
Defined.

(** X4 at a new parser given [12]: the number may go on. *)
Lemma X4_witness :
  let p := steps 0 "12" in
  Running rejectFloat p /\ started p = false
  /\ Completed (NextToken (tokenizer p)).1 = false
  /\ processTokens rejectFloat 1000 p = None.
Proof.
  intros p.
  assert (Running rejectFloat p) as H by apply steps_Running.
  assert (started p = false) as Hs by reflexivity.
  assert (Completed (NextToken (tokenizer p)).1 = false) as Hc by (vm_compute; reflexivity).
  repeat (split; [assumption|]).
  apply (X4_loop_never_ends_on_incomplete_token_before_root rejectFloat p H Hs Hc).
Defined.

(** X5 at the parser that has read [{'message':] and is given [12]. *)
Lemma X5_witness :
  let p := steps 3 (js "{'message':") in
  Running rejectFloat p /\ started p = true
  /\ exists p', Append rejectFloat
                  (2 * (String.length (buffer (tokenizer p)) + String.length "12"
                        - position (tokenizer p)) + 2) p "12" = Some p'
                /\ started p' = true.
Proof.
  intros p.
  assert (Running rejectFloat p) as H by apply steps_Running.
  assert (started p = true) as Hs by (vm_compute; reflexivity).
  destruct (X5_append_returns_once_started rejectFloat p "12" H Hs) as [_ Ha].
  repeat (split; [assumption|]). assumption.
Defined.

(** X6 at two spaces and a number. *)
Lemma X6_witness :
  let t := scans 0 "  12 " in
  let token := (NextToken t).1 in
  let t' := (NextToken t).2 in
  Scanning t /\ lastToken t = None /\ NextToken t = (token, t')
  /\ TokenTy token <> EOF /\ position t <= TokenStart token
  /\ exists c, get (TokenStart token) (buffer t) = Some c /\ isWhitespace c = false.
Proof.
  intros t token t'.
  assert (Scanning t) as H by apply scans_Scanning.
  assert (lastToken t = None) as Hl by reflexivity.
  assert (NextToken t = (token, t')) as Hn by (vm_compute; reflexivity).
  assert (TokenTy token <> EOF) as Hne by (vm_compute; discriminate).
  destruct (X6_whitespace_is_skipped t token t' H Hl Hn) as (_ & _ & Hs).
  destruct (Hs Hne) as (Hp & Hc & _).
  repeat (split; [assumption|]). assumption.
Defined.

(** X7 at the literal of [true ]. *)
Lemma X7_witness :
  let t := scans 0 "true " in
  let token := (NextToken t).1 in
  let t' := (NextToken t).2 in
  Scanning t /\ NextToken t = (token, t') /\ TokenTy token = Bool
  /\ Completed token = true
  /\ ((Content token = "true"%string /\ parseTokenValue rejectFloat token = GoBool true)
      \/ (Content token = "false"%string
          /\ parseTokenValue rejectFloat token = GoBool false)).
Proof.
  intros t token t'.
  assert (Scanning t) as H by apply scans_Scanning.
  assert (NextToken t = (token, t')) as Hn by (vm_compute; reflexivity).
  assert (TokenTy token = Bool) as Hty by (vm_compute; reflexivity).
  assert (Completed token = true) as Hc by (vm_compute; reflexivity).
  destruct (X7_literal_tokens_are_the_words rejectFloat t token t' H Hn) as [Hb _].
  specialize (Hb Hty). rewrite Hc in Hb.
  repeat (split; [assumption|]). assumption.
Defined.

(** X8 at the quoted text [ab]. *)
Lemma X8_witness :
  let t := scans 0 (quoted "ab") in
  let token := (NextToken t).1 in
  let t' := (NextToken t).2 in
  Scanning t /\ lastToken t = None
  /\ buffer t = ("" +:+ quoted "ab" +:+ "")%string /\ position t = String.length ""
  /\ plainText "ab" = true /\ NextToken t = (token, t')
  /\ Content token = quoted "ab" /\ stripQuotes (Content token) = "ab"%string.
Proof.
  intros t token t'.
  assert (Scanning t) as H by apply scans_Scanning.
  assert (lastToken t = None) as Hl by reflexivity.
  assert (buffer t = ("" +:+ quoted "ab" +:+ "")%string) as Hb by (vm_compute; reflexivity).
  assert (position t = String.length "") as Hp by reflexivity.
  assert (plainText "ab" = true) as Hpl by reflexivity.
  assert (NextToken t = (token, t')) as Hn by (vm_compute; reflexivity).
  destruct (X8_quoted_plain_text_round_trip rejectFloat t "" "ab" "" token t'
              H Hl Hb Hp Hpl Hn) as (_ & _ & Hc & Hs & _).
  repeat (split; [assumption|]). assumption.
Defined.

(** X9 at a string with an escaped quote in it. *)
Lemma X9_witness :
  let t := scans 0 (js "'a\'b' ") in
  let token := (NextToken t).1 in
  let t' := (NextToken t).2 in
  Scanning t /\ NextToken t = (token, t')
  /\ isStringTy (TokenTy token) = true /\ Completed token = true
  /\ TokenTy token = String
  /\ parseTokenValue rejectFloat token = GoString (js "a\'b").
Proof.
  intros t token t'.
  assert (Scanning t) as H by apply scans_Scanning.
  assert (NextToken t = (token, t')) as Hn by (vm_compute; reflexivity).
  assert (isStringTy (TokenTy token) = true) as Hty by (vm_compute; reflexivity).
  assert (Completed token = true) as Hc by (vm_compute; reflexivity).
  assert (TokenTy token = String) as Hs by (vm_compute; reflexivity).
  destruct (X9_string_value_is_the_raw_body rejectFloat t token t' H Hn Hty Hc)
    as (_ & _ & _ & Hv).
  repeat (split; [assumption|]). rewrite (Hv Hs). vm_compute. reflexivity.
Defined.

(** X10 at the number of [-12e5 ]. *)
Lemma X10_witness :
  let t := scans 0 "-12e5 " in
  let token := (NextToken t).1 in
  let t' := (NextToken t).2 in
  Scanning t /\ NextToken t = (token, t') /\ TokenTy token = Number
  /\ exists c, get 0 (Content token) = Some c /\ (c = "-"%char \/ isDigit c = true).
Proof.
  intros t token t'.
  assert (Scanning t) as H by apply scans_Scanning.
  assert (NextToken t = (token, t')) as Hn by (vm_compute; reflexivity).
  assert (TokenTy token = Number) as Hty by (vm_compute; reflexivity).
  destruct (X10_number_token_bytes t token t' H Hn Hty) as [Hf _].
  repeat (split; [assumption|]). assumption.
Defined.

(** The parser that has read [{'a':[1,] and the one that has then been given
    [2]}]. *)
Definition openArray : StreamJSONParser := steps 7 (js "{'a':[1,").

Definition closedArray : StreamJSONParser :=
  default openArray (AppendAll rejectFloat 100 openArray [js "2]}"]).

(** X11 at the array node of [openArray]. *)
Lemma X11_witness :
  let n := default (NewNode ValueNode) (heap openArray !! 1) in
  AppendAll rejectFloat 100 openArray [js "2]}"] = Some closedArray
  /\ heap openArray !! 1 = Some n
  /\ exists n', heap closedArray !! 1 = Some n'
       /\ NodeTy n' = NodeTy n /\ exists more, Array n' = Array n ++ more.
Proof.
  intros n.
  assert (AppendAll rejectFloat 100 openArray [js "2]}"] = Some closedArray) as Ha
    by (vm_compute; reflexivity).
  assert (heap openArray !! 1 = Some n) as Hn by (vm_compute; reflexivity).
  destruct (X11_the_tree_only_grows rejectFloat 100 openArray [js "2]}"] closedArray 1 n
              Ha Hn) as (n' & Hn' & Hty & _ & _ & _ & Harr & _).
  repeat (split; [assumption|]). exists n'. repeat (split; [assumption|]). exact Harr.
Defined.

(** X12 at [openArray]: the array over the object. *)
Lemma X12_witness :
  Running rejectFloat openArray
  /\ NoDup (FrameNode <$> stack openArray)
  /\ forall q n, heap openArray !! q = Some n -> NodeTy n <> ValueNode ->
       NodeCompleted n = false -> exists f, f ∈ stack openArray /\ FrameNode f = q.
Proof.
  assert (Running rejectFloat openArray) as H by apply steps_Running.
  destruct (X12_stack_is_the_path_of_open_containers rejectFloat openArray H)
    as (_ & Ho & Hd).
  split; [exact H|]. split; [exact Hd|exact Ho].
Defined.

(** X13 at [closedArray]. *)
Lemma X13_witness :
  Running rejectFloat closedArray
  /\ (IsCompleted closedArray = true <->
      exists r n, root closedArray = Some r /\ heap closedArray !! r = Some n
                  /\ NodeCompleted n = true).
Proof.
  assert (Running rejectFloat closedArray) as H.
  { apply (Running_tokens rejectFloat 100
             (setTokenizer openArray (tokAppend (tokenizer openArray) (js "2]}")))).
    - apply run_chunk. apply steps_Running.
    - vm_compute. reflexivity. }
  destruct (X13_completed_iff_root_closed rejectFloat closedArray H) as (_ & _ & Hc).
  split; [exact H|exact Hc].
Defined.

(** X14 at [openArray] and the rest of the text. *)
Lemma X14_witness :
  Running rejectFloat openArray /\ root openArray = Some 0
  /\ AppendAll rejectFloat 100 openArray [js "2]}"] = Some closedArray
  /\ root closedArray = Some 0 /\ started closedArray = true.
Proof.
  assert (Running rejectFloat openArray) as H by apply steps_Running.
  assert (root openArray = Some 0) as Hr by (vm_compute; reflexivity).
  assert (AppendAll rejectFloat 100 openArray [js "2]}"] = Some closedArray) as Ha
    by (vm_compute; reflexivity).
  destruct (X14_root_is_never_replaced rejectFloat 100 [js "2]}"] openArray closedArray 0
              H Hr Ha) as (Hr' & Hs & _).
  repeat (split; [assumption|]). assumption.
Defined.

(** X15 at the first element of the array of [openArray]. *)
Lemma X15_witness :
  let n := default (NewNode ValueNode) (heap openArray !! 1) in
  Running rejectFloat openArray
  /\ AppendAll rejectFloat 100 openArray [js "2]}"] = Some closedArray
  /\ heap openArray !! 1 = Some n /\ NodeTy n = ArrayNode
  /\ Atoi "0" = Some 0%Z /\ (0 <= 0 < Z.of_nat (length (Array n)))%Z
  /\ getFromNode (heap closedArray) (Some 1) ["0"%string]
     = getFromNode (heap openArray) (Some 1) ["0"%string].
Proof.
  intros n.
  assert (Running rejectFloat openArray) as H by apply steps_Running.
  assert (AppendAll rejectFloat 100 openArray [js "2]}"] = Some closedArray) as Ha
    by (vm_compute; reflexivity).
  assert (heap openArray !! 1 = Some n) as Hn by (vm_compute; reflexivity).
  assert (NodeTy n = ArrayNode) as Hty by (vm_compute; reflexivity).
  assert (Atoi "0" = Some 0%Z) as Hk by (vm_compute; reflexivity).
  assert (0 <= 0 < Z.of_nat (length (Array n)))%Z as Hi by (vm_compute; split; congruence).
  destruct (X15_array_elements_never_change rejectFloat 100 [js "2]}"] openArray
              closedArray 1 n "0" 0%Z H Ha Hn Hty Hk Hi) as (He & _).
  repeat (split; [assumption|]). exact He.
Defined.

(** X16 at the root of [openArray]. *)
Lemma X16_witness :
  let n := default (NewNode ValueNode) (heap openArray !! 0) in
  Running rejectFloat openArray /\ heap openArray !! 0 = Some n
  /\ forall key child, Children n !! key = Some child ->
       exists m, heap openArray !! child = Some m /\ Parent m = Some 0.
Proof.
  intros n.
  assert (Running rejectFloat openArray) as H by apply steps_Running.
  assert (heap openArray !! 0 = Some n) as Hn by (vm_compute; reflexivity).
  destruct (X16_nodes_are_well_formed rejectFloat openArray 0 n H Hn) as (_ & Hk & _).
  repeat (split; [assumption|]). exact Hk.
Defined.

(** X17 at [openArray]: the path [a], then [0]. *)
Lemma X17_witness :
  Running rejectFloat openArray
  /\ Get openArray ["a"%string] = Ok (GoNode (Some 1))
  /\ Get openArray (["a"%string] ++ ["0"%string])
     = getFromNode (heap openArray) (Some 1) ["0"%string].
Proof.
  assert (Running rejectFloat openArray) as H by apply steps_Running.
  assert (Get openArray ["a"%string] = Ok (GoNode (Some 1))) as Hg
    by (vm_compute; reflexivity).
  destruct (X17_get_composes rejectFloat openArray ["a"%string] ["0"%string] 1 H Hg)
    as [Hc _].
  repeat (split; [assumption|]). exact Hc.
Defined.

(** X18 at the member [k : v]. *)
Lemma X18_witness :
  plainText "k" = true /\ plainText "v" = true /\ "k"%string <> EmptyString /\ 6 <= 6
  /\ exists p', Append rejectFloat 6 NewStreamJSONParser (flatObject "k" "v") = Some p'
       /\ Get p' ["k"%string] = Ok (GoString "v") /\ IsCompleted p' = true.
Proof.
  assert (plainText "k" = true) as Hk by reflexivity.
  assert (plainText "v" = true) as Hv by reflexivity.
  assert ("k"%string <> EmptyString) as Hne by discriminate.
  assert (6 <= 6) as Hf by lia.
  destruct (X18_flat_object_round_trip rejectFloat "k" "v" 6 Hk Hv Hne Hf)
    as (p' & Ha & Hg & _ & Hc).
  repeat (split; [assumption|]). exists p'. repeat (split; [assumption|]). exact Hc.
Defined.

(** X19 at the element [v]. *)
Lemma X19_witness :
  plainText "v" = true /\ 4 <= 4
  /\ exists p', Append rejectFloat 4 NewStreamJSONParser (flatArray "v") = Some p'
       /\ Get p' ["0"%string] = Ok (GoString "v") /\ IsCompleted p' = true.
Proof.
  assert (plainText "v" = true) as Hv by reflexivity.
  assert (4 <= 4) as Hf by lia.
  destruct (X19_flat_array_round_trip rejectFloat "v" 4 Hv Hf) as (p' & Ha & Hg & _ & Hc).
  repeat (split; [assumption|]). exists p'. repeat (split; [assumption|]). exact Hc.
Defined.

(** [openArray] with the flags of every frame set. *)
Definition openArrayFlagged : StreamJSONParser :=
  mkParser (tokenizer openArray) (heap openArray) (root openArray)
           (map (fun f => mkFrame (FrameNode f) (CurrentKey f) true true) (stack openArray))
           (started openArray).

(** X20 at [openArray] and [openArrayFlagged]. *)
Lemma X20_witness :
  eraseParser openArray = eraseParser openArrayFlagged
  /\ match Append rejectFloat 100 openArray (js "2]}"),
           Append rejectFloat 100 openArrayFlagged (js "2]}") with
     | Some a', Some b' =>
         eraseParser a' = eraseParser b'
         /\ IsCompleted a' = IsCompleted b'
         /\ forall keys, Get a' keys = Get b' keys
     | None, None => True
     | _, _ => False
     end.
Proof.
  assert (eraseParser openArray = eraseParser openArrayFlagged) as H
    by (vm_compute; reflexivity).
  split; [exact H|].
  apply (X20_frame_flags_are_never_read rejectFloat 100 openArray openArrayFlagged
           (js "2]}") H).
Defined.


(** X22 at the value of [{'a':1}]. *)
Lemma X22_witness :
  let p := steps 3 (js "{'a':1}") in
  let f := mkFrame 0 "a" false true in
  let n := NewNode ObjectNode in
  let token := (NextToken (tokenizer p)).1 in
  let t' := (NextToken (tokenizer p)).2 in
  Running rejectFloat p /\ started p = true /\ stack p = [f]
  /\ heap p !! FrameNode f = Some n /\ NodeTy n = ObjectNode
  /\ CurrentKey f <> EmptyString
  /\ NextToken (tokenizer p) = (token, t')
  /\ Completed token = true /\ isValueTy (TokenTy token) = true
  /\ exists p1, processStep rejectFloat p = (Continue, p1)
       /\ getFromNode (heap p1) (Some (FrameNode f)) [CurrentKey f]
          = Ok (parseTokenValue rejectFloat token).
Proof.
  intros p f n token t'.
  assert (Running rejectFloat p) as H by apply steps_Running.
  assert (started p = true) as Hst by (vm_compute; reflexivity).
  assert (stack p = [f]) as Hs by (vm_compute; reflexivity).
  assert (heap p !! FrameNode f = Some n) as Hn by (vm_compute; reflexivity).
  assert (NodeTy n = ObjectNode) as Hty by reflexivity.
  assert (CurrentKey f <> EmptyString) as Hk by discriminate.
  assert (NextToken (tokenizer p) = (token, t')) as Hnext by (vm_compute; reflexivity).
  assert (Completed token = true) as Hc by (vm_compute; reflexivity).
  assert (isValueTy (TokenTy token) = true) as Hv by (vm_compute; reflexivity).
  destruct (X22_value_is_stored_under_the_pending_key rejectFloat p f [] n token t'
              H Hst Hs Hn Hty Hk Hnext Hc Hv) as (p1 & g & Hp & Hg & _).
  repeat (split; [assumption|]). exists p1. split; assumption.
Defined.

(** X23 at the value of [{1}]. *)
Lemma X23_witness :
  let p := steps 1 "{1}" in
  let f := mkFrame 0 "" true false in
  let n := NewNode ObjectNode in
  let token := (NextToken (tokenizer p)).1 in
  let t' := (NextToken (tokenizer p)).2 in
  Running rejectFloat p /\ started p = true /\ stack p = [f]
  /\ heap p !! FrameNode f = Some n /\ NodeTy n = ObjectNode
  /\ CurrentKey f = EmptyString
  /\ NextToken (tokenizer p) = (token, t')
  /\ Completed token = true /\ isValueTy (TokenTy token) = true
  /\ exists p1, processStep rejectFloat p = (Continue, p1)
       /\ forall keys, Get p1 keys = Get p keys.
Proof.
  intros p f n token t'.
  assert (Running rejectFloat p) as H by apply steps_Running.
  assert (started p = true) as Hst by (vm_compute; reflexivity).
  assert (stack p = [f]) as Hs by (vm_compute; reflexivity).
  assert (heap p !! FrameNode f = Some n) as Hn by (vm_compute; reflexivity).
  assert (NodeTy n = ObjectNode) as Hty by reflexivity.
  assert (CurrentKey f = EmptyString) as Hk by reflexivity.
  assert (NextToken (tokenizer p) = (token, t')) as Hnext by (vm_compute; reflexivity).
  assert (Completed token = true) as Hc by (vm_compute; reflexivity).
  assert (isValueTy (TokenTy token) = true) as Hv by (vm_compute; reflexivity).
  destruct (X23_value_without_a_key_is_dropped rejectFloat p f [] n token t'
              H Hst Hs Hn Hty Hk Hnext Hc Hv) as (p1 & Hp & _ & _ & _ & Hg).
  repeat (split; [assumption|]). exists p1. split; assumption.
Defined.

(** X24 at the element of [[1]]. *)
Lemma X24_witness :
  let p := steps 1 "[1]" in
  let f := mkFrame 0 "" false true in
  let n := NewNode ArrayNode in
  let token := (NextToken (tokenizer p)).1 in
  let t' := (NextToken (tokenizer p)).2 in
  started p = true /\ stack p = [f]
  /\ heap p !! FrameNode f = Some n /\ NodeTy n = ArrayNode
  /\ NextToken (tokenizer p) = (token, t')
  /\ Completed token = true /\ isValueTy (TokenTy token) = true
  /\ exists p1 n1 child, processStep rejectFloat p = (Continue, p1)
       /\ heap p1 !! FrameNode f = Some n1 /\ Array n1 = Array n ++ [child].
Proof.
  intros p f n token t'.
  assert (started p = true) as Hst by (vm_compute; reflexivity).
  assert (stack p = [f]) as Hs by (vm_compute; reflexivity).
  assert (heap p !! FrameNode f = Some n) as Hn by (vm_compute; reflexivity).
  assert (NodeTy n = ArrayNode) as Hty by reflexivity.
  assert (NextToken (tokenizer p) = (token, t')) as Hnext by (vm_compute; reflexivity).
  assert (Completed token = true) as Hc by (vm_compute; reflexivity).
  assert (isValueTy (TokenTy token) = true) as Hv by (vm_compute; reflexivity).
  destruct (X24_value_is_appended_to_the_array rejectFloat p f [] n token t'
              Hst Hs Hn Hty Hnext Hc Hv) as (p1 & n1 & child & Hp & Hn1 & Ha & _).
  repeat (split; [assumption|]). exists p1, n1, child.
  repeat (split; [assumption|]). exact Ha.
Defined.

(** X25 at the bracket of [{'a':[1]}]. *)
Lemma X25_witness :
  let p := steps 3 (js "{'a':[1]}") in
  let f := mkFrame 0 "a" false true in
  let n := NewNode ObjectNode in
  let token := (NextToken (tokenizer p)).1 in
  let t' := (NextToken (tokenizer p)).2 in
  started p = true /\ stack p = [f]
  /\ heap p !! FrameNode f = Some n
  /\ NextToken (tokenizer p) = (token, t')
  /\ Completed token = true /\ isStartTy (TokenTy token) = Some ArrayNode
  /\ exists p1 g, processStep rejectFloat p = (Continue, p1)
       /\ stack p1 = [firstFrame ArrayNode (length (heap p)); g].
Proof.
  intros p f n token t'.
  assert (started p = true) as Hst by (vm_compute; reflexivity).
  assert (stack p = [f]) as Hs by (vm_compute; reflexivity).
  assert (heap p !! FrameNode f = Some n) as Hn by (vm_compute; reflexivity).
  assert (NextToken (tokenizer p) = (token, t')) as Hnext by (vm_compute; reflexivity).
  assert (Completed token = true) as Hc by (vm_compute; reflexivity).
  assert (isStartTy (TokenTy token) = Some ArrayNode) as Hv by (vm_compute; reflexivity).
  destruct (X25_container_is_opened rejectFloat p f [] n token t' ArrayNode
              Hst Hs Hn Hnext Hc Hv) as (p1 & g & n1 & Hp & Hs1 & _).
  repeat (split; [assumption|]). exists p1, g. split; assumption.
Defined.

(** X26 at the bracket that closes [[1]]. *)
Lemma X26_witness :
  let p := steps 2 "[1]" in
  let f := mkFrame 0 "" false false in
  let token := (NextToken (tokenizer p)).1 in
  let t' := (NextToken (tokenizer p)).2 in
  Running rejectFloat p /\ started p = true /\ stack p = [f]
  /\ NextToken (tokenizer p) = (token, t')
  /\ Completed token = true /\ isEndTy (TokenTy token) = true
  /\ exists p1, processStep rejectFloat p = (Continue, p1)
       /\ (IsCompleted p1 = true <-> @nil StackFrame = []).
Proof.
  intros p f token t'.
  assert (Running rejectFloat p) as H by apply steps_Running.
  assert (started p = true) as Hst by (vm_compute; reflexivity).
  assert (stack p = [f]) as Hs by (vm_compute; reflexivity).
  assert (NextToken (tokenizer p) = (token, t')) as Hnext by (vm_compute; reflexivity).
  assert (Completed token = true) as Hc by (vm_compute; reflexivity).
  assert (isEndTy (TokenTy token) = true) as Hv by (vm_compute; reflexivity).
  destruct (X26_closer_closes_the_innermost_container rejectFloat p f [] token t'
              H Hst Hs Hnext Hc Hv) as (p1 & Hp & _ & _ & _ & Hi & _).
  repeat (split; [assumption|]). exists p1. split; assumption.
Defined.

(** X27 at the key of [{'a':1}]. *)
Lemma X27_witness :
  let p := steps 1 (js "{'a':1}") in
  let f := mkFrame 0 "" true false in
  let token := (NextToken (tokenizer p)).1 in
  let t' := (NextToken (tokenizer p)).2 in
  started p = true /\ stack p = [f]
  /\ NextToken (tokenizer p) = (token, t')
  /\ Completed token = true /\ isSeparatorTy (TokenTy token) = true
  /\ exists p1 g, processStep rejectFloat p = (Continue, p1)
       /\ heap p1 = heap p /\ stack p1 = [g] /\ CurrentKey g = "a"%string.
Proof.
  intros p f token t'.
  assert (started p = true) as Hst by (vm_compute; reflexivity).
  assert (stack p = [f]) as Hs by (vm_compute; reflexivity).
  assert (NextToken (tokenizer p) = (token, t')) as Hnext by (vm_compute; reflexivity).
  assert (Completed token = true) as Hc by (vm_compute; reflexivity).
  assert (isSeparatorTy (TokenTy token) = true) as Hv by (vm_compute; reflexivity).
  destruct (X27_keys_and_separators_keep_the_tree rejectFloat p f [] token t'
              Hst Hs Hnext Hc Hv) as (p1 & g & Hp & Hh & _ & Hs1 & _ & Hk).
  repeat (split; [assumption|]). exists p1, g.
  repeat (split; [assumption|]). rewrite Hk. vm_compute. reflexivity.
Defined.

(** X28 at the unfinished string of [['ab]. *)
Lemma X28_witness :
  let p := steps 1 (js "['ab") in
  let token := (NextToken (tokenizer p)).1 in
  let t' := (NextToken (tokenizer p)).2 in
  Running rejectFloat p /\ started p = true
  /\ NextToken (tokenizer p) = (token, t') /\ Completed token = false
  /\ TokenTy token = String
  /\ (forall f rest, stack p = f :: rest ->
        isObjectAt (heap p) (FrameNode f) = false \/ CurrentKey f = EmptyString)
  /\ processStep rejectFloat p = (Break, setTokenizer p t').
Proof.
  intros p token t'.
  assert (Running rejectFloat p) as H by apply steps_Running.
  assert (started p = true) as Hst by (vm_compute; reflexivity).
  assert (NextToken (tokenizer p) = (token, t')) as Hnext by (vm_compute; reflexivity).
  assert (Completed token = false) as Hc by (vm_compute; reflexivity).
  assert (TokenTy token = String) as Hty by (vm_compute; reflexivity).
  assert (forall f rest, stack p = f :: rest ->
            isObjectAt (heap p) (FrameNode f) = false \/ CurrentKey f = EmptyString)
    as Hside.
  { intros f rest Hs. vm_compute in Hs. injection Hs as <- <-. left.
    vm_compute. reflexivity. }
  destruct (X28_partial_values_are_strings_under_a_key rejectFloat p token t'
              H Hst Hnext Hc (fun _ => Hside)) as [Hp _].
  repeat (split; [assumption|]). exact Hp.
Defined.
